(** * basef: path-pattern matcher and publish/subscribe dispatcher

    A shallow embedding of [path-match/pathSegment.ts],
    [path-match/segmentMatcher.ts], [path-match/mod.ts] and [pubsub/mod.ts],
    followed by the properties of the specification that concern them.

    Conventions.  A JavaScript string is a [string]: a sequence of code
    units, here restricted to the range 0..255 and read as Latin-1.  A
    JavaScript object used as a dictionary is a [gmap string _].  A function
    that may [throw] returns a [result]. *)

From Stdlib Require Import ZArith Ascii String Lia Sorted.
From stdpp Require Import gmap strings list.

Local Open Scope Z_scope.

(** ** Exceptions *)

(** Every [throw new Error(...)] of the sources, by the message it carries,
    and the [SyntaxError] of the host's [RegExp] constructor. *)
Inductive exn : Type :=
  | EmptySegment                          (* "Empty segment is not allowed." *)
  | MissingNameBeforeBracket (core : string)  (* "Invalid param syntax. Missing name before bracket: ..." *)
  | InvalidBracketInParam (core : string)     (* "Invalid bracket expression in param: ..." *)
  | InvalidParamSyntax (core : string)        (* "Invalid param syntax: ..." *)
  | UnknownWildcardSymbol (sym : string)      (* "Unknown wildcard symbol: ..." *)
  | UnknownStandaloneWildcard (seg : string)  (* "Unknown standalone wildcard: ..." *)
  | UnknownSuffix (suffix : string)           (* "Unknown suffix: ..." *)
  | DuplicateParameterName (name : string)    (* "Duplicate parameter name: ..." *)
  | SyntaxError (source : string).            (* thrown by new RegExp(source, flags) *)

Inductive result (A : Type) : Type :=
  | Ok (a : A)
  | Throw (e : exn).
Arguments Ok {A} a.
Arguments Throw {A} e.

Definition bind {A B : Type} (r : result A) (k : A -> result B) : result B :=
  match r with
  | Ok a => k a
  | Throw e => Throw e
  end.

Notation "'let!' x ':=' r 'in' k" := (bind r (fun x => k))
  (at level 10, x name, r at level 100, k at level 200).

Definition throws {A : Type} (r : result A) : Prop :=
  match r with
  | Ok _ => False
  | Throw _ => True
  end.

Definition returns {A : Type} (r : result A) : Prop :=
  match r with
  | Ok _ => True
  | Throw _ => False
  end.

(** [xs.map(f)] where [f] may throw: the first exception stops the map. *)
Fixpoint mapM {A B : Type} (f : A -> result B) (l : list A) : result (list B) :=
  match l with
  | [] => Ok []
  | x :: t => let! y := f x in let! ys := mapM f t in Ok (y :: ys)
  end.

(** ** Strings: the string methods the sources call *)

Module Str.

Definition code (c : ascii) : Z := Z.of_N (N_of_ascii c).
Definition chr (n : Z) : ascii := ascii_of_N (Z.to_N n).

(** [WhiteSpace] and [LineTerminator] code units below 256: TAB, LF, VT, FF,
    CR, SPACE, NBSP. *)
Definition isWhiteSpace (c : ascii) : bool :=
  let n := code c in
  ((9 <=? n) && (n <=? 13)) || (n =? 32) || (n =? 160).

(** [LineTerminator] code units below 256, which a regular expression's
    dot does not match. *)
Definition isLineTerminator (c : ascii) : bool :=
  let n := code c in (n =? 10) || (n =? 13).

(** [toLowerCase] on one code unit: A-Z, and the Latin-1 capitals
    U+00C0..U+00DE without the multiplication sign U+00D7. *)
Definition toLowerCaseChar (c : ascii) : ascii :=
  let n := code c in
  if ((65 <=? n) && (n <=? 90)) ||
     ((192 <=? n) && (n <=? 222) && negb (n =? 215))
  then chr (n + 32) else c.

Fixpoint toLowerCase (s : string) : string :=
  match s with
  | EmptyString => EmptyString
  | String c s' => String (toLowerCaseChar c) (toLowerCase s')
  end.

Fixpoint trimStart (s : string) : string :=
  match s with
  | EmptyString => EmptyString
  | String c s' => if isWhiteSpace c then trimStart s' else s
  end.

Fixpoint trimEnd (s : string) : string :=
  match s with
  | EmptyString => EmptyString
  | String c s' =>
      match trimEnd s' with
      | EmptyString => if isWhiteSpace c then EmptyString else String c EmptyString
      | r => String c r
      end
  end.

Definition trim (s : string) : string := trimStart (trimEnd s).

(** [!!s] for a string: the empty string is the only falsy one. *)
Definition truthy (s : string) : bool :=
  match s with
  | EmptyString => false
  | String _ _ => true
  end.

(** [s.split(sep)] for a one-character separator: never the empty list. *)
Fixpoint split (sep : ascii) (s : string) : list string :=
  match s with
  | EmptyString => [EmptyString]
  | String c s' =>
      if Ascii.eqb c sep then EmptyString :: split sep s'
      else match split sep s' with
           | [] => [String c EmptyString]
           | h :: t => String c h :: t
           end
  end.

(** [xs.join(sep)] for a one-character separator. *)
Fixpoint join (sep : ascii) (l : list string) : string :=
  match l with
  | [] => EmptyString
  | [x] => x
  | x :: t => x +:+ String sep (join sep t)
  end.

Definition len (s : string) : Z := Z.of_nat (String.length s).

(** [s.slice(start, end)], negative indices counting from the end. *)
Definition slice (s : string) (from to : Z) : string :=
  let k := if from <? 0 then Z.max (len s + from) 0 else Z.min from (len s) in
  let e := if to <? 0 then Z.max (len s + to) 0 else Z.min to (len s) in
  String.substring (Z.to_nat k) (Z.to_nat (e - k)) s.

(** [s.slice(start)]. *)
Definition sliceFrom (s : string) (from : Z) : string := slice s from (len s).

Fixpoint indexOfAux (c : ascii) (s : string) (pos from : Z) : Z :=
  match s with
  | EmptyString => -1
  | String a s' =>
      if (from <=? pos) && Ascii.eqb a c then pos
      else indexOfAux c s' (pos + 1) from
  end.

(** [s.indexOf(c, from)] for a one-character needle; [-1] when absent. *)
Definition indexOf (c : ascii) (s : string) (from : Z) : Z :=
  indexOfAux c s 0 from.

(** [s.includes(c)] for a one-character needle. *)
Fixpoint includes (c : ascii) (s : string) : bool :=
  match s with
  | EmptyString => false
  | String a s' => Ascii.eqb a c || includes c s'
  end.

(** [s.startsWith(p)]. *)
Fixpoint startsWith (p s : string) : bool :=
  match p, s with
  | EmptyString, _ => true
  | String a p', String b s' => Ascii.eqb a b && startsWith p' s'
  | String _ _, EmptyString => false
  end.

(** [s.endsWith(p)]. *)
Definition endsWith (p s : string) : bool :=
  let n := (String.length s - String.length p)%nat in
  (String.length p <=? String.length s)%nat &&
  String.eqb (String.substring n (String.length p) s) p.

End Str.

(** ** pathSegment.ts *)

Module PathSegment.

Inductive SegmentType : Type := static | param | wildcard.

Record PathSegmentData : Type := mkData {
  segmentType : SegmentType;
  name : option string;
  range : option string;
  optional : bool;
  single : bool;
  multi : bool;
  multiString : bool;
}.

(** The initial value of the [data] field. *)
Definition data0 : PathSegmentData :=
  mkData static None None false false false false.

Definition setType (t : SegmentType) (d : PathSegmentData) :=
  mkData t (name d) (range d) (optional d) (single d) (multi d) (multiString d).
Definition setName (n : string) (d : PathSegmentData) :=
  mkData (segmentType d) (Some n) (range d) (optional d) (single d) (multi d) (multiString d).
Definition setRange (r : string) (d : PathSegmentData) :=
  mkData (segmentType d) (name d) (Some r) (optional d) (single d) (multi d) (multiString d).
Definition setOptional (d : PathSegmentData) :=
  mkData (segmentType d) (name d) (range d) true (single d) (multi d) (multiString d).
Definition setSingle (d : PathSegmentData) :=
  mkData (segmentType d) (name d) (range d) (optional d) true (multi d) (multiString d).
Definition setMulti (d : PathSegmentData) :=
  mkData (segmentType d) (name d) (range d) (optional d) (single d) true (multiString d).
Definition setMultiString (d : PathSegmentData) :=
  mkData (segmentType d) (name d) (range d) (optional d) (single d) (multi d) true.

Definition isVariable (d : PathSegmentData) : bool :=
  match segmentType d with
  | static => false
  | _ => true
  end.

(** [applySuffix]: the switch on the suffix, then the default to [single]
    when no flag is set. *)
Definition applySuffix (suffix : string) (d : PathSegmentData) : result PathSegmentData :=
  let! d1 :=
        (if String.eqb suffix "+" then Ok (setMultiString d)
         else if String.eqb suffix "?" then Ok (setOptional d)
         else if String.eqb suffix "*" then Ok (setSingle d)
         else if String.eqb suffix "**" then Ok (setMulti d)
         else if String.eqb suffix "" then
           Ok (if isVariable d then setSingle d else d)
         else Throw (UnknownSuffix suffix)) in
  Ok (if isVariable d1 && negb (optional d1) && negb (multi d1) &&
         negb (multiString d1) && negb (single d1)
      then setSingle d1 else d1).

(** [parseParam]: the text after the colon. *)
Definition parseParam (core : string) (d : PathSegmentData) : result PathSegmentData :=
  let bracketStart := Str.indexOf "[" core 0 in
  if negb (bracketStart =? -1) then
    let namePart := Str.slice core 0 bracketStart in
    if negb (Str.truthy namePart) then Throw (MissingNameBeforeBracket core)
    else
      let d := setName namePart d in
      let bracketEnd := Str.indexOf "]" core bracketStart in
      if bracketEnd =? -1 then Throw (InvalidBracketInParam core)
      else
        let rangePart := Str.slice core bracketStart (bracketEnd + 1) in
        let d := setRange rangePart d in
        let suffix := Str.sliceFrom core (bracketEnd + 1) in
        applySuffix suffix d
  else
    let '(suffix, nm) :=
      if Str.endsWith "**" core then ("**", Str.slice core 0 (-2))
      else if Str.endsWith "+" core then ("+", Str.slice core 0 (-1))
      else if Str.endsWith "?" core then ("?", Str.slice core 0 (-1))
      else if Str.endsWith "*" core then ("*", Str.slice core 0 (-1))
      else ("", core) in
    let! d := applySuffix suffix d in
    let d := setName nm d in
    if negb (Str.truthy nm) then Throw (InvalidParamSyntax core) else Ok d.

Definition isStandaloneWildcard (s : string) : bool :=
  String.eqb s "*" || String.eqb s "**" || String.eqb s "?" || String.eqb s "+".

Definition parseStandaloneWildcard (seg : string) (d : PathSegmentData) : result PathSegmentData :=
  if String.eqb seg "*" then Ok (setSingle d)
  else if String.eqb seg "**" then Ok (setMulti d)
  else if String.eqb seg "?" then Ok (setOptional d)
  else if String.eqb seg "+" then Ok (setMultiString d)
  else Throw (UnknownStandaloneWildcard seg).

(** The longest prefix of [s] without a closing bracket, and what follows
    that bracket; [None] when [s] has no closing bracket. *)
Fixpoint untilClose (s : string) : option (string * string) :=
  match s with
  | EmptyString => None
  | String c s' =>
      if Ascii.eqb c "]" then Some (EmptyString, s')
      else match untilClose s' with
           | Some (body, rest) => Some (String c body, rest)
           | None => None
           end
  end.

Fixpoint noLineTerminator (s : string) : bool :=
  match s with
  | EmptyString => true
  | String c s' => negb (Str.isLineTerminator c) && noLineTerminator s'
  end.

(** The regular expression of the bracket-first wildcard (anchored at both
    ends): group 1 is an opening bracket, one or more characters other than
    a closing bracket, and a closing bracket; group 2 is any run of
    characters other than line terminators, up to the end of the input.
    The result holds group 1 (brackets included) and group 2. *)
Definition bracketedRangeMatch (seg : string) : option (string * string) :=
  match seg with
  | String c s' =>
      if Ascii.eqb c "[" then
        match untilClose s' with
        | Some (String b body, suffix) =>
            if noLineTerminator suffix
            then Some ("[" +:+ String b body +:+ "]", suffix)
            else None
        | _ => None
        end
      else None
  | EmptyString => None
  end.

(** The regular expression of the wildcard with a leading modifier: group
    1 is one of the symbols "**", "*", "+", "?", tried in that order, and
    the rest is as in [bracketedRangeMatch].  At most one alternative can
    be followed by an opening bracket. *)
Definition wildcardWithRangeMatch (seg : string) : option (string * string * string) :=
  let attempt (sym : string) :=
    if Str.startsWith sym seg then
      match bracketedRangeMatch (Str.sliceFrom seg (Str.len sym)) with
      | Some (rangePart, suffix) => Some (sym, rangePart, suffix)
      | None => None
      end
    else None in
  match attempt "**" with
  | Some r => Some r
  | None =>
    match attempt "*" with
    | Some r => Some r
    | None =>
      match attempt "+" with
      | Some r => Some r
      | None => attempt "?"
      end
    end
  end.

(** [parse], from the initial [data]. *)
Definition parse (seg : string) : result PathSegmentData :=
  let seg := Str.trim seg in
  let d := data0 in
  if negb (Str.truthy seg) then Throw EmptySegment
  else if Str.startsWith ":" seg then
    parseParam (Str.sliceFrom seg 1) (setType param d)
  else
    match wildcardWithRangeMatch seg with
    | Some (wildcardSymbol, rangePart, suffix) =>
        let d := setRange rangePart (setType wildcard d) in
        let! d :=
             (if String.eqb wildcardSymbol "*" then Ok (setSingle d)
              else if String.eqb wildcardSymbol "**" then Ok (setMulti d)
              else if String.eqb wildcardSymbol "+" then Ok (setMultiString d)
              else if String.eqb wildcardSymbol "?" then Ok (setOptional d)
              else Throw (UnknownWildcardSymbol wildcardSymbol)) in
        applySuffix suffix d
    | None =>
        if isStandaloneWildcard seg then
          parseStandaloneWildcard seg (setType wildcard d)
        else
          match bracketedRangeMatch seg with
          | Some (bracketPart, suffix) =>
              applySuffix suffix (setRange bracketPart (setType wildcard d))
          | None => Ok (setType static d)
          end
    end.

(** An instance of the class: the constructor's argument and the parsed
    data. *)
Record t : Type := mk {
  rawSegment : string;
  data : PathSegmentData;
}.

(** [new PathSegment(rawSegment)]. *)
Definition new (raw : string) : result t :=
  let! d := parse raw in Ok (mk raw d).

Definition getData (s : t) : PathSegmentData := data s.
Definition getRaw (s : t) : string := rawSegment s.

(** The other accessors. *)
Definition isParam (s : t) : bool :=
  match segmentType (data s) with
  | param => true
  | _ => false
  end.

Definition isWildcard (s : t) : bool :=
  match segmentType (data s) with
  | wildcard => true
  | _ => false
  end.

Definition isOptional (s : t) : bool := optional (data s).
Definition isSingle (s : t) : bool := single (data s).
Definition isMulti (s : t) : bool := multi (data s).
Definition isMultiString (s : t) : bool := multiString (data s).
Definition getName (s : t) : option string := name (data s).
Definition getRange (s : t) : option string := range (data s).

(** [getType]: the effective type, by the first test that holds; the
    last line is the source's fallback. *)
Definition getType (s : t) : string :=
  match segmentType (data s) with
  | static => "static"
  | _ =>
      if optional (data s) then "optional"
      else if multiString (data s) then "multi-string"
      else if multi (data s) then "multi"
      else if single (data s) then "single"
      else "static"
  end.

(** [looksLikeRange], a private method that nothing calls. *)
Definition looksLikeRange (s : string) : bool :=
  Str.startsWith "[" s && Str.includes "]" s.

End PathSegment.

(** ** The host's regular expressions

    [segmentMatcher.ts] builds one kind of regular expression only: the
    source is a caret, a character class, a plus and a dollar, and the flag
    is [i].  [EsRegExp] is a reference model of ECMAScript's [RegExp] on
    that fragment (Annex B grammar, no [u] flag), used where a property is
    evaluated on concrete input.  The matcher itself is parameterised by
    the host's constructor and [test] method. *)

Module EsRegExp.

(** A class atom: one code unit, or the set of a class escape. *)
Inductive ClassAtom : Type :=
  | AChar (n : Z)
  | ASet (ranges : list (Z * Z)).

(** A compiled class: its inclusive ranges of code units, and whether it
    began with a caret. *)
Record regex : Type := mkRegex {
  invert : bool;
  ranges : list (Z * Z);
}.

Definition digits : list (Z * Z) := [(48, 57)].
Definition nonDigits : list (Z * Z) := [(0, 47); (58, 65535)].
Definition wordChars : list (Z * Z) := [(48, 57); (65, 90); (95, 95); (97, 122)].
Definition nonWordChars : list (Z * Z) :=
  [(0, 47); (58, 64); (91, 94); (96, 96); (123, 65535)].
Definition spaces : list (Z * Z) :=
  [(9, 13); (32, 32); (160, 160); (5760, 5760); (8192, 8202); (8232, 8233);
   (8239, 8239); (8287, 8287); (12288, 12288); (65279, 65279)].
Definition nonSpaces : list (Z * Z) :=
  [(0, 8); (14, 31); (33, 159); (161, 5759); (5761, 8191); (8203, 8231);
   (8234, 8238); (8240, 8286); (8288, 12287); (12289, 65278); (65280, 65535)].

Definition hexValue (c : ascii) : option Z :=
  let n := Str.code c in
  if (48 <=? n) && (n <=? 57) then Some (n - 48)
  else if (65 <=? n) && (n <=? 70) then Some (n - 55)
  else if (97 <=? n) && (n <=? 102) then Some (n - 87)
  else None.

Definition octValue (c : ascii) : option Z :=
  let n := Str.code c in
  if (48 <=? n) && (n <=? 55) then Some (n - 48) else None.

Fixpoint hexDigits (k : nat) (s : string) (acc : Z) : option (Z * string) :=
  match k with
  | O => Some (acc, s)
  | S k' =>
      match s with
      | String c s' =>
          match hexValue c with
          | Some v => hexDigits k' s' (16 * acc + v)
          | None => None
          end
      | EmptyString => None
      end
  end.

Definition isAsciiLetter (c : ascii) : bool :=
  let n := Str.code c in
  ((65 <=? n) && (n <=? 90)) || ((97 <=? n) && (n <=? 122)).

Definition isClassControlLetter (c : ascii) : bool :=
  let n := Str.code c in
  ((48 <=? n) && (n <=? 57)) || (n =? 95).

(** A legacy octal escape: [d] is the value of its first digit, [s] what
    follows it. *)
Definition legacyOctal (d : Z) (s : string) : Z * string :=
  match s with
  | String c1 s1 =>
      match octValue c1 with
      | Some v1 =>
          if d <=? 3 then
            match s1 with
            | String c2 s2 =>
                match octValue c2 with
                | Some v2 => (64 * d + 8 * v1 + v2, s2)
                | None => (8 * d + v1, s1)
                end
            | EmptyString => (8 * d + v1, s1)
            end
          else (8 * d + v1, s1)
      | None => (d, s)
      end
  | EmptyString => (d, s)
  end.

(** [ClassEscape]: [s] is what follows the backslash.  [None] when the
    source ends with the backslash. *)
Definition classEscape (s : string) : option (ClassAtom * string) :=
  match s with
  | EmptyString => None
  | String c s' =>
      let n := Str.code c in
      if n =? 100 then Some (ASet digits, s')            (* d *)
      else if n =? 68 then Some (ASet nonDigits, s')    (* D *)
      else if n =? 115 then Some (ASet spaces, s')      (* s *)
      else if n =? 83 then Some (ASet nonSpaces, s')    (* S *)
      else if n =? 119 then Some (ASet wordChars, s')   (* w *)
      else if n =? 87 then Some (ASet nonWordChars, s') (* W *)
      else if n =? 98 then Some (AChar 8, s')           (* b *)
      else if n =? 102 then Some (AChar 12, s')         (* f *)
      else if n =? 110 then Some (AChar 10, s')         (* n *)
      else if n =? 114 then Some (AChar 13, s')         (* r *)
      else if n =? 116 then Some (AChar 9, s')          (* t *)
      else if n =? 118 then Some (AChar 11, s')         (* v *)
      else if n =? 99 then                               (* c *)
        match s' with
        | String l s'' =>
            if isAsciiLetter l || isClassControlLetter l
            then Some (AChar (Str.code l mod 32), s'')
            else Some (AChar 92, s)
        | EmptyString => Some (AChar 92, s)
        end
      else if n =? 120 then                              (* x *)
        match hexDigits 2 s' 0 with
        | Some (v, r) => Some (AChar v, r)
        | None => Some (AChar n, s')
        end
      else if n =? 117 then                              (* u *)
        match hexDigits 4 s' 0 with
        | Some (v, r) => Some (AChar v, r)
        | None => Some (AChar n, s')
        end
      else
        match octValue c with
        | Some d => let '(v, r) := legacyOctal d s' in Some (AChar v, r)
        | None => Some (AChar n, s')                     (* identity escape *)
        end
  end.

(** [ClassAtom]: [None] at the end of the source. *)
Definition classAtom (s : string) : option (ClassAtom * string) :=
  match s with
  | EmptyString => None
  | String c s' =>
      if Ascii.eqb c "\" then classEscape s' else Some (AChar (Str.code c), s')
  end.

Definition atomRanges (a : ClassAtom) : list (Z * Z) :=
  match a with
  | AChar n => [(n, n)]
  | ASet r => r
  end.

(** [ClassRanges] on the text between the brackets, which holds no
    closing bracket: the class ends where the text ends.  [None] is a
    [SyntaxError]: a range out of order, or a final backslash, which
    escapes the closing bracket and leaves the class open. *)
Fixpoint classRanges (fuel : nat) (s : string) (acc : list (Z * Z))
  : option (list (Z * Z)) :=
  match fuel with
  | O => None
  | S fuel' =>
      match s with
      | EmptyString => Some acc
      | String _ _ =>
          match classAtom s with
          | None => None
          | Some (a, r) =>
              match r with
              | EmptyString => Some (acc ++ atomRanges a)
              | String d r' =>
                  if Ascii.eqb d "-" then
                    match r' with
                    | EmptyString => Some (acc ++ atomRanges a ++ [(45, 45)])
                    | String _ _ =>
                        match classAtom r' with
                        | None => None
                        | Some (b, r'') =>
                            match a, b with
                            | AChar x, AChar y =>
                                if y <? x then None
                                else classRanges fuel' r'' (acc ++ [(x, y)])
                            | _, _ =>
                                classRanges fuel' r''
                                  (acc ++ atomRanges a ++ [(45, 45)] ++ atomRanges b)
                            end
                        end
                    end
                  else classRanges fuel' r (acc ++ atomRanges a)
              end
          end
      end
  end.

(** [new RegExp(source, flags)] on the fragment: a caret, a class, a plus
    and a dollar, with the flag [i].  A source outside the fragment, or
    whose class closes before its last bracket, is not modelled and is
    reported as an error; the matcher builds none (lemma
    [range_body_closed]). *)
Definition RegExp (source flags : string) : result regex :=
  if Str.startsWith "^[" source && Str.endsWith "]+$" source &&
     (5 <=? Str.len source) && String.eqb flags "i" then
    let body := Str.slice source 2 (-3) in
    if Str.includes "]" body then Throw (SyntaxError source)
    else
      let '(inv, body) :=
        if Str.startsWith "^" body then (true, Str.sliceFrom body 1)
        else (false, body) in
      match classRanges (S (String.length body)) body [] with
      | Some rs => Ok (mkRegex inv rs)
      | None => Throw (SyntaxError source)
      end
  else Throw (SyntaxError source).

Definition inRanges (rs : list (Z * Z)) (n : Z) : bool :=
  existsb (fun '(lo, hi) => (lo <=? n) && (n <=? hi)) rs.

(** The code units whose canonical form under the [i] flag is that of
    [n], for [n] below 256. *)
Definition caseVariants (n : Z) : list Z :=
  if ((65 <=? n) && (n <=? 90)) || ((192 <=? n) && (n <=? 222) && negb (n =? 215))
  then [n; n + 32]
  else if ((97 <=? n) && (n <=? 122)) || ((224 <=? n) && (n <=? 254) && negb (n =? 247))
  then [n; n - 32]
  else if n =? 181 then [181; 924; 956]
  else if n =? 255 then [255; 376]
  else [n].

Definition matchesChar (re : regex) (c : ascii) : bool :=
  xorb (invert re) (existsb (inRanges (ranges re)) (caseVariants (Str.code c))).

Fixpoint allChars (re : regex) (s : string) : bool :=
  match s with
  | EmptyString => true
  | String c s' => matchesChar re c && allChars re s'
  end.

(** [re.test(value)]: one or more characters, all of the class. *)
Definition test (re : regex) (value : string) : bool :=
  Str.truthy value && allChars re value.

End EsRegExp.

(** ** segmentMatcher.ts *)

Module SegmentMatcher.

(** [string | string[]]. *)
Inductive ParamValue : Type :=
  | PString (s : string)
  | PList (l : list string).

(** [SegmentMatchResult]; an absent field is [None]. *)
Record SegmentMatchResult : Type := mkResult {
  leftover : list string;
  paramName : option string;
  paramValue : option ParamValue;
  wildcard : option (list string);
}.

Record t : Type := mk {
  segment : PathSegment.t;
  segType : PathSegment.SegmentType;
  name : option string;
  range : option string;
  optional : bool;
  single : bool;
  multi : bool;
  multiString : bool;
}.

(** [new SegmentMatcher(segment)]. *)
Definition new (segment : PathSegment.t) : t :=
  let data := PathSegment.getData segment in
  mk segment (PathSegment.segmentType data) (PathSegment.name data)
     (PathSegment.range data) (PathSegment.optional data)
     (PathSegment.single data) (PathSegment.multi data)
     (PathSegment.multiString data).

Definition isOptional (m : t) : bool := optional m.

Definition isParam (m : t) : bool :=
  match segType m with
  | PathSegment.param => true
  | _ => false
  end.

Definition isWildcard (m : t) : bool :=
  match segType m with
  | PathSegment.wildcard => true
  | _ => false
  end.

Section Host.

(** The host's regular expressions: [new RegExp(source, flags)], which may
    throw, and [re.test(value)]. *)
Context {regex : Type}.
Variable RegExp : string -> string -> result regex.
Variable test : regex -> string -> bool.

Definition inBracketRange (value rangeExpr : string) : result bool :=
  let body := Str.slice rangeExpr 1 (-1) in
  let! re := RegExp ("^[" +:+ body +:+ "]+$") "i" in
  Ok (test re value).

(** The guard [this.range && !this.inBracketRange(value, this.range)]. *)
Definition outOfRange (m : t) (value : string) : result bool :=
  match range m with
  | Some r =>
      if Str.truthy r then
        let! b := inBracketRange value r in Ok (negb b)
      else Ok false
  | None => Ok false
  end.

(** The loop [for (const seg of segments)] with its early return: whether
    some segment is out of range. *)
Fixpoint anyOutOfRange (m : t) (segments : list string) : result bool :=
  match segments with
  | [] => Ok false
  | seg :: rest =>
      let! b := outOfRange m seg in
      if b then Ok true else anyOutOfRange m rest
  end.

Definition matchStatic (m : t) (segments : list string)
  : result (option SegmentMatchResult) :=
  match segments with
  | [] => Ok None
  | first :: rest =>
      if String.eqb first (PathSegment.getRaw (segment m))
      then Ok (Some (mkResult rest None None None))
      else Ok None
  end.

Definition matchSingleParam (m : t) (segments : list string)
  : result (option SegmentMatchResult) :=
  match segments with
  | [] => Ok None
  | first :: rest =>
      let! b := outOfRange m first in
      if b then Ok None
      else Ok (Some (mkResult rest (name m) (Some (PString first)) None))
  end.

Definition matchMultiParam (m : t) (segments : list string)
  : result (option SegmentMatchResult) :=
  match segments with
  | [] => Ok None
  | _ :: _ =>
      let! b := anyOutOfRange m segments in
      if b then Ok None
      else Ok (Some (mkResult [] (name m) (Some (PList segments)) None))
  end.

Definition matchMultiStringParam (m : t) (segments : list string)
  : result (option SegmentMatchResult) :=
  match segments with
  | [] => Ok None
  | _ :: _ =>
      let! b := anyOutOfRange m segments in
      if b then Ok None
      else Ok (Some (mkResult [] (name m)
                       (Some (PString (Str.join "/" segments))) None))
  end.

Definition matchOptionalParam (m : t) (segments : list string)
  : result (option SegmentMatchResult) :=
  match segments with
  | [] => Ok (Some (mkResult [] None None None))
  | first :: rest =>
      let! b := outOfRange m first in
      if b then Ok (Some (mkResult segments None None None))
      else Ok (Some (mkResult rest (name m) (Some (PString first)) None))
  end.

Definition matchParam (m : t) (segments : list string)
  : result (option SegmentMatchResult) :=
  match name m with
  | None => Ok None
  | Some n =>
      if negb (Str.truthy n) then Ok None
      else if single m then matchSingleParam m segments
      else if multi m then matchMultiParam m segments
      else if multiString m then matchMultiStringParam m segments
      else if optional m then matchOptionalParam m segments
      else Ok None
  end.

Definition matchSingleWildcard (m : t) (segments : list string)
  : result (option SegmentMatchResult) :=
  match segments with
  | [] => Ok None
  | first :: rest =>
      let! b := outOfRange m first in
      if b then Ok None
      else Ok (Some (mkResult rest None None (Some [first])))
  end.

Definition matchMultiWildcard (m : t) (segments : list string)
  : result (option SegmentMatchResult) :=
  match segments with
  | [] => Ok None
  | _ :: _ =>
      let! b := anyOutOfRange m segments in
      if b then Ok None
      else Ok (Some (mkResult [] None None (Some segments)))
  end.

Definition matchMultiStringWildcard (m : t) (segments : list string)
  : result (option SegmentMatchResult) :=
  match segments with
  | [] => Ok None
  | _ :: _ =>
      let! b := anyOutOfRange m segments in
      if b then Ok None
      else Ok (Some (mkResult [] None None (Some [Str.join "/" segments])))
  end.

Definition matchOptionalWildcard (m : t) (segments : list string)
  : result (option SegmentMatchResult) :=
  match segments with
  | [] => Ok (Some (mkResult [] None None None))
  | first :: rest =>
      let! b := outOfRange m first in
      if b then Ok (Some (mkResult segments None None None))
      else Ok (Some (mkResult rest None None (Some [first])))
  end.

Definition matchWildcard (m : t) (segments : list string)
  : result (option SegmentMatchResult) :=
  if single m then matchSingleWildcard m segments
  else if multi m then matchMultiWildcard m segments
  else if multiString m then matchMultiStringWildcard m segments
  else if optional m then matchOptionalWildcard m segments
  else Ok None.

(** [match]: [None] is the source's [undefined]. *)
Definition match_ (m : t) (uriSegments : list string)
  : result (option SegmentMatchResult) :=
  match segType m with
  | PathSegment.static => matchStatic m uriSegments
  | PathSegment.param => matchParam m uriSegments
  | PathSegment.wildcard => matchWildcard m uriSegments
  end.

End Host.

End SegmentMatcher.

(** ** path-match/mod.ts *)

Module BasePathMatcher.

Import SegmentMatcher.

(** [Record<string, string | string[]>]. *)
Abbreviation Params := (gmap string ParamValue).

Record PathMatchResult : Type := mkPathMatchResult {
  path : string;
  params : Params;
  wildcard : list string;
  matched : bool;
}.

Record t : Type := mk {
  matchers : list SegmentMatcher.t;
  pattern : string;
  isRoot : bool;
}.

Definition normalizePath (path : string) : string :=
  "/" +:+ Str.join "/"
            (List.filter Str.truthy
               (List.map Str.trim (Str.split "/" (Str.toLowerCase path)))).

(** [slice(1)] on an array. *)
Definition getSegments (path : string) : list string :=
  drop 1 (Str.split "/" (normalizePath path)).

Definition parsePattern (pattern : string) : result (list PathSegment.t) :=
  if String.eqb pattern "/" then
    let! seg := PathSegment.new pattern in Ok [seg]
  else mapM PathSegment.new (getSegments pattern).

(** The loop of [checkParams], [paramNames] being the set built so far.
    [matcher.name!] is the field as it is, defined or not. *)
Fixpoint checkParamsFrom (paramNames : gset (option string))
    (matchers : list SegmentMatcher.t) : result unit :=
  match matchers with
  | [] => Ok tt
  | matcher :: rest =>
      match segType matcher with
      | PathSegment.param =>
          if decide (name matcher ∈ paramNames)
          then Throw (DuplicateParameterName (default "undefined" (name matcher)))
          else checkParamsFrom ({[ name matcher ]} ∪ paramNames) rest
      | _ => checkParamsFrom paramNames rest
      end
  end.

Definition checkParams (matchers : list SegmentMatcher.t) : result unit :=
  checkParamsFrom ∅ matchers.

(** [new BasePathMatcher(pattern)]. *)
Definition new (pattern : string) : result t :=
  let! segs := parsePattern pattern in
  let matchers := List.map SegmentMatcher.new segs in
  let pattern := normalizePath pattern in
  let isRoot := String.eqb pattern "/" in
  let! _ := checkParams matchers in
  Ok (mk matchers pattern isRoot).

(** [params[key] = value] on an object created by [{}]: the key
    [__proto__] reaches the prototype's setter and creates no property. *)
Definition setProperty (key : string) (value : ParamValue) (o : Params) : Params :=
  if String.eqb key "__proto__" then o else <[key := value]> o.

(** The state of the loop of [match] when it ends. *)
Record LoopState : Type := mkLoop {
  loopParams : Params;
  loopWildcard : list string;
  remainingSegments : list string;
  isMatched : bool;
}.

Section Host.

Context {regex : Type}.
Variable RegExp : string -> string -> result regex.
Variable test : regex -> string -> bool.

(** The loop [for (const matcher of this.matchers)] of [match]. *)
Fixpoint matchLoop (ms : list SegmentMatcher.t) (params : Params)
    (wildcard remaining : list string) : result LoopState :=
  match ms with
  | [] => Ok (mkLoop params wildcard remaining true)
  | matcher :: rest =>
      if (length remaining =? 0)%nat then
        if isOptional matcher then matchLoop rest params wildcard remaining
        else Ok (mkLoop params wildcard remaining false)
      else
        let! result := SegmentMatcher.match_ RegExp test matcher remaining in
        match result with
        | None => Ok (mkLoop params wildcard remaining false)
        | Some result =>
            let params :=
              match paramName result, paramValue result with
              | Some n, Some v =>
                  if Str.truthy n then setProperty n v params else params
              | _, _ => params
              end in
            let wildcard :=
              match SegmentMatcher.wildcard result with
              | Some w => wildcard ++ w
              | None => wildcard
              end in
            matchLoop rest params wildcard (leftover result)
        end
  end.

(** [match]. *)
Definition match_ (m : t) (uri : string) : result PathMatchResult :=
  if isRoot m && String.eqb (normalizePath uri) "/" then
    Ok (mkPathMatchResult "/" ∅ [] true)
  else
    let uriSegments := getSegments uri in
    let! st := matchLoop (matchers m) ∅ [] uriSegments in
    let isMatched :=
      if isMatched st && (0 <? length (remainingSegments st))%nat
      then false else isMatched st in
    Ok (mkPathMatchResult ("/" +:+ Str.join "/" uriSegments)
          (if isMatched then loopParams st else ∅)
          (if isMatched then loopWildcard st else [])
          isMatched).

End Host.

End BasePathMatcher.

(** The matcher on the reference model of the host. *)
Definition es_match (m : BasePathMatcher.t) (uri : string)
  : result BasePathMatcher.PathMatchResult :=
  BasePathMatcher.match_ EsRegExp.RegExp EsRegExp.test m uri.

(** [new BasePathMatcher(pattern).match(uri)] on the reference model. *)
Definition es_run (pattern uri : string) : result BasePathMatcher.PathMatchResult :=
  let! m := BasePathMatcher.new pattern in es_match m uri.

(** ** pubsub/mod.ts

    The bus runs on a single-threaded event loop.  [tick()] resolves in a
    [setImmediate] callback, so whatever awaits it resumes in a later turn
    of the loop, in the order of the calls of [tick].  A reaction to a
    promise that is settled is a job of the current turn: the jobs run
    after the running code and before the next [setImmediate] callback,
    in the order in which they became due. *)

Module BasePubSub.

(** A value of type [unknown]. *)
Inductive JSValue : Type :=
  | JSUndefined
  | JSNull
  | JSBoolean (b : bool)
  | JSNumber (n : Z)
  | JSString (s : string)
  | JSStrings (l : list string)      (* an array of strings *)
  | JSObject (identity : nat).       (* any other object *)

(** [BasePubSubArgs], and [Partial<BasePubSubArgs>]. *)
Abbreviation Args := (gmap string JSValue).

Definition ofParam (v : SegmentMatcher.ParamValue) : JSValue :=
  match v with
  | SegmentMatcher.PString s => JSString s
  | SegmentMatcher.PList l => JSStrings l
  end.

(** What a function throws: a value of the caller's, or an exception of
    the sources or of the host. *)
Inductive JSError : Type :=
  | UserError (msg : string)
  | Raised (e : exn).

(** The code that uses the bus: the caller of [sub], [unsub], [pub] and
    [inFlight], and the bodies of the handlers.  Each is the body of a
    function that returns a promise, and ends by returning (the promise
    is fulfilled) or by throwing.  A subscription and a promise are named
    by the identity of the object.

    [Subscriber]: a handler is any function from the arguments to a
    promise.  What an async function throws rejects the promise that the
    function returns; what another function throws before it returns
    reaches its caller.

    The code between two suspensions is finite, and so is the number of
    the suspensions of one call: a function that does not return, and
    one that keeps a job due for ever, are not of this type, and what is
    proved of the processes is proved for code that runs finitely
    long. *)
Inductive prog : Type :=
  | Return
  | Raise (e : JSError)                                   (* throw e *)
  | AwaitTick (k : prog)                                  (* await tick() *)
  | Sub (topic : string) (handler : Subscriber) (once : bool)
        (k : nat -> prog)                                 (* BasePubSub.sub(topic, handler, once) *)
  | Unsub (subscription : nat) (k : prog)                 (* BasePubSub.unsub(subscription) *)
  | UnsubTopic (topic : string) (k : prog)                (* BasePubSub.unsub(topic) *)
  | Pub (topic : string) (args : Args) (k : nat -> prog)  (* const p = pubSub.pub(topic, args) *)
  | Await (p : nat) (k : prog)                            (* await p *)
  | InFlight (k : Z -> prog)                              (* BasePubSub.inFlight *)
with Subscriber : Type :=
  | AsyncFunction (body : Args -> prog)                   (* async (args) => { ... } *)
  | Function (body : Args -> prog).                       (* (args) => { ... } *)

Definition body (handler : Subscriber) : Args -> prog :=
  match handler with
  | AsyncFunction body | Function body => body
  end.

Definition isAsync (handler : Subscriber) : bool :=
  match handler with
  | AsyncFunction _ => true
  | Function _ => false
  end.

Record Subscription : Type := mkSubscription {
  sid : nat;                         (* the identity of the object *)
  topic : string;
  matcher : BasePathMatcher.t;
  handler : Subscriber;
  once : bool;
  matchedTopics : gmap string Args;
}.

Record SubscriptionMatch : Type := mkSubscriptionMatch {
  subscription : Subscription;
  match_ : bool;
  params : option Args;
  wildcard : option (list string);
}.

(** The function a piece of code runs in: the caller's, or the
    invocation of a subscription's handler by a publication. *)
Inductive Ctx : Type :=
  | CMain
  | CHandler (p : nat) (s : nat).

(** What waits for a [setImmediate] callback: [pub] at its first
    [await tick()], the callback that [pub] maps over the matches at its
    [await tick()], or the code that uses the bus. *)
Inductive Task : Type :=
  | TPub (p : nat) (topic : string) (args : Args)
  | TWrapper (p : nat) (m : SubscriptionMatch) (topic : string) (args : Args)
  | TProg (c : Ctx) (k : prog).

(** What is due in the current turn: code of the caller's that resumes
    after [await p]; the reaction of [Promise.all] to the end of one of
    the callbacks that [pub] maps over the matches, with the exception if
    the callback has thrown one; or [pub] itself, which resumes after
    [await Promise.all(...)], with the exception if that promise was
    rejected. *)
Inductive Job : Type :=
  | JProg (c : Ctx) (k : prog)
  | JElement (p : nat) (failure : option JSError)
  | JPub (p : nat) (failure : option JSError).

(** The promise returned by a call of [pub]. *)
Inductive PromiseState : Type :=
  | Pending
  | Fulfilled
  | Rejected (e : JSError).

(** What has happened, oldest first.  [EvFulfil] stands for the last two
    steps of [pub], which no suspension point separates: the decrement of
    the counter and the fulfilment of the promise.  [EvReject] is the
    rejection of the promise of [pub] by an exception of [filterSubs],
    [EvFail] its rejection by an exception that a handler has thrown at
    the callback, which is [EvThrow]. *)
Inductive Event : Type :=
  | EvSub (s : nat)
  | EvCall (p : nat)
  | EvSelect (p : nat) (selected : list nat)
  | EvInvoke (p : nat) (s : nat) (args : Args)
  | EvSettle (p : nat) (s : nat) (e : option JSError)
  | EvFulfil (p : nat)
  | EvReject (p : nat)
  | EvThrow (p : nat) (s : nat) (e : JSError)
  | EvFail (p : nat) (e : JSError).

Record State : Type := mkState {
  subscriptions : list Subscription;   (* the Set, in insertion order *)
  _inflightCount : Z;
  nextId : nat;                        (* the next fresh object identity *)
  immediates : list Task;              (* the setImmediate queue *)
  promises : gmap nat PromiseState;
  waiting : list (nat * Ctx * prog);   (* continuations of [await p], p pending *)
  ready : list Job;                    (* the jobs of the current turn *)
  console : list JSError;              (* what console.error has printed *)
  trace : list Event;
}.

Definition setSubscriptions (x : list Subscription) (st : State) : State :=
  mkState x (_inflightCount st) (nextId st) (immediates st) (promises st)
          (waiting st) (ready st) (console st) (trace st).
Definition setInflightCount (x : Z) (st : State) : State :=
  mkState (subscriptions st) x (nextId st) (immediates st) (promises st)
          (waiting st) (ready st) (console st) (trace st).
Definition setNextId (x : nat) (st : State) : State :=
  mkState (subscriptions st) (_inflightCount st) x (immediates st) (promises st)
          (waiting st) (ready st) (console st) (trace st).
Definition setImmediates (x : list Task) (st : State) : State :=
  mkState (subscriptions st) (_inflightCount st) (nextId st) x (promises st)
          (waiting st) (ready st) (console st) (trace st).
Definition setPromises (x : gmap nat PromiseState) (st : State) : State :=
  mkState (subscriptions st) (_inflightCount st) (nextId st) (immediates st) x
          (waiting st) (ready st) (console st) (trace st).
Definition setWaiting (x : list (nat * Ctx * prog)) (st : State) : State :=
  mkState (subscriptions st) (_inflightCount st) (nextId st) (immediates st)
          (promises st) x (ready st) (console st) (trace st).
Definition setReady (x : list Job) (st : State) : State :=
  mkState (subscriptions st) (_inflightCount st) (nextId st) (immediates st)
          (promises st) (waiting st) x (console st) (trace st).
Definition setConsole (x : list JSError) (st : State) : State :=
  mkState (subscriptions st) (_inflightCount st) (nextId st) (immediates st)
          (promises st) (waiting st) (ready st) x (trace st).
Definition emit (e : Event) (st : State) : State :=
  mkState (subscriptions st) (_inflightCount st) (nextId st) (immediates st)
          (promises st) (waiting st) (ready st) (console st) (trace st ++ [e]).

(** [setImmediate(callback)]. *)
Definition setImmediate (t : Task) (st : State) : State :=
  setImmediates (immediates st ++ [t]) st.

(** The state of a process that starts with the counter at [inflight0]
    and no subscription. *)
Definition init (inflight0 : Z) : State :=
  mkState [] inflight0 0 [] ∅ [] [] [] [].

(** [handleError]: [console.error(err)]. *)
Definition handleError (err : JSError) (st : State) : State :=
  setConsole (console st ++ [err]) st.

(** [Set.prototype.delete] on the set of subscriptions. *)
Definition deleteSubscription (s : nat) (st : State) : State :=
  setSubscriptions
    (List.filter (fun x => negb (Nat.eqb (sid x) s)) (subscriptions st)) st.

(** The object spread [{ ...args, ...(m.params || {}), _: m.wildcard || [],
    topic }]: a later key replaces an earlier one. *)
Definition fullArgs (m : SubscriptionMatch) (topic : string) (args : Args) : Args :=
  <["topic" := JSString topic]>
    (<["_" := JSStrings (default [] (wildcard m))]>
       (default ∅ (params m) ∪ args)).

Section Host.

Context {regex : Type}.
Variable RegExp : string -> string -> result regex.
Variable test : regex -> string -> bool.

(** The callback that [filterSubs] maps over the subscriptions. *)
Definition matchSubscription (topic : string) (subscription : Subscription)
  : result SubscriptionMatch :=
  match matchedTopics subscription !! topic with
  | Some memo => Ok (mkSubscriptionMatch subscription true (Some memo) None)
  | None =>
      let! matchResult :=
        BasePathMatcher.match_ RegExp test (matcher subscription) topic in
      Ok (mkSubscriptionMatch subscription
            (BasePathMatcher.matched matchResult)
            (Some (ofParam <$> BasePathMatcher.params matchResult))
            (Some (BasePathMatcher.wildcard matchResult)))
  end.

(** [filterSubs]. *)
Definition filterSubs (topic : string) (st : State)
  : result (list SubscriptionMatch) :=
  let! ms := mapM (matchSubscription topic) (subscriptions st) in
  Ok (List.filter match_ ms).

(** [sub]: the new subscription, and the state with it. *)
Definition sub (topic : string) (handler : Subscriber) (once : bool)
    (st : State) : result (nat * State) :=
  let! matcher := BasePathMatcher.new topic in
  let id := nextId st in
  let subscription := mkSubscription id topic matcher handler once ∅ in
  Ok (id, emit (EvSub id)
            (setSubscriptions (subscriptions st ++ [subscription])
               (setNextId (S id) st))).

(** [unsub] with a subscription. *)
Definition unsub (subscription : nat) (st : State) : State :=
  deleteSubscription subscription st.

(** [unsub] with a string. *)
Definition unsubTopic (topic : string) (st : State) : result State :=
  let! ms := filterSubs topic st in
  Ok (fold_left (fun st m => deleteSubscription (sid (subscription m)) st) ms st).

(** [pub] up to its first [await]: the counter is incremented and
    [tick()] is called.  The result names the promise that [pub] returns. *)
Definition pubCall (topic : string) (args : Args) (st : State) : nat * State :=
  let p := nextId st in
  (p, setImmediate (TPub p topic args)
        (emit (EvCall p)
           (setPromises (<[p := Pending]> (promises st))
              (setInflightCount (_inflightCount st + 1)
                 (setNextId (S p) st))))).

(** The promise of a function of the caller's settles: that of a
    handler is the one on which [pub] has called [catch], whose callback
    logs the rejection. *)
Definition settle (c : Ctx) (e : option JSError) (st : State) : State :=
  match c with
  | CMain => st
  | CHandler p s =>
      let st := emit (EvSettle p s e) st in
      match e with
      | Some err => handleError err st
      | None => st
      end
  end.

(** An exception in the code of the caller: in an async function, and in
    any code that resumes after an [await], it rejects the promise of the
    function; in another function, which has not returned yet, it is
    thrown at the caller of the function. *)
Definition throw (async : bool) (c : Ctx) (e : JSError) (st : State)
  : State * option JSError :=
  if async then (settle c (Some e) st, None) else (st, Some e).

(** The code of the caller runs up to its next [await]; the result holds
    the exception that it throws at the caller of the function, if it
    does. *)
Fixpoint exec (async : bool) (c : Ctx) (k : prog) (st : State)
  : State * option JSError :=
  match k with
  | Return => (settle c None st, None)
  | Raise e => throw async c e st
  | AwaitTick k => (setImmediate (TProg c k) st, None)
  | Sub topic handler once k =>
      match sub topic handler once st with
      | Ok (id, st) => exec async c (k id) st
      | Throw e => throw async c (Raised e) st
      end
  | Unsub s k => exec async c k (unsub s st)
  | UnsubTopic topic k =>
      match unsubTopic topic st with
      | Ok st => exec async c k st
      | Throw e => throw async c (Raised e) st
      end
  | Pub topic args k =>
      let '(p, st) := pubCall topic args st in exec async c (k p) st
  | Await p k =>
      (match promises st !! p with
       | Some Fulfilled => setReady (ready st ++ [JProg c k]) st
       | Some (Rejected e) => setReady (ready st ++ [JProg c (Raise e)]) st
       | _ => setWaiting (waiting st ++ [(p, c, k)]) st
       end, None)
  | InFlight k => exec async c (k (_inflightCount st)) st
  end.

(** Code of the caller resumes after an [await]. *)
Definition resume (c : Ctx) (k : prog) (st : State) : State :=
  (exec true c k st).1.

(** The promise [p] settles: the continuations that await it are due. *)
Definition wake (p : nat) (failure : option JSError) (st : State) : State :=
  let due :=
    List.map (fun '(_, c, k) =>
                match failure with
                | Some e => JProg c (Raise e)
                | None => JProg c k
                end)
      (List.filter (fun '(q, _, _) => Nat.eqb q p) (waiting st)) in
  setReady (ready st ++ due)
    (setWaiting (List.filter (fun '(q, _, _) => negb (Nat.eqb q p)) (waiting st)) st).

(** The end of [pub], after [await Promise.all(...)]. *)
Definition finish (p : nat) (st : State) : State :=
  wake p None
    (emit (EvFulfil p)
       (setPromises (<[p := Fulfilled]> (promises st))
          (setInflightCount (_inflightCount st - 1) st))).

(** [pub] ends by an exception of [filterSubs]. *)
Definition reject (p : nat) (e : exn) (st : State) : State :=
  wake p (Some (Raised e))
    (emit (EvReject p) (setPromises (<[p := Rejected (Raised e)]> (promises st)) st)).

(** [pub] ends by the exception with which [await Promise.all(...)]
    throws: the counter is not decremented. *)
Definition rethrow (p : nat) (e : JSError) (st : State) : State :=
  wake p (Some e)
    (emit (EvFail p e) (setPromises (<[p := Rejected e]> (promises st)) st)).

Definition isWrapperOf (p : nat) (t : Task) : bool :=
  match t with
  | TWrapper q _ _ _ => Nat.eqb q p
  | _ => false
  end.

(** All the callbacks of publication [p] have ended when none of them
    still waits for its [tick()]. *)
Definition allDone (p : nat) (st : State) : bool :=
  negb (existsb (isWrapperOf p) (immediates st)).

(** The promise of [pub] is pending.  That of [Promise.all] is settled
    one job before it within a turn, and in one turn one callback at most
    has ended: when [Promise.all] reacts to the end of a callback its
    promise is pending if and only if that of [pub] is. *)
Definition pending (p : nat) (st : State) : bool :=
  match promises st !! p with
  | Some Pending => true
  | _ => false
  end.

(** A job becomes due. *)
Definition enqueue (j : Job) (st : State) : State :=
  setReady (ready st ++ [j]) st.

(** One [setImmediate] callback, and the code that resumes with it.
    [pub] resumes after its first tick: [Promise.all] of no callback is
    fulfilled at once.  A callback of [pub] resumes after its tick: it
    ends when the handler has returned its promise, or by the exception
    that the handler throws, in which case neither [catch] nor [delete]
    is reached. *)
Definition runTask (t : Task) (st : State) : State :=
  match t with
  | TPub p topic args =>
      match filterSubs topic st with
      | Throw e => reject p e st
      | Ok ms =>
          let st := emit (EvSelect p (List.map (fun m => sid (subscription m)) ms)) st in
          let st := fold_left (fun st m => setImmediate (TWrapper p m topic args) st) ms st in
          if allDone p st then enqueue (JPub p None) st else st
      end
  | TWrapper p m topic args =>
      let s := subscription m in
      let fullArgs := fullArgs m topic args in
      let st := emit (EvInvoke p (sid s) fullArgs) st in
      match exec (isAsync (handler s)) (CHandler p (sid s))
                 (body (handler s) fullArgs) st with
      | (st, Some e) =>
          enqueue (JElement p (Some e)) (emit (EvThrow p (sid s) e) st)
      | (st, None) =>
          let st := if once s then deleteSubscription (sid s) st else st in
          enqueue (JElement p None) st
      end
  | TProg c k => resume c k st
  end.

(** One job.  [Promise.all] is fulfilled when the last callback has
    ended and rejected when the first one throws, and then [pub]
    resumes. *)
Definition runJob (j : Job) (st : State) : State :=
  match j with
  | JProg c k => resume c k st
  | JElement p None =>
      if allDone p st && pending p st then enqueue (JPub p None) st else st
  | JElement p (Some e) =>
      if pending p st then enqueue (JPub p (Some e)) st else st
  | JPub p None => finish p st
  | JPub p (Some e) => rethrow p e st
  end.

(** One step of the event loop: a job that is due, or else the next
    [setImmediate] callback. *)
Definition step (st : State) : option State :=
  match ready st with
  | j :: rest => Some (runJob j (setReady rest st))
  | [] =>
      match immediates st with
      | t :: rest => Some (runTask t (setImmediates rest st))
      | [] => None
      end
  end.

Fixpoint run (fuel : nat) (st : State) : State :=
  match fuel with
  | O => st
  | S fuel' =>
      match step st with
      | Some st' => run fuel' st'
      | None => st
      end
  end.

(** The process: the caller's code starts, then the loop turns. *)
Definition boot (inflight0 : Z) (main : prog) : State :=
  resume CMain main (init inflight0).

End Host.

End BasePubSub.

(** ** Predicates of the specification *)

(** The host accepts the class of the matcher [m], if it has one. *)
Definition classAccepted {regex : Type}
    (RegExp : string -> string -> result regex) (m : SegmentMatcher.t) : Prop :=
  match SegmentMatcher.range m with
  | Some r =>
      Str.truthy r = true ->
      returns (RegExp ("^[" +:+ Str.slice r 1 (-1) +:+ "]+$") "i")
  | None => True
  end.

Definition knownSuffix (s : string) : Prop :=
  s = "" \/ s = "*" \/ s = "**" \/ s = "+" \/ s = "?".

(** The fragments of a pattern that the specification calls invalid,
    other than the empty one and the unterminated bracket of a wildcard:
    a parameter without a name, a parameter whose bracket is not closed,
    and a bracketed parameter or wildcard with an unknown suffix. *)
Inductive Malformed : string -> Prop :=
  | MissingName (core : string) :
      knownSuffix core \/ Str.startsWith "[" core = true ->
      Malformed (":" +:+ core)
  | UnterminatedParam (nm rest : string) :
      Str.includes "[" nm = false -> Str.includes "]" rest = false ->
      Malformed (":" +:+ nm +:+ "[" +:+ rest)
  | ParamSuffix (nm body suffix : string) :
      Str.includes "[" nm = false -> Str.includes "]" body = false ->
      ~ knownSuffix suffix ->
      Malformed (":" +:+ nm +:+ "[" +:+ body +:+ "]" +:+ suffix)
  | WildcardSuffix (sym body suffix : string) :
      knownSuffix sym -> body <> "" -> Str.includes "]" body = false ->
      PathSegment.noLineTerminator suffix = true ->
      ~ knownSuffix suffix ->
      Malformed (sym +:+ "[" +:+ body +:+ "]" +:+ suffix).

(** Two parameters of the list share a name. *)
Definition DuplicateParams (ms : list SegmentMatcher.t) : Prop :=
  exists (i j : nat) (mi mj : SegmentMatcher.t),
    (i < j)%nat /\ ms !! i = Some mi /\ ms !! j = Some mj /\
    SegmentMatcher.segType mi = PathSegment.param /\
    SegmentMatcher.segType mj = PathSegment.param /\
    SegmentMatcher.name mi = SegmentMatcher.name mj.

(** ** Histories of the bus *)

Module History.

Import BasePubSub.

(** The calls of [pub] less the publications fulfilled. *)
Fixpoint balance (tr : list Event) : Z :=
  match tr with
  | [] => 0
  | EvCall _ :: tr' => balance tr' + 1
  | EvFulfil _ :: tr' => balance tr' - 1
  | _ :: tr' => balance tr'
  end.

(** The errors with which handlers have settled. *)
Fixpoint errors (tr : list Event) : list JSError :=
  match tr with
  | [] => []
  | EvSettle _ _ (Some err) :: tr' => err :: errors tr'
  | _ :: tr' => errors tr'
  end.

Definition called (p : nat) (tr : list Event) : Prop := In (EvCall p) tr.
Definition fulfilled (p : nat) (tr : list Event) : Prop := In (EvFulfil p) tr.
Definition rejected (p : nat) (tr : list Event) : Prop := In (EvReject p) tr.
Definition failed (p : nat) (tr : list Event) : Prop := exists e, In (EvFail p e) tr.
Definition thrown (p s : nat) (tr : list Event) : Prop :=
  exists e, In (EvThrow p s e) tr.
Definition selected (p : nat) (tr : list Event) : Prop :=
  exists l, In (EvSelect p l) tr.
Definition invoked (p s : nat) (tr : list Event) : Prop :=
  exists a, In (EvInvoke p s a) tr.

(** The publications in progress after one more event. *)
Definition progress (l : list nat) (e : Event) : list nat :=
  match e with
  | EvCall p => l ++ [p]
  | EvFulfil p => List.filter (fun q => negb (Nat.eqb q p)) l
  | _ => l
  end.

(** The publications between the increment of the counter and its
    decrement, in the order of the calls. *)
Definition inProgress (tr : list Event) : list nat :=
  fold_left progress tr [].

(** What must have happened before an event. *)
Definition Allowed (pre : list Event) (e : Event) : Prop :=
  match e with
  | EvSub s => ~ In (EvSub s) pre
  | EvCall p => ~ called p pre
  | EvSelect p l =>
      called p pre /\ ~ selected p pre /\ ~ rejected p pre /\
      ~ fulfilled p pre /\ forall s, In s l -> In (EvSub s) pre
  | EvInvoke p s _ => exists l, In (EvSelect p l) pre /\ In s l
  | EvSettle _ _ _ => True
  | EvFulfil p =>
      called p pre /\ ~ fulfilled p pre /\
      (exists l, In (EvSelect p l) pre /\ forall s, In s l -> invoked p s pre) /\
      ~ failed p pre
  | EvReject p => called p pre /\ ~ selected p pre /\ ~ rejected p pre
  | EvThrow p s _ => invoked p s pre
  | EvFail p e =>
      ~ fulfilled p pre /\ ~ failed p pre /\ exists s, In (EvThrow p s e) pre
  end.

(** A history each event of which was allowed when it happened. *)
Inductive WellFormed : list Event -> Prop :=
  | WellFormed_nil : WellFormed []
  | WellFormed_snoc (tr : list Event) (e : Event) :
      WellFormed tr -> Allowed tr e -> WellFormed (tr ++ [e]).

(** The events that the code using the bus causes by itself. *)
Definition callerEvent (e : Event) : Prop :=
  match e with
  | EvSub _ | EvCall _ | EvSettle _ _ _ => True
  | _ => False
  end.

(** What the history says of a publication whose [pub] awaits its first
    tick, and of one whose callback for the subscription [s] awaits its
    tick. *)
Definition awaitingTick (p : nat) (tr : list Event) : Prop :=
  called p tr /\ ~ selected p tr /\ ~ rejected p tr /\ ~ fulfilled p tr.

Definition dispatching (p s : nat) (tr : list Event) : Prop :=
  ~ fulfilled p tr /\ exists l, In (EvSelect p l) tr /\ In s l.

(** The event settles the fate of the publication [p]. *)
Definition concerns (p : nat) (e : Event) : Prop :=
  match e with
  | EvSelect q _ | EvReject q | EvFulfil q | EvFail q _ => q = p
  | _ => False
  end.

(** The identities of the subscriptions of a list of matches, and the
    callbacks that [pub] queues for them. *)
Definition sids (ms : list SubscriptionMatch) : list nat :=
  List.map (fun m => sid (subscription m)) ms.

Definition wrappers (p : nat) (topic : string) (args : Args)
    (ms : list SubscriptionMatch) : list Task :=
  List.map (fun m => TWrapper p m topic args) ms.

(** The publications whose [pub] is in the queue. *)
Definition pubIds (q : list Task) : list nat :=
  flat_map (fun t => match t with TPub p _ _ => [p] | _ => [] end) q.

(** A job of [Promise.all] or of [pub], and what the history says when
    such a job is due.  [Promise.all] reacts to a callback of a
    publication that has taken its snapshot, and to an exception that a
    handler has thrown; [pub] resumes when no callback is left and every
    handler selected was invoked, or with an exception that a handler has
    thrown, and its promise is pending. *)
Definition ofBus (j : Job) : bool :=
  match j with
  | JProg _ _ => false
  | _ => true
  end.

Definition Due (st : State) (j : Job) : Prop :=
  match j with
  | JProg _ _ => True
  | JElement p failure =>
      selected p (trace st) /\
      match failure with
      | Some e => exists s, In (EvThrow p s e) (trace st)
      | None => True
      end
  | JPub p failure =>
      pending p st = true /\
      match failure with
      | Some e => exists s, In (EvThrow p s e) (trace st)
      | None =>
          allDone p st = true /\
          exists l, In (EvSelect p l) (trace st) /\
                    forall s, In s l -> invoked p s (trace st)
      end
  end.

(** The invariant of the event loop. *)
Record Inv (st : State) : Prop := mkInv {
  inv_history : WellFormed (trace st);
  inv_pub : forall p topic args,
    In (TPub p topic args) (immediates st) -> awaitingTick p (trace st);
  inv_wrapper : forall p m topic args,
    In (TWrapper p m topic args) (immediates st) ->
    dispatching p (sid (subscription m)) (trace st);
  inv_selected : forall p l s,
    In (EvSelect p l) (trace st) -> In s l ->
    invoked p s (trace st) \/
    exists m topic args,
      In (TWrapper p m topic args) (immediates st) /\ sid (subscription m) = s;
  inv_registry : forall s,
    In s (subscriptions st) ->
    In (EvSub (sid s)) (trace st) /\ matchedTopics s = ∅;
  inv_fresh : forall e,
    In e (trace st) ->
    match e with
    | EvSub s => (s < nextId st)%nat
    | EvCall p => (p < nextId st)%nat
    | _ => True
    end;
  inv_unique : List.NoDup (pubIds (immediates st));
  inv_count : _inflightCount st = balance (trace st);
  inv_console : console st = errors (trace st);
  inv_promise : forall p,
    pending p st = true <->
    called p (trace st) /\ ~ fulfilled p (trace st) /\
    ~ rejected p (trace st) /\ ~ failed p (trace st);
  inv_due : forall j, In j (ready st) -> Due st j;
  inv_turn : (length (List.filter ofBus (ready st)) <= 1)%nat;
}.

End History.

(** ** The reference host, and the processes used as examples *)

(** The matcher of a pattern that the constructor accepts. *)
Definition compiled (pattern : string) : BasePathMatcher.t :=
  match BasePathMatcher.new pattern with
  | Ok m => m
  | Throw _ => BasePathMatcher.mk [] "" false
  end.

Definition es_boot (main : BasePubSub.prog) : BasePubSub.State :=
  BasePubSub.boot EsRegExp.RegExp EsRegExp.test 0 main.

(** The process after [n] steps of the event loop. *)
Definition es_process (n : nat) (main : BasePubSub.prog) : BasePubSub.State :=
  BasePubSub.run EsRegExp.RegExp EsRegExp.test n (es_boot main).

(** How many times the handler of the subscription [s] was invoked. *)
Definition invocations (s : nat) (tr : list BasePubSub.Event) : nat :=
  length (List.filter
            (fun e => match e with
                      | BasePubSub.EvInvoke _ s' _ => Nat.eqb s' s
                      | _ => false
                      end) tr).

Module Examples.

Import BasePubSub.

(** A handler that returns at once, and one that awaits a tick first. *)
Definition quick : Subscriber := AsyncFunction (fun _ => Return).
Definition slow : Subscriber := AsyncFunction (fun _ => AwaitTick Return).

(** [async () => { throw new Error("Handler error") }], and the same
    function without [async]. *)
Definition failing : Subscriber :=
  AsyncFunction (fun _ => Raise (UserError "Handler error")).
Definition throwing : Subscriber :=
  Function (fun _ => Raise (UserError "Handler error")).

(** [sub("/t", slow); pub("/t")]. *)
Definition slowHandler : prog :=
  Sub "/t" slow false (fun _ => Pub "/t" ∅ (fun _ => Return)).

(** [pub("/t"); sub("/t", quick)], with no [await] between the two. *)
Definition lateSubscriber : prog :=
  Pub "/t" ∅ (fun _ => Sub "/t" quick false (fun _ => Return)).

(** [sub("/t", quick, true); pub("/t"); pub("/t")], the publications
    overlapping. *)
Definition onceOverlapping : prog :=
  Sub "/t" quick true (fun _ =>
  Pub "/t" ∅ (fun _ => Pub "/t" ∅ (fun _ => Return))).

(** [sub("/t", quick, true); await pub("/t"); await pub("/t")]. *)
Definition onceSequential : prog :=
  Sub "/t" quick true (fun _ =>
  Pub "/t" ∅ (fun p1 => Await p1 (Pub "/t" ∅ (fun p2 => Await p2 Return)))).

(** Scenario 7 of the specification. *)
Definition argPrecedence : prog :=
  Sub "/arg/:test1/:test2/**" quick false (fun _ =>
  Pub "/arg/A/B/C/D" {[ "test5" := JSString "v" ]} (fun _ => Return)).

(** What the handler of scenario 7 receives. *)
Definition received7 : Args :=
  <["topic" := JSString "/arg/A/B/C/D"]>
    (<["test1" := JSString "a"]>
       (<["test2" := JSString "b"]>
          (<["_" := JSStrings ["c"; "d"]]> {[ "test5" := JSString "v" ]}))).

(** [sub("/a", quick); await pub("/a"); await pub("/a")]. *)
Definition samePublicationTwice : prog :=
  Sub "/a" quick false (fun _ =>
  Pub "/a" ∅ (fun p1 => Await p1 (Pub "/a" ∅ (fun p2 => Await p2 Return)))).

(** Scenario 9: two subscribers, the first of which throws. *)
Definition failureIsolation : prog :=
  Sub "/error/test" failing false (fun _ =>
  Sub "/error/test" quick false (fun _ =>
  Pub "/error/test" ∅ (fun p => Await p Return))).

(** Scenario 10: two publications issued together. *)
Definition twoPublications : prog :=
  Pub "/inflight/test" ∅ (fun p1 =>
  Pub "/inflight/test" ∅ (fun p2 =>
  InFlight (fun _ => Await p1 (Await p2 Return)))).

(** Scenario 9 with a first handler that is not an async function. *)
Definition throwIsolation : prog :=
  Sub "/error/test" throwing false (fun _ =>
  Sub "/error/test" quick false (fun _ =>
  Pub "/error/test" ∅ (fun p => Await p Return))).

(** [sub("/t", throwing, true); await pub("/t")]. *)
Definition onceThrowing : prog :=
  Sub "/t" throwing true (fun _ => Pub "/t" ∅ (fun p => Await p Return)).


End Examples.

(** ** Vocabulary of the further properties *)

(** A fragment as [getSegments] leaves it: not empty, trimmed, in lower
    case, and without a slash. *)
Definition cleanSegment (x : string) : Prop :=
  x <> "" /\ Str.trim x = x /\ Str.toLowerCase x = x /\
  Str.includes "/" x = false.

(** The text of a captured value: the string, or the items joined. *)
Definition valueText (v : SegmentMatcher.ParamValue) : string :=
  match v with
  | SegmentMatcher.PString s => s
  | SegmentMatcher.PList l => Str.join "/" l
  end.

(** The [name] fields of the parameters of a pattern, in order. *)
Definition paramNamesOf (ms : list SegmentMatcher.t) : list (option string) :=
  flat_map (fun m => match SegmentMatcher.segType m with
                     | PathSegment.param => [SegmentMatcher.name m]
                     | _ => []
                     end) ms.

(** Exactly one of the four flags of a parsed segment is set. *)
Definition oneFlag (d : PathSegment.PathSegmentData) : Prop :=
  let flags := (PathSegment.optional d, PathSegment.single d,
                PathSegment.multi d, PathSegment.multiString d) in
  flags = (true, false, false, false) \/ flags = (false, true, false, false) \/
  flags = (false, false, true, false) \/ flags = (false, false, false, true).

(** The flags that a suffix stands for: [optional], [single], [multi],
    [multiString]. *)
Definition suffixFlags (suffix : string) : bool * bool * bool * bool :=
  (String.eqb suffix "?", String.eqb suffix "*" || String.eqb suffix "",
   String.eqb suffix "**", String.eqb suffix "+").

(** A segment that takes every remaining fragment: a parameter or a
    wildcard matched as [multi] or [multiString]. *)
Definition greedy (m : SegmentMatcher.t) : Prop :=
  SegmentMatcher.segType m <> PathSegment.static /\
  SegmentMatcher.single m = false /\
  SegmentMatcher.multi m || SegmentMatcher.multiString m = true.

(** ** The order of the dispatch *)

Module Order.

Import BasePubSub.

(** The publications in the order of the calls of [pub], and in the
    order in which their snapshot was taken (or failed). *)
Definition callOrder (tr : list Event) : list nat :=
  flat_map (fun e => match e with EvCall p => [p] | _ => [] end) tr.

Definition snapshotOrder (tr : list Event) : list nat :=
  flat_map (fun e => match e with
                     | EvSelect p _ | EvReject p => [p]
                     | _ => []
                     end) tr.

(** The subscriptions in the order of the calls of [sub]. *)
Definition registered (tr : list Event) : list nat :=
  flat_map (fun e => match e with EvSub s => [s] | _ => [] end) tr.

(** The subscriptions whose handler the publication [p] has invoked, in
    the order of the invocations, and those whose callback still waits in
    the queue, in the order of the queue. *)
Definition invokedOf (p : nat) (tr : list Event) : list nat :=
  flat_map (fun e => match e with
                     | EvInvoke q s _ => if Nat.eqb q p then [s] else []
                     | _ => []
                     end) tr.

Definition pendingOf (p : nat) (q : list Task) : list nat :=
  flat_map (fun t => match t with
                     | TWrapper q' m _ _ =>
                         if Nat.eqb q' p then [sid (subscription m)] else []
                     | _ => []
                     end) q.

(** An event that is neither a selection nor an invocation. *)
Definition quiet (e : Event) : Prop :=
  match e with
  | EvSelect _ _ | EvInvoke _ _ _ => False
  | _ => True
  end.

Definition notWrapper (t : Task) : Prop :=
  match t with
  | TWrapper _ _ _ _ => False
  | _ => True
  end.

(** What the code that uses the bus may change between two states: it
    adds events of its own to the history and tasks other than callbacks
    of [pub] to the queue, one call of [pub] for each task [TPub]; it
    gives fresh identities; it keeps the registry in order. *)
Record Frame (st st' : State) : Prop := mkFrame {
  fr_log : exists evs added,
    trace st' = trace st ++ evs /\ Forall History.callerEvent evs /\
    immediates st' = immediates st ++ added /\ Forall notWrapper added /\
    History.pubIds added = callOrder evs /\
    StronglySorted lt (registered evs) /\
    Forall (fun x => (nextId st <= x < nextId st')%nat) (registered evs);
  fr_next : (nextId st <= nextId st')%nat;
  fr_subs : forall s,
    In s (subscriptions st') ->
    In s (subscriptions st) \/ (nextId st <= sid s)%nat;
  fr_sorted :
    StronglySorted lt (List.map sid (subscriptions st)) ->
    StronglySorted lt (List.map sid (subscriptions st'));
}.

(** Publications take their snapshot in the order of the calls. *)
Definition Fifo (st : State) : Prop :=
  callOrder (trace st) = snapshotOrder (trace st) ++ History.pubIds (immediates st).

(** What the loop keeps of the registry and of the dispatch; [cur] is
    the publication and the subscription whose handler runs, if one
    does.  The handler of a subscription made with [once] that is still
    registered has thrown at every callback that has invoked it, and a
    handler that has thrown at a callback is not an async function. *)
Record Delivery (cur : option (nat * Subscription)) (st : State) : Prop := mkDelivery {
  del_selected : forall p l,
    In (EvSelect p l) (trace st) ->
    l = invokedOf p (trace st) ++ pendingOf p (immediates st);
  del_registry : StronglySorted lt (List.map sid (subscriptions st));
  del_registered : StronglySorted lt (registered (trace st));
  del_sorted : forall p l, In (EvSelect p l) (trace st) -> StronglySorted lt l;
  del_same : forall p m topic args s,
    In (TWrapper p m topic args) (immediates st) ->
    In s (subscriptions st) -> sid s = sid (subscription m) ->
    s = subscription m;
  del_cur : forall p c s,
    cur = Some (p, c) -> In s (subscriptions st) -> sid s = sid c -> s = c;
  del_once : forall s,
    In s (subscriptions st) -> once s = true ->
    forall p a, In (EvInvoke p (sid s) a) (trace st) ->
                History.thrown p (sid s) (trace st) \/ cur = Some (p, s);
  del_async : forall s p,
    In s (subscriptions st) -> History.thrown p (sid s) (trace st) ->
    isAsync (handler s) = false;
}.


(** ** Progress of the event loop *)

Section Progress.

Context {regex : Type}.
Variable RegExp : string -> string -> result regex.
Variable test : regex -> string -> bool.



End Progress.



End Order.

(** * Part II: properties *)

Section PathFacts.

Example parse_named_range :
  PathSegment.parse ":id[a-z0-9]+" =
  Ok (PathSegment.mkData PathSegment.param (Some "id") (Some "[a-z0-9]")
        false false false true).
Proof. reflexivity. Qed.

(** ** The path matcher *)

(** ** Splitting and joining *)

Lemma split_nonempty sep s : Str.split sep s <> [].
Proof.
  destruct s as [|c s]; simpl; [discriminate|].
  destruct (Ascii.eqb c sep); [discriminate|].
  destruct (Str.split sep s); discriminate.
Qed.

Lemma join_cons sep x y l :
  Str.join sep (x :: y :: l) = x +:+ String sep (Str.join sep (y :: l)).
Proof. reflexivity. Qed.

Lemma join_split sep s : Str.join sep (Str.split sep s) = s.
Proof.
  induction s as [|c s IH]; [reflexivity|].
  simpl. destruct (Ascii.eqb_spec c sep) as [->|Hne].
  - pose proof (split_nonempty sep s) as Hs.
    destruct (Str.split sep s) as [|h t]; [contradiction|].
    rewrite join_cons. simpl. simpl in IH. now rewrite IH.
  - pose proof (split_nonempty sep s) as Hs.
    destruct (Str.split sep s) as [|h t]; [contradiction|].
    destruct t as [|h' t].
    + simpl in *. now rewrite IH.
    + rewrite join_cons. rewrite join_cons in IH.
      change (String c h +:+ ?x) with (String c (h +:+ x)). now rewrite IH.
Qed.

Lemma join_getSegments uri :
  "/" +:+ Str.join "/" (BasePathMatcher.getSegments uri) =
  BasePathMatcher.normalizePath uri.
Proof.
  unfold BasePathMatcher.getSegments, BasePathMatcher.normalizePath.
  set (x := Str.join "/" (List.filter _ _)).
  change (Str.split "/" ("/" +:+ x)) with ("" :: Str.split "/" x).
  cbn [drop]. rewrite drop_0. now rewrite join_split.
Qed.

(** ** The result of [match] *)

Section Match.

Context {regex : Type}.
Variable RegExp : string -> string -> result regex.
Variable test : regex -> string -> bool.

Import BasePathMatcher.

(** C8.  Whenever [match] returns a result, its [path] is the normalised
    candidate (lower case, fragments trimmed, empty fragments dropped, one
    leading slash), and a result with [matched = false] has no parameter
    and no wildcard capture. *)
Theorem match_path_normalized (m : BasePathMatcher.t) (uri : string)
    (r : PathMatchResult) :
  match_ RegExp test m uri = Ok r ->
  path r = normalizePath uri /\
  (matched r = false -> params r = ∅ /\ wildcard r = []).
Proof.
  unfold match_. intros H.
  destruct (isRoot m && String.eqb (normalizePath uri) "/") eqn:Hroot.
  - inversion H; subst; clear H. cbn.
    apply andb_true_iff in Hroot as [_ Hroot].
    split; [symmetry; now apply String.eqb_eq | discriminate].
  - destruct (matchLoop RegExp test (matchers m) ∅ [] (getSegments uri))
      as [st|e] eqn:Hloop; cbn in H; [|discriminate].
    inversion H; subst; clear H. cbn. split.
    + apply join_getSegments.
    + intros ->. split; reflexivity.
Qed.

End Match.

(** ** [match] returns when the host accepts the classes *)

Section Total.

Context {regex : Type}.
Variable RegExp : string -> string -> result regex.
Variable test : regex -> string -> bool.

Import SegmentMatcher.

Lemma outOfRange_returns m v :
  classAccepted RegExp m -> exists b, outOfRange RegExp test m v = Ok b.
Proof.
  unfold classAccepted, outOfRange, inBracketRange. intros H.
  destruct (range m) as [r|]; [|eauto].
  destruct (Str.truthy r); [|eauto].
  specialize (H eq_refl).
  destruct (RegExp _ _) as [re|e]; [|contradiction]. cbn. eauto.
Qed.

Lemma anyOutOfRange_returns m segs :
  classAccepted RegExp m -> exists b, anyOutOfRange RegExp test m segs = Ok b.
Proof.
  intros H. induction segs as [|s segs IH]; cbn; [eauto|].
  destruct (outOfRange_returns m s H) as [b ->]. cbn.
  destruct b; eauto.
Qed.

Ltac returns_with H :=
  match goal with
  | |- context [outOfRange RegExp test ?m ?v] =>
      destruct (outOfRange_returns m v H) as [[] ->]; cbn; eauto
  | |- context [anyOutOfRange RegExp test ?m ?l] =>
      destruct (anyOutOfRange_returns m l H) as [[] ->]; cbn; eauto
  end.

Lemma segment_match_total m segs :
  classAccepted RegExp m ->
  exists r, SegmentMatcher.match_ RegExp test m segs = Ok r.
Proof.
  intros H. unfold SegmentMatcher.match_.
  destruct (segType m).
  - unfold matchStatic. destruct segs; [eauto|]. destruct (String.eqb _ _); eauto.
  - unfold matchParam. destruct (name m) as [n|]; [|eauto].
    destruct (negb (Str.truthy n)); [eauto|].
    destruct (single m); [|destruct (multi m); [|destruct (multiString m);
      [|destruct (optional m); [|eauto]]]].
    + unfold matchSingleParam. destruct segs; [eauto|]. returns_with H.
    + unfold matchMultiParam. destruct segs; [eauto|]. returns_with H.
    + unfold matchMultiStringParam. destruct segs; [eauto|]. returns_with H.
    + unfold matchOptionalParam. destruct segs; [eauto|]. returns_with H.
  - unfold matchWildcard.
    destruct (single m); [|destruct (multi m); [|destruct (multiString m);
      [|destruct (optional m); [|eauto]]]].
    + unfold matchSingleWildcard. destruct segs; [eauto|]. returns_with H.
    + unfold matchMultiWildcard. destruct segs; [eauto|]. returns_with H.
    + unfold matchMultiStringWildcard. destruct segs; [eauto|]. returns_with H.
    + unfold matchOptionalWildcard. destruct segs; [eauto|]. returns_with H.
Qed.

Lemma matchLoop_returns ms :
  Forall (classAccepted RegExp) ms ->
  forall params wildcard remaining,
  exists st, BasePathMatcher.matchLoop RegExp test ms params wildcard remaining = Ok st.
Proof.
  induction 1 as [|m ms Hm Hms IH]; intros params wildcard remaining; cbn; [eauto|].
  destruct (length remaining =? 0)%nat.
  - destruct (isOptional m); eauto.
  - destruct (segment_match_total m remaining Hm) as [r ->]. cbn.
    destruct r as [r|]; eauto.
Qed.

(** C10, as amended.  For every matcher whose character classes, as the
    matcher stores them (the pattern is put in lower case before it is
    parsed), the host's [RegExp] constructor accepts, and every
    candidate path, [match] returns a result and throws nothing: a
    failure to match is reported by [matched = false]. *)
Theorem match_returns (m : BasePathMatcher.t) (uri : string) :
  Forall (classAccepted RegExp) (BasePathMatcher.matchers m) ->
  exists r, BasePathMatcher.match_ RegExp test m uri = Ok r.
Proof.
  intros H. unfold BasePathMatcher.match_.
  destruct (_ && _); [eauto|].
  destruct (matchLoop_returns _ H ∅ [] (BasePathMatcher.getSegments uri)) as [st ->].
  cbn. eauto.
Qed.

End Total.

(** The pattern [/[z-a]] is accepted by the constructor, and [match] then
    throws the [SyntaxError] of the class [z-a] on the path [/x].  So does
    the pattern [/[Z-a]], whose class the host accepts as it is written:
    the pattern is put in lower case before it is parsed, and the class
    is stored as [z-a]. *)
Lemma match_throws_on_rejected_class :
  BasePathMatcher.new "/[z-a]" = Ok (compiled "/[z-a]") /\
  es_match (compiled "/[z-a]") "/x" = Throw (SyntaxError "^[z-a]+$") /\
  returns (EsRegExp.RegExp "^[Z-a]+$" "i") /\
  BasePathMatcher.new "/[Z-a]" = Ok (compiled "/[z-a]") /\
  es_run "/[Z-a]" "/x" = Throw (SyntaxError "^[z-a]+$").
Proof. repeat split; vm_compute; reflexivity. Qed.

Lemma match_returns_witness :
  BasePathMatcher.new "/users/:id[a-z0-9]" = Ok (compiled "/users/:id[a-z0-9]") /\
  exists r, es_match (compiled "/users/:id[a-z0-9]") "/users/abc-123" = Ok r.
Proof.
  split; [vm_compute; reflexivity|].
  apply (match_returns EsRegExp.RegExp EsRegExp.test).
  let ms := eval vm_compute in (BasePathMatcher.matchers (compiled "/users/:id[a-z0-9]")) in
  change (Forall (classAccepted EsRegExp.RegExp) ms).
  repeat constructor; unfold classAccepted; cbn [SegmentMatcher.range];
    try exact I; intros _; vm_compute; exact I.
Defined.

Lemma match_path_normalized_witness :
  BasePathMatcher.path
    (BasePathMatcher.mkPathMatchResult "/users/abc-123" ∅ [] false) =
  BasePathMatcher.normalizePath "/Users//ABC-123/" /\
  (BasePathMatcher.matched
     (BasePathMatcher.mkPathMatchResult "/users/abc-123" ∅ [] false) = false ->
   BasePathMatcher.params
     (BasePathMatcher.mkPathMatchResult "/users/abc-123" ∅ [] false) = ∅ /\
   BasePathMatcher.wildcard
     (BasePathMatcher.mkPathMatchResult "/users/abc-123" ∅ [] false) = []).
Proof.
  apply (match_path_normalized EsRegExp.RegExp EsRegExp.test
           (compiled "/users/:id[a-z0-9]") "/Users//ABC-123/").
  vm_compute. reflexivity.
Defined.

End PathFacts.

Section ParserFacts.

(** ** Facts on the string methods *)

Lemma len_nonneg s : 0 <= Str.len s.
Proof. unfold Str.len. lia. Qed.

Lemma len_cons c s : Str.len (String c s) = Str.len s + 1.
Proof. unfold Str.len. cbn [String.length]. lia. Qed.

Lemma len_app a b : Str.len (a +:+ b) = Str.len a + Str.len b.
Proof.
  induction a as [|c a IH]; [reflexivity|].
  change (String c a +:+ b) with (String c (a +:+ b)).
  rewrite !len_cons, IH. lia.
Qed.

Lemma append_cons c a b : String c a +:+ b = String c (a +:+ b).
Proof. reflexivity. Qed.

Lemma append_assoc (a b c : string) : (a +:+ b) +:+ c = a +:+ (b +:+ c).
Proof.
  induction a as [|x a IH]; [reflexivity|].
  change (String x ((a +:+ b) +:+ c) = String x (a +:+ (b +:+ c))).
  now rewrite IH.
Qed.

Lemma substring_0_0 s : String.substring 0 0 s = "".
Proof. destruct s; reflexivity. Qed.

Lemma substring_all s : String.substring 0 (String.length s) s = s.
Proof. induction s as [|c s IH]; [reflexivity|]. cbn. now rewrite IH. Qed.

Lemma substring_app_l a b :
  String.substring 0 (String.length a) (a +:+ b) = a.
Proof.
  induction a as [|c a IH]; [apply substring_0_0|].
  rewrite append_cons. cbn [String.length String.substring]. now rewrite IH.
Qed.

Lemma substring_app_r a b n :
  String.substring (String.length a) n (a +:+ b) = String.substring 0 n b.
Proof.
  induction a as [|c a IH]; [reflexivity|].
  rewrite append_cons. cbn [String.length String.substring]. exact IH.
Qed.

Lemma slice_prefix a b : Str.slice (a +:+ b) 0 (Str.len a) = a.
Proof.
  unfold Str.slice. rewrite len_app.
  pose proof (len_nonneg a). pose proof (len_nonneg b).
  replace (0 <? 0) with false by reflexivity.
  destruct (Str.len a <? 0) eqn:E; [apply Z.ltb_lt in E; lia|].
  rewrite Z.min_l by lia. rewrite Z.min_l by lia.
  replace (Z.to_nat 0) with 0%nat by reflexivity.
  rewrite Z.sub_0_r. unfold Str.len. rewrite Nat2Z.id.
  apply substring_app_l.
Qed.

Lemma sliceFrom_app a b : Str.sliceFrom (a +:+ b) (Str.len a) = b.
Proof.
  unfold Str.sliceFrom, Str.slice. rewrite len_app.
  pose proof (len_nonneg a). pose proof (len_nonneg b).
  destruct (Str.len a <? 0) eqn:E; [apply Z.ltb_lt in E; lia|].
  destruct (Str.len a + Str.len b <? 0) eqn:E'; [apply Z.ltb_lt in E'; lia|].
  rewrite Z.min_l by lia. rewrite Z.min_l by lia.
  replace (Str.len a + Str.len b - Str.len a) with (Str.len b) by lia.
  unfold Str.len. rewrite !Nat2Z.id. rewrite substring_app_r.
  apply substring_all.
Qed.

Lemma sliceFrom_1 c s : Str.sliceFrom (String c s) 1 = s.
Proof. exact (sliceFrom_app (String c "") s). Qed.

Lemma sliceFrom_2 c d s : Str.sliceFrom (String c (String d s)) 2 = s.
Proof. exact (sliceFrom_app (String c (String d "")) s). Qed.

Lemma slice_0_0 s : Str.slice s 0 0 = "".
Proof.
  unfold Str.slice. pose proof (len_nonneg s).
  replace (0 <? 0) with false by reflexivity.
  rewrite Z.min_l by lia. apply substring_0_0.
Qed.

Lemma indexOfAux_none c s pos from :
  Str.includes c s = false -> Str.indexOfAux c s pos from = -1.
Proof.
  revert pos. induction s as [|a s IH]; intros pos H; [reflexivity|].
  cbn in H. apply orb_false_iff in H as [Ha Hs].
  cbn. rewrite Ha, andb_false_r. now apply IH.
Qed.

Lemma indexOfAux_absent c a b pos from :
  Str.includes c a = false ->
  Str.indexOfAux c (a +:+ b) pos from = Str.indexOfAux c b (pos + Str.len a) from.
Proof.
  revert pos. induction a as [|x a IH]; intros pos H.
  - cbn. f_equal. unfold Str.len. cbn. lia.
  - cbn in H. apply orb_false_iff in H as [Hx Ha].
    change (String x a +:+ b) with (String x (a +:+ b)).
    cbn [Str.indexOfAux]. rewrite Hx, andb_false_r.
    rewrite IH by exact Ha. f_equal. rewrite len_cons. lia.
Qed.

Lemma indexOfAux_skip c a b pos from :
  pos + Str.len a <= from ->
  Str.indexOfAux c (a +:+ b) pos from = Str.indexOfAux c b (pos + Str.len a) from.
Proof.
  revert pos. induction a as [|x a IH]; intros pos H.
  - cbn. f_equal. unfold Str.len. cbn. lia.
  - change (String x a +:+ b) with (String x (a +:+ b)).
    rewrite len_cons in H. cbn [Str.indexOfAux].
    destruct (from <=? pos) eqn:E; [apply Z.leb_le in E; pose proof (len_nonneg a); lia|].
    cbn [andb]. rewrite IH by lia. f_equal. rewrite len_cons. lia.
Qed.

Lemma indexOfAux_here c s pos from :
  from <= pos -> Str.indexOfAux c (String c s) pos from = pos.
Proof.
  intros H. cbn. rewrite Ascii.eqb_refl, andb_true_r.
  destruct (from <=? pos) eqn:E; [reflexivity|]. apply Z.leb_gt in E. lia.
Qed.

Lemma truthy_false s : Str.truthy s = false -> s = "".
Proof. destruct s; [reflexivity|discriminate]. Qed.

(** ** Facts on [PathSegment.parse] *)

Import PathSegment.

Lemma applySuffix_unknown suffix d :
  ~ knownSuffix suffix -> applySuffix suffix d = Throw (UnknownSuffix suffix).
Proof.
  intros H. unfold applySuffix, knownSuffix in *.
  destruct (String.eqb_spec suffix "+"); [tauto|].
  destruct (String.eqb_spec suffix "?"); [tauto|].
  destruct (String.eqb_spec suffix "*"); [tauto|].
  destruct (String.eqb_spec suffix "**"); [tauto|].
  destruct (String.eqb_spec suffix ""); [tauto|].
  reflexivity.
Qed.

Lemma untilClose_app body rest :
  Str.includes "]" body = false ->
  untilClose (body +:+ "]" +:+ rest) = Some (body, rest).
Proof.
  induction body as [|c body IH]; intros H; [reflexivity|].
  cbn in H. apply orb_false_iff in H as [Hc Hb].
  change (String c body +:+ "]" +:+ rest) with (String c (body +:+ "]" +:+ rest)).
  cbn [untilClose]. rewrite Hc, IH by exact Hb. reflexivity.
Qed.

Lemma bracketedRangeMatch_app body suffix :
  body <> "" -> Str.includes "]" body = false -> noLineTerminator suffix = true ->
  bracketedRangeMatch ("[" +:+ body +:+ "]" +:+ suffix) =
  Some ("[" +:+ body +:+ "]", suffix).
Proof.
  intros Hne Hb Hs.
  change ("[" +:+ body +:+ "]" +:+ suffix) with (String "[" (body +:+ "]" +:+ suffix)).
  cbn [bracketedRangeMatch]. rewrite Ascii.eqb_refl.
  rewrite untilClose_app by exact Hb.
  destruct body as [|b body]; [contradiction|]. now rewrite Hs.
Qed.

Lemma parse_param raw core :
  Str.trim raw = ":" +:+ core ->
  parse raw = parseParam core (setType param data0).
Proof.
  intros H. unfold parse. rewrite H.
  change (":" +:+ core) with (String ":" core).
  cbn [Str.truthy negb Str.startsWith].
  rewrite Ascii.eqb_refl. cbn [andb].
  now rewrite sliceFrom_1.
Qed.

Lemma indexOf_open nm rest :
  Str.includes "[" nm = false ->
  Str.indexOf "[" (nm +:+ "[" +:+ rest) 0 = Str.len nm.
Proof.
  intros H. unfold Str.indexOf. rewrite indexOfAux_absent by exact H.
  change ("[" +:+ rest) with (String "[" rest).
  rewrite indexOfAux_here; pose proof (len_nonneg nm); lia.
Qed.

Lemma parseParam_bracket nm rest d :
  Str.includes "[" nm = false ->
  parseParam (nm +:+ "[" +:+ rest) d =
  if negb (Str.truthy nm) then Throw (MissingNameBeforeBracket (nm +:+ "[" +:+ rest))
  else
    let core := nm +:+ "[" +:+ rest in
    let bracketEnd := Str.indexOf "]" core (Str.len nm) in
    if bracketEnd =? -1 then Throw (InvalidBracketInParam core)
    else applySuffix (Str.sliceFrom core (bracketEnd + 1))
           (setRange (Str.slice core (Str.len nm) (bracketEnd + 1)) (setName nm d)).
Proof.
  intros H. unfold parseParam. rewrite indexOf_open by exact H.
  pose proof (len_nonneg nm).
  destruct (Str.len nm =? -1) eqn:E; [apply Z.eqb_eq in E; lia|].
  cbn [negb]. rewrite slice_prefix. reflexivity.
Qed.

Lemma parse_missing_name raw core :
  Str.trim raw = ":" +:+ core ->
  knownSuffix core \/ Str.startsWith "[" core = true ->
  throws (parse raw).
Proof.
  intros Ht H. rewrite (parse_param _ _ Ht).
  destruct H as [H|H].
  - unfold knownSuffix in H.
    destruct H as [->|[->|[->|[->| ->]]]]; exact I.
  - destruct core as [|c core]; [discriminate|].
    cbn [Str.startsWith] in H. apply andb_true_iff in H as [H _].
    apply Ascii.eqb_eq in H. subst c.
    rewrite (parseParam_bracket "" core) by reflexivity. exact I.
Qed.

Lemma parse_unterminated raw nm rest :
  Str.trim raw = ":" +:+ nm +:+ "[" +:+ rest ->
  Str.includes "[" nm = false -> Str.includes "]" rest = false ->
  throws (parse raw).
Proof.
  intros Ht Hn Hr. rewrite (parse_param _ _ Ht), parseParam_bracket by exact Hn.
  destruct (negb (Str.truthy nm)); [exact I|]. cbv zeta.
  unfold Str.indexOf. rewrite indexOfAux_skip by lia.
  change ("[" +:+ rest) with (String "[" rest).
  cbn [Str.indexOfAux]. replace (Ascii.eqb "[" "]") with false by reflexivity.
  rewrite andb_false_r, indexOfAux_none by exact Hr. exact I.
Qed.

Lemma parse_param_suffix raw nm body suffix :
  Str.trim raw = ":" +:+ nm +:+ "[" +:+ body +:+ "]" +:+ suffix ->
  Str.includes "[" nm = false -> Str.includes "]" body = false -> ~ knownSuffix suffix ->
  throws (parse raw).
Proof.
  intros Ht Hn Hb Hs. rewrite (parse_param _ _ Ht), parseParam_bracket by exact Hn.
  destruct (negb (Str.truthy nm)); [exact I|]. cbv zeta.
  assert (He : Str.indexOf "]" (nm +:+ "[" +:+ body +:+ "]" +:+ suffix) (Str.len nm)
               = Str.len nm + 1 + Str.len body).
  { unfold Str.indexOf. rewrite indexOfAux_skip by lia.
    change ("[" +:+ body +:+ "]" +:+ suffix) with (String "[" (body +:+ "]" +:+ suffix)).
    cbn [Str.indexOfAux]. replace (Ascii.eqb "[" "]") with false by reflexivity.
    rewrite andb_false_r, indexOfAux_absent by exact Hb.
    change ("]" +:+ suffix) with (String "]" suffix).
    rewrite indexOfAux_here; pose proof (len_nonneg nm); pose proof (len_nonneg body); lia. }
  rewrite He. pose proof (len_nonneg nm). pose proof (len_nonneg body).
  destruct (Str.len nm + 1 + Str.len body =? -1) eqn:E; [apply Z.eqb_eq in E; lia|].
  replace (nm +:+ "[" +:+ body +:+ "]" +:+ suffix)
    with ((nm +:+ "[" +:+ body +:+ "]") +:+ suffix) at 1
    by (rewrite !append_assoc; reflexivity).
  replace (Str.len nm + 1 + Str.len body + 1) with (Str.len (nm +:+ "[" +:+ body +:+ "]")).
  - rewrite sliceFrom_app, applySuffix_unknown by exact Hs. exact I.
  - rewrite !len_app. change (Str.len "[") with 1. change (Str.len "]") with 1. lia.
Qed.

Ltac wildcard_case sym seg body suffix Hm Hr Hs :=
  let Hw := fresh "Hw" in
  assert (Hw : wildcardWithRangeMatch seg = Some (sym, "[" +:+ body +:+ "]", suffix));
  [ unfold wildcardWithRangeMatch;
    change (Str.len "**") with 2; change (Str.len "*") with 1;
    change (Str.len "+") with 1; change (Str.len "?") with 1;
    rewrite ?sliceFrom_1, ?sliceFrom_2, Hm; rewrite Hr; reflexivity
  | rewrite Hw; cbn [Str.truthy negb Str.startsWith];
    match goal with
    | |- context [Ascii.eqb ":" ?c] =>
        replace (Ascii.eqb ":" c) with false by reflexivity
    end;
    cbn; rewrite applySuffix_unknown by exact Hs; exact I ].

Lemma parse_wildcard_suffix raw sym body suffix :
  Str.trim raw = sym +:+ "[" +:+ body +:+ "]" +:+ suffix ->
  knownSuffix sym -> body <> "" -> Str.includes "]" body = false ->
  noLineTerminator suffix = true -> ~ knownSuffix suffix ->
  throws (parse raw).
Proof.
  intros Ht Hsym Hne Hb Hl Hs. unfold parse. rewrite Ht.
  pose proof (bracketedRangeMatch_app body suffix Hne Hb Hl) as Hm.
  set (rest := "[" +:+ body +:+ "]" +:+ suffix) in *.
  assert (Hrest : exists r, rest = String "[" r) by (eexists; reflexivity).
  destruct Hrest as [r Hr].
  unfold knownSuffix in Hsym.
  destruct Hsym as [->|[->|[->|[->| ->]]]].
  - change ("" +:+ rest) with rest.
    assert (Hw : wildcardWithRangeMatch rest = None) by (rewrite Hr; reflexivity).
    rewrite Hw.
    replace (Str.truthy rest) with true by (rewrite Hr; reflexivity).
    replace (Str.startsWith ":" rest) with false by (rewrite Hr; reflexivity).
    replace (isStandaloneWildcard rest) with false by (rewrite Hr; reflexivity).
    cbn [negb]. rewrite Hm, applySuffix_unknown by exact Hs. exact I.
  - change ("*" +:+ rest) with (String "*" rest).
    wildcard_case "*" (String "*" rest) body suffix Hm Hr Hs.
  - change ("**" +:+ rest) with (String "*" (String "*" rest)).
    wildcard_case "**" (String "*" (String "*" rest)) body suffix Hm Hr Hs.
  - change ("+" +:+ rest) with (String "+" rest).
    wildcard_case "+" (String "+" rest) body suffix Hm Hr Hs.
  - change ("?" +:+ rest) with (String "?" rest).
    wildcard_case "?" (String "?" rest) body suffix Hm Hr Hs.
Qed.

(** The segment parser rejects the empty segment and every malformed
    one. *)
Lemma parse_rejects raw :
  Str.trim raw = "" \/ Malformed (Str.trim raw) -> throws (parse raw).
Proof.
  intros [H|H].
  - unfold parse. rewrite H. exact I.
  - remember (Str.trim raw) as seg eqn:Hseg. symmetry in Hseg.
    destruct H.
    + eapply parse_missing_name; eassumption.
    + eapply parse_unterminated; eassumption.
    + eapply parse_param_suffix; eassumption.
    + eapply parse_wildcard_suffix; eassumption.
Qed.

(** ** Construction of a matcher *)

Lemma mapM_throws {A B : Type} (f : A -> result B) (l : list A) (x : A) :
  x ∈ l -> throws (f x) -> throws (mapM f l).
Proof.
  intros Hin Hx. induction Hin as [x l|x y l Hin IH]; cbn.
  - destruct (f x); [contradiction|exact I].
  - specialize (IH Hx). destruct (f y); [|exact I]. cbn.
    destruct (mapM f l); [exact IH|exact I].
Qed.

Lemma new_segment_rejects raw :
  Str.trim raw = "" \/ Malformed (Str.trim raw) -> throws (PathSegment.new raw).
Proof.
  intros H. apply parse_rejects in H. unfold PathSegment.new.
  destruct (parse raw); [contradiction|exact I].
Qed.

Import SegmentMatcher BasePathMatcher.

Lemma checkParamsFrom_seen (names : gset (option string)) ms m :
  m ∈ ms -> segType m = PathSegment.param -> name m ∈ names ->
  throws (checkParamsFrom names ms).
Proof.
  intros Hin Hp. revert names.
  induction Hin as [m ms|m m' ms Hin IH]; intros names Hn; cbn.
  - rewrite Hp. destruct (decide (name m ∈ names)); [exact I|contradiction].
  - specialize (IH Hp). destruct (segType m').
    + apply IH; exact Hn.
    + destruct (decide (name m' ∈ names)); [exact I|].
      apply IH. set_solver.
    + apply IH; exact Hn.
Qed.

Lemma checkParamsFrom_duplicate (names : gset (option string)) ms :
  DuplicateParams ms -> throws (checkParamsFrom names ms).
Proof.
  intros (i & j & mi & mj & Hij & Hi & Hj & Hpi & Hpj & Hn).
  revert names i j Hij Hi Hj.
  induction ms as [|m ms IH]; intros names i j Hij Hi Hj; [discriminate|].
  destruct i as [|i].
  - cbn in Hi. inversion Hi; subst m; clear Hi.
    destruct j as [|j]; [lia|]. cbn in Hj.
    cbn. rewrite Hpi.
    destruct (decide (name mi ∈ names)); [exact I|].
    apply (checkParamsFrom_seen _ ms mj).
    + eapply list_elem_of_lookup_2; exact Hj.
    + exact Hpj.
    + rewrite <- Hn. set_solver.
  - destruct j as [|j]; [lia|]. cbn in Hi, Hj.
    assert (Hij' : (i < j)%nat) by lia.
    cbn. destruct (segType m).
    + eapply IH; eassumption.
    + destruct (decide (name m ∈ names)); [exact I|]. eapply IH; eassumption.
    + eapply IH; eassumption.
Qed.

(** C9, as amended.  The construction of a matcher throws when the
    pattern, other than the root pattern, has a fragment that is empty
    once trimmed (which happens only when the pattern has no other
    fragment) or malformed, and when two of its parameters share a name.
    A fragment is malformed when it is a parameter without a name (a
    colon followed by nothing, by a suffix alone or by a bracket), a
    parameter whose bracket is not closed, a parameter whose closed
    bracket is followed by an unknown suffix, or a wildcard whose
    closed bracket is not empty and is followed on the same line by an
    unknown suffix. *)
Theorem construction_fails_fast (pattern : string) :
  (pattern <> "/" /\
   exists seg, seg ∈ getSegments pattern /\
               (Str.trim seg = "" \/ Malformed (Str.trim seg))) \/
  (exists segs, parsePattern pattern = Ok segs /\
                DuplicateParams (List.map SegmentMatcher.new segs)) ->
  throws (BasePathMatcher.new pattern).
Proof.
  intros [[Hne (seg & Hin & Hbad)]|(segs & Hsegs & Hdup)]; unfold BasePathMatcher.new.
  - assert (Hp : throws (parsePattern pattern)).
    { unfold parsePattern.
      destruct (String.eqb_spec pattern "/"); [contradiction|].
      eapply mapM_throws; [exact Hin|]. now apply new_segment_rejects. }
    destruct (parsePattern pattern); [contradiction|exact I].
  - rewrite Hsegs. cbn.
    pose proof (checkParamsFrom_duplicate ∅ _ Hdup) as Hc.
    unfold checkParams. destruct (checkParamsFrom _ _); [contradiction|exact I].
Qed.

(** The patterns [/a//b], [/*[a-z] and [/[a-z] are accepted: the empty
    fragment is dropped, and a wildcard whose bracket is not closed is a
    static segment.  So are patterns with an unknown suffix that follows
    no bracket, an empty bracket, or the bracket of a wildcard on another
    line: [/:id!] is a parameter named [id!], and [/*!], [/[]x] and
    [/[a-z]], a line feed, [x] are static segments. *)
Lemma construction_accepts_empty_and_unterminated :
  returns (BasePathMatcher.new "/a//b") /\
  (exists m s, BasePathMatcher.new "/*[a-z" = Ok m /\ matchers m = [s] /\
               segType s = PathSegment.static) /\
  (exists m s, BasePathMatcher.new "/[a-z" = Ok m /\ matchers m = [s] /\
               segType s = PathSegment.static) /\
  (exists m s, BasePathMatcher.new "/:id!" = Ok m /\ matchers m = [s] /\
               segType s = PathSegment.param /\ name s = Some "id!") /\
  (exists m s, BasePathMatcher.new "/*!" = Ok m /\ matchers m = [s] /\
               segType s = PathSegment.static) /\
  (exists m s, BasePathMatcher.new "/[]x" = Ok m /\ matchers m = [s] /\
               segType s = PathSegment.static) /\
  (exists m s, BasePathMatcher.new ("/[a-z]" +:+ String "010" "x") = Ok m /\
               matchers m = [s] /\ segType s = PathSegment.static).
Proof.
  split; [exact I|].
  repeat split; eexists; eexists; repeat (split; [reflexivity|]); reflexivity.
Qed.

Lemma construction_fails_fast_witness :
  throws (BasePathMatcher.new "/users/:id[a-z") /\
  throws (BasePathMatcher.new "/users/:id/:id").
Proof.
  split.
  - apply construction_fails_fast. left. split; [discriminate|].
    exists ":id[a-z". split.
    + apply list_elem_of_In. vm_compute. right. left. reflexivity.
    + right. change (Str.trim ":id[a-z") with (":" +:+ "id" +:+ "[" +:+ "a-z").
      apply UnterminatedParam; reflexivity.
  - apply construction_fails_fast. right. eexists. split; [reflexivity|].
    exists 1%nat, 2%nat. eexists. eexists.
    split; [lia|]. repeat (split; [reflexivity|]). reflexivity.
Defined.

End ParserFacts.

Section RangeFacts.

(** ** The classes that the parser stores *)

Lemma length_app_string a b :
  String.length (a +:+ b) = (String.length a + String.length b)%nat.
Proof.
  induction a as [|c a IH]; [reflexivity|].
  rewrite append_cons. cbn [String.length]. now rewrite IH.
Qed.

Lemma slice_mid a b c :
  Str.slice (a +:+ b +:+ c) (Str.len a) (Str.len a + Str.len b) = b.
Proof.
  unfold Str.slice. rewrite !len_app.
  pose proof (len_nonneg a). pose proof (len_nonneg b). pose proof (len_nonneg c).
  destruct (Str.len a <? 0) eqn:E1; [apply Z.ltb_lt in E1; lia|].
  destruct (Str.len a + Str.len b <? 0) eqn:E2; [apply Z.ltb_lt in E2; lia|].
  rewrite !Z.min_l by lia.
  replace (Str.len a + Str.len b - Str.len a) with (Str.len b) by lia.
  unfold Str.len. rewrite !Nat2Z.id, substring_app_r. apply substring_app_l.
Qed.

(** [slice(1, -1)] removes the brackets. *)
Lemma slice_inner body : Str.slice ("[" +:+ body +:+ "]") 1 (-1) = body.
Proof.
  unfold Str.slice. rewrite !len_app. change (Str.len "[") with 1.
  change (Str.len "]") with 1. pose proof (len_nonneg body).
  replace (1 <? 0) with false by reflexivity.
  replace (-1 <? 0) with true by reflexivity.
  rewrite Z.min_l by lia. rewrite Z.max_l by lia.
  replace (1 + (Str.len body + 1) + -1 - 1) with (Str.len body) by lia.
  unfold Str.len. rewrite Nat2Z.id.
  change (Z.to_nat 1) with (String.length "[").
  rewrite substring_app_r. apply substring_app_l.
Qed.

Lemma indexOfAux_found c s pos from j :
  Str.indexOfAux c s pos from = j -> j <> -1 -> from <= pos -> 0 <= pos ->
  exists a b, s = a +:+ String c b /\ j = pos + Str.len a /\
              Str.includes c a = false.
Proof.
  revert pos. induction s as [|x s IH]; intros pos H Hj Hfrom Hpos;
    cbn [Str.indexOfAux] in H.
  - congruence.
  - destruct (from <=? pos) eqn:E; [|apply Z.leb_gt in E; lia]. cbn [andb] in H.
    destruct (Ascii.eqb_spec x c) as [->|Hne].
    + exists "", s. subst j. split; [reflexivity|].
      split; [change (Str.len "") with 0; lia|reflexivity].
    + destruct (IH (pos + 1) H Hj) as (a & b & -> & -> & Ha); [lia|lia|].
      exists (String x a), b. split; [reflexivity|]. split; [rewrite len_cons; lia|].
      cbn. apply Ascii.eqb_neq in Hne. now rewrite Hne, Ha.
Qed.

Import PathSegment.

Lemma applySuffix_range suffix d d' :
  applySuffix suffix d = Ok d' -> range d' = range d.
Proof.
  unfold applySuffix. intros H.
  destruct (String.eqb suffix "+"); [|destruct (String.eqb suffix "?");
    [|destruct (String.eqb suffix "*"); [|destruct (String.eqb suffix "**");
      [|destruct (String.eqb suffix ""); [|discriminate]]]]];
    cbn in H; inversion H; subst; clear H;
    repeat match goal with
           | |- context [if ?b then _ else _] => destruct b
           end; reflexivity.
Qed.

Lemma untilClose_spec s body rest :
  untilClose s = Some (body, rest) ->
  s = body +:+ "]" +:+ rest /\ Str.includes "]" body = false.
Proof.
  revert body. induction s as [|c s IH]; intros body H; [discriminate|].
  cbn in H. destruct (Ascii.eqb_spec c "]") as [->|Hne].
  - inversion H; subst. split; reflexivity.
  - destruct (untilClose s) as [[b r]|]; [|discriminate].
    inversion H; subst; clear H. destruct (IH b eq_refl) as [-> Hb].
    split; [reflexivity|]. cbn. apply Ascii.eqb_neq in Hne. now rewrite Hne, Hb.
Qed.

Lemma bracketedRangeMatch_spec seg r suffix :
  bracketedRangeMatch seg = Some (r, suffix) ->
  exists body, r = "[" +:+ body +:+ "]" /\ Str.includes "]" body = false.
Proof.
  unfold bracketedRangeMatch. destruct seg as [|c s]; [discriminate|].
  destruct (Ascii.eqb c "["); [|discriminate].
  destruct (untilClose s) as [[[|b body] rest]|] eqn:Hu; try discriminate.
  destruct (noLineTerminator rest); [|discriminate].
  intros H. inversion H; subst; clear H.
  apply untilClose_spec in Hu as [_ Hb]. eauto.
Qed.

Lemma wildcardWithRangeMatch_spec seg sym r suffix :
  wildcardWithRangeMatch seg = Some (sym, r, suffix) ->
  exists body, r = "[" +:+ body +:+ "]" /\ Str.includes "]" body = false.
Proof.
  unfold wildcardWithRangeMatch. intros H.
  repeat match type of H with
         | context [if Str.startsWith ?p seg then _ else _] =>
             destruct (Str.startsWith p seg)
         | context [bracketedRangeMatch ?x] =>
             let E := fresh "E" in
             destruct (bracketedRangeMatch x) as [[? ?]|] eqn:E
         end;
    try discriminate; inversion H; subst;
    eapply bracketedRangeMatch_spec; eassumption.
Qed.

Lemma parseParam_range core d d' r :
  range d = None -> parseParam core d = Ok d' -> range d' = Some r ->
  exists body, r = "[" +:+ body +:+ "]" /\ Str.includes "]" body = false.
Proof.
  intros Hd H Hr. unfold parseParam in H. cbv zeta in H.
  destruct (Str.indexOf "[" core 0 =? -1) eqn:Eopen; cbn [negb] in H.
  - (* no bracket: the range stays undefined *)
    exfalso.
    assert (Hnone : forall suffix nm,
      (let! d0 := applySuffix suffix d in
       let d1 := setName nm d0 in
       if negb (Str.truthy nm) then Throw (InvalidParamSyntax core) else Ok d1) = Ok d' ->
      False).
    { intros suffix nm H'. destruct (applySuffix suffix d) as [d0|] eqn:Ha; [|discriminate].
      cbn in H'. destruct (negb (Str.truthy nm)); [discriminate|].
      inversion H'; subst. cbn in Hr. rewrite (applySuffix_range _ _ _ Ha), Hd in Hr.
      discriminate. }
    destruct (Str.endsWith "**" core); [eapply Hnone; exact H|].
    destruct (Str.endsWith "+" core); [eapply Hnone; exact H|].
    destruct (Str.endsWith "?" core); [eapply Hnone; exact H|].
    destruct (Str.endsWith "*" core); eapply Hnone; exact H.
  - apply Z.eqb_neq in Eopen.
    destruct (indexOfAux_found "[" core 0 0 _ eq_refl Eopen) as (nm & rest & Hcore & Hi & Hnm);
      [lia|lia|].
    assert (Hi' : Str.indexOf "[" core 0 = Str.len nm) by (unfold Str.indexOf; lia).
    rewrite Hi' in H.
    destruct (negb (Str.truthy (Str.slice core 0 (Str.len nm)))); [discriminate|].
    destruct (Str.indexOf "]" core (Str.len nm) =? -1) eqn:Eclose; [discriminate|].
    apply Z.eqb_neq in Eclose.
    apply applySuffix_range in H. rewrite Hr in H. cbn in H. inversion H as [Hrange].
    clear H Hr. revert Eclose. unfold Str.indexOf. rewrite Hcore.
    pose proof (len_nonneg nm).
    rewrite indexOfAux_skip by lia. cbn [Str.indexOfAux].
    replace (Ascii.eqb "[" "]") with false by reflexivity. rewrite andb_false_r.
    intros Eclose.
    destruct (indexOfAux_found "]" rest (0 + Str.len nm + 1) (Str.len nm) _ eq_refl Eclose)
      as (body & suffix & -> & Hj & Hbody); [lia|lia|].
    exists body. split; [|exact Hbody]. rewrite Hj.
    replace (nm +:+ String "[" (body +:+ String "]" suffix))
      with (nm +:+ ("[" +:+ body +:+ "]") +:+ suffix)
      by (rewrite !append_assoc; reflexivity).
    replace (0 + Str.len nm + 1 + Str.len body + 1)
      with (Str.len nm + Str.len ("[" +:+ body +:+ "]"))
      by (rewrite !len_app; change (Str.len "[") with 1; change (Str.len "]") with 1; lia).
    apply slice_mid.
Qed.

(** A class stored by the parser is a pair of brackets around a text
    that holds no closing bracket. *)
Lemma range_body_closed seg d r :
  parse seg = Ok d -> range d = Some r ->
  exists body, r = "[" +:+ body +:+ "]" /\ Str.includes "]" body = false.
Proof.
  unfold parse. intros H Hr.
  destruct (negb (Str.truthy (Str.trim seg))); [discriminate|].
  destruct (Str.startsWith ":" (Str.trim seg)).
  { eapply parseParam_range; [|exact H|exact Hr]. reflexivity. }
  destruct (wildcardWithRangeMatch (Str.trim seg)) as [[[sym rp] suffix]|] eqn:Hw.
  { destruct (wildcardWithRangeMatch_spec _ _ _ _ Hw) as (body & -> & Hb).
    exists body. split; [|exact Hb].
    assert (Hd : forall d0, applySuffix suffix d0 = Ok d ->
                            range d0 = Some ("[" +:+ body +:+ "]") ->
                            r = "[" +:+ body +:+ "]").
    { intros d0 Ha H0. apply applySuffix_range in Ha. congruence. }
    destruct (String.eqb sym "*");
      [cbn [bind] in H; eapply Hd; [exact H|reflexivity]|].
    destruct (String.eqb sym "**");
      [cbn [bind] in H; eapply Hd; [exact H|reflexivity]|].
    destruct (String.eqb sym "+");
      [cbn [bind] in H; eapply Hd; [exact H|reflexivity]|].
    destruct (String.eqb sym "?");
      [cbn [bind] in H; eapply Hd; [exact H|reflexivity]|].
    discriminate. }
  destruct (isStandaloneWildcard (Str.trim seg)).
  { exfalso. unfold parseStandaloneWildcard in H.
    repeat match type of H with
           | context [if ?b then _ else _] => destruct b
           end; try discriminate; inversion H; subst; discriminate. }
  destruct (bracketedRangeMatch (Str.trim seg)) as [[bp suffix]|] eqn:Hb.
  - destruct (bracketedRangeMatch_spec _ _ _ Hb) as (body & -> & Hbody).
    exists body. split; [|exact Hbody].
    apply applySuffix_range in H. cbn in H. congruence.
  - inversion H; subst. discriminate.
Qed.

(** On such a class the reference host is within its fragment: the
    source that [inBracketRange] builds is parsed as a class. *)
Lemma endsWith_app a p : Str.endsWith p (a +:+ p) = true.
Proof.
  unfold Str.endsWith. rewrite length_app_string.
  replace (String.length a + String.length p - String.length p)%nat
    with (String.length a) by lia.
  rewrite substring_app_r, substring_all, String.eqb_refl, andb_true_r.
  apply Nat.leb_le. lia.
Qed.

Lemma RegExp_fragment body :
  Str.includes "]" body = false ->
  EsRegExp.RegExp ("^[" +:+ Str.slice ("[" +:+ body +:+ "]") 1 (-1) +:+ "]+$") "i" =
  let '(inv, b) :=
    if Str.startsWith "^" body then (true, Str.sliceFrom body 1) else (false, body) in
  match EsRegExp.classRanges (S (String.length b)) b [] with
  | Some rs => Ok (EsRegExp.mkRegex inv rs)
  | None => Throw (SyntaxError ("^[" +:+ body +:+ "]+$"))
  end.
Proof.
  intros Hb. rewrite slice_inner. unfold EsRegExp.RegExp.
  replace (Str.startsWith "^[" ("^[" +:+ body +:+ "]+$")) with true by reflexivity.
  replace ("^[" +:+ body +:+ "]+$") with (("^[" +:+ body) +:+ "]+$") at 1
    by (rewrite append_assoc; reflexivity).
  rewrite endsWith_app. cbn [andb].
  assert (Hlen : (5 <=? Str.len ("^[" +:+ body +:+ "]+$")) = true).
  { apply Z.leb_le. rewrite !len_app. change (Str.len "^[") with 2.
    change (Str.len "]+$") with 3. pose proof (len_nonneg body). lia. }
  rewrite Hlen. cbn [andb String.eqb Ascii.eqb Bool.eqb].
  assert (Hs : Str.slice ("^[" +:+ body +:+ "]+$") 2 (-3) = body).
  { unfold Str.slice. rewrite !len_app. change (Str.len "^[") with 2.
    change (Str.len "]+$") with 3. pose proof (len_nonneg body).
    replace (2 <? 0) with false by reflexivity.
    replace (-3 <? 0) with true by reflexivity.
    rewrite Z.min_l by lia. rewrite Z.max_l by lia.
    replace (2 + (Str.len body + 3) + -3 - 2) with (Str.len body) by lia.
    unfold Str.len. rewrite Nat2Z.id. change (Z.to_nat 2) with (String.length "^[").
    rewrite substring_app_r. apply substring_app_l. }
  rewrite Hs, Hb. reflexivity.
Qed.

End RangeFacts.

Section HistoryFacts.

(** ** The bus *)

Import BasePubSub History.

(** ** Histories *)

Lemma balance_app tr1 tr2 : balance (tr1 ++ tr2) = balance tr1 + balance tr2.
Proof.
  induction tr1 as [|e tr1 IH]; [cbn; lia|].
  destruct e; cbn; rewrite IH; lia.
Qed.

Lemma errors_app tr1 tr2 : errors (tr1 ++ tr2) = errors tr1 ++ errors tr2.
Proof.
  induction tr1 as [|e tr1 IH]; [reflexivity|].
  destruct e as [| | | |p s [err|]| | | |]; cbn; rewrite IH; reflexivity.
Qed.

Lemma In_snoc {A : Type} (x y : A) (l : list A) :
  In x (l ++ [y]) <-> In x l \/ x = y.
Proof. rewrite in_app_iff. cbn. intuition. Qed.

Lemma called_snoc p tr e : called p (tr ++ [e]) <-> called p tr \/ e = EvCall p.
Proof. unfold called. rewrite In_snoc. intuition. Qed.

Lemma fulfilled_snoc p tr e :
  fulfilled p (tr ++ [e]) <-> fulfilled p tr \/ e = EvFulfil p.
Proof. unfold fulfilled. rewrite In_snoc. intuition. Qed.

Lemma rejected_snoc p tr e :
  rejected p (tr ++ [e]) <-> rejected p tr \/ e = EvReject p.
Proof. unfold rejected. rewrite In_snoc. intuition. Qed.

Lemma failed_snoc p tr e :
  failed p (tr ++ [e]) <-> failed p tr \/ exists err, e = EvFail p err.
Proof.
  unfold failed. split.
  - intros [err H]. apply In_snoc in H as [H|H]; eauto.
  - intros [[err H]|[err H]]; exists err; apply In_snoc; auto.
Qed.

Lemma thrown_snoc p s tr e :
  thrown p s (tr ++ [e]) <-> thrown p s tr \/ exists err, e = EvThrow p s err.
Proof.
  unfold thrown. split.
  - intros [err H]. apply In_snoc in H as [H|H]; eauto.
  - intros [[err H]|[err H]]; exists err; apply In_snoc; auto.
Qed.

Lemma selected_snoc p tr e :
  selected p (tr ++ [e]) <-> selected p tr \/ exists l, e = EvSelect p l.
Proof.
  unfold selected. split.
  - intros [l H]. apply In_snoc in H as [H|H]; eauto.
  - intros [[l H]|[l H]]; exists l; apply In_snoc; auto.
Qed.

Lemma invoked_snoc p s tr e :
  invoked p s (tr ++ [e]) <-> invoked p s tr \/ exists a, e = EvInvoke p s a.
Proof.
  unfold invoked. split.
  - intros [a H]. apply In_snoc in H as [H|H]; eauto.
  - intros [[a H]|[a H]]; exists a; apply In_snoc; auto.
Qed.

Lemma WellFormed_app_inv tr1 tr2 : WellFormed (tr1 ++ tr2) -> WellFormed tr1.
Proof.
  revert tr1. induction tr2 as [|e tr2 IH] using rev_ind; intros tr1 H.
  - now rewrite app_nil_r in H.
  - rewrite app_assoc in H. inversion H as [Hnil|tr e' Hwf Hal Heq].
    + destruct (tr1 ++ tr2); discriminate.
    + apply app_inj_tail in Heq as [-> ->]. now apply IH.
Qed.

(** Each event of a well-formed history was allowed by what precedes
    it. *)
Lemma WellFormed_allowed pre e post :
  WellFormed (pre ++ e :: post) -> Allowed pre e.
Proof.
  intros H.
  replace (pre ++ e :: post) with ((pre ++ [e]) ++ post) in H
    by (rewrite <- app_assoc; reflexivity).
  apply WellFormed_app_inv in H.
  inversion H as [Hnil|tr e' Hwf Hal Heq].
  - destruct pre; discriminate.
  - apply app_inj_tail in Heq as [-> ->]. exact Hal.
Qed.

Lemma WellFormed_In tr e :
  WellFormed tr -> In e tr -> exists pre post, tr = pre ++ e :: post /\ Allowed pre e.
Proof.
  intros Hwf Hin. apply in_split in Hin as (pre & post & ->).
  exists pre, post. split; [reflexivity|]. eapply WellFormed_allowed; exact Hwf.
Qed.

Lemma In_prefix {A : Type} (x y : A) pre post : In x pre -> In x (pre ++ y :: post).
Proof. intros H. apply in_app_iff. now left. Qed.

(** A publication that was selected, rejected or fulfilled was called. *)
Lemma called_of_selected p tr : WellFormed tr -> selected p tr -> called p tr.
Proof.
  intros Hwf [l H]. destruct (WellFormed_In _ _ Hwf H) as (pre & post & -> & Hal).
  destruct Hal as [Hc _]. now apply In_prefix.
Qed.

Lemma called_of_rejected p tr : WellFormed tr -> rejected p tr -> called p tr.
Proof.
  intros Hwf H. destruct (WellFormed_In _ _ Hwf H) as (pre & post & -> & Hal).
  destruct Hal as [Hc _]. now apply In_prefix.
Qed.

Lemma called_of_fulfilled p tr : WellFormed tr -> fulfilled p tr -> called p tr.
Proof.
  intros Hwf H. destruct (WellFormed_In _ _ Hwf H) as (pre & post & -> & Hal).
  destruct Hal as [Hc _]. now apply In_prefix.
Qed.

Lemma selected_of_invoked p s tr : WellFormed tr -> invoked p s tr -> selected p tr.
Proof.
  intros Hwf [a H]. destruct (WellFormed_In _ _ Hwf H) as (pre & post & -> & Hal).
  destruct Hal as (l & Hl & _). exists l. now apply In_prefix.
Qed.

Lemma invoked_of_thrown p s e tr :
  WellFormed tr -> In (EvThrow p s e) tr -> invoked p s tr.
Proof.
  intros Hwf H. destruct (WellFormed_In _ _ Hwf H) as (pre & post & -> & [a Ha]).
  exists a. now apply In_prefix.
Qed.

Lemma called_of_failed p tr : WellFormed tr -> failed p tr -> called p tr.
Proof.
  intros Hwf [e H]. destruct (WellFormed_In _ _ Hwf H) as (pre & post & -> & Hal).
  destruct Hal as (_ & _ & s & Hs).
  apply WellFormed_app_inv in Hwf.
  apply In_prefix, called_of_selected; [|eapply selected_of_invoked];
    eauto using invoked_of_thrown.
Qed.

Lemma selected_of_failed p tr : WellFormed tr -> failed p tr -> selected p tr.
Proof.
  intros Hwf [e H]. destruct (WellFormed_In _ _ Hwf H) as (pre & post & Heq & _ & _ & s & Hs).
  rewrite Heq in *. apply WellFormed_app_inv in Hwf as Hpre.
  destruct (selected_of_invoked p s pre Hpre (invoked_of_thrown p s e pre Hpre Hs))
    as [l Hl].
  exists l. now apply In_prefix.
Qed.

(** A publication is settled in one way only. *)
Lemma selected_not_rejected p tr :
  WellFormed tr -> selected p tr -> rejected p tr -> False.
Proof.
  intros Hwf [l Hs] Hr. apply in_split in Hr as (pre & post & ->).
  pose proof (WellFormed_allowed _ _ _ Hwf) as (_ & Hns & _).
  apply in_app_iff in Hs as [Hs|[Hs|Hs]]; [apply Hns; now exists l|discriminate|].
  apply in_split in Hs as (post1 & post2 & ->).
  replace (pre ++ EvReject p :: post1 ++ EvSelect p l :: post2)
    with ((pre ++ EvReject p :: post1) ++ EvSelect p l :: post2) in Hwf
    by (rewrite <- app_assoc; reflexivity).
  apply WellFormed_allowed in Hwf as (_ & _ & Hnr & _).
  apply Hnr. unfold rejected. apply in_app_iff. right. now left.
Qed.

Lemma failed_not_rejected p tr :
  WellFormed tr -> failed p tr -> rejected p tr -> False.
Proof.
  intros Hwf [e H] Hr. apply (selected_not_rejected p tr Hwf); [|exact Hr].
  destruct (WellFormed_In _ _ Hwf H) as (pre & post & Heq & _ & _ & s & Hs).
  rewrite Heq in *. apply (selected_of_invoked p s); [exact Hwf|].
  apply WellFormed_app_inv in Hwf as Hpre.
  destruct (invoked_of_thrown p s e pre Hpre Hs) as [a Ha].
  exists a. now apply In_prefix.
Qed.


(** ** The publications in progress *)




Lemma NoDup_snoc {A : Type} (x : A) (l : list A) :
  List.NoDup l -> ~ In x l -> List.NoDup (l ++ [x]).
Proof.
  induction 1 as [|y l Hy Hnd IH]; intros Hx; cbn.
  - constructor; [intros []|constructor].
  - constructor.
    + rewrite In_snoc. intros [H|H]; [contradiction|]. subst. apply Hx. now left.
    + apply IH. intros H. apply Hx. now right.
Qed.


End HistoryFacts.

Section InvariantFacts.

Import BasePubSub History.

(** ** The invariant is kept by the operations of the bus *)

Ltac fields :=
  cbn [trace immediates subscriptions _inflightCount nextId console ready
       waiting promises emit setConsole setImmediates setSubscriptions
       setNextId setPromises setInflightCount setReady setWaiting
       setImmediate handleError deleteSubscription enqueue] in *.

(** How an event keeps what the invariant says of a queued task. *)
Lemma awaitingTick_snoc p tr e :
  ~ concerns p e -> awaitingTick p tr -> awaitingTick p (tr ++ [e]).
Proof.
  intros Hne (Hc & Hs & Hr & Hf). unfold awaitingTick.
  rewrite called_snoc, selected_snoc, rejected_snoc, fulfilled_snoc.
  repeat split; [now left| | |].
  - intros [H|[l ->]]; [tauto|]. now apply Hne.
  - intros [H| ->]; [tauto|]. now apply Hne.
  - intros [H| ->]; [tauto|]. now apply Hne.
Qed.

Lemma dispatching_snoc p s tr e :
  e <> EvFulfil p -> dispatching p s tr -> dispatching p s (tr ++ [e]).
Proof.
  intros Hne (Hf & l & Hl & Hs). split.
  - rewrite fulfilled_snoc. intros [H|H]; [tauto|contradiction].
  - exists l. split; [apply In_snoc; now left|exact Hs].
Qed.

(** How an event keeps what the invariant says of a pending promise. *)
Lemma unsettled_snoc p tr e :
  ~ concerns p e -> e <> EvCall p ->
  (called p (tr ++ [e]) /\ ~ fulfilled p (tr ++ [e]) /\
   ~ rejected p (tr ++ [e]) /\ ~ failed p (tr ++ [e])) <->
  (called p tr /\ ~ fulfilled p tr /\ ~ rejected p tr /\ ~ failed p tr).
Proof.
  intros Hc Hne. rewrite called_snoc, fulfilled_snoc, rejected_snoc, failed_snoc.
  split.
  - intros ([H|H] & Hf & Hr & Hx); [|congruence]. tauto.
  - intros (H & Hf & Hr & Hx). repeat split; [now left| | |].
    + intros [?| ->]; [tauto|]. now apply Hc.
    + intros [?| ->]; [tauto|]. now apply Hc.
    + intros [?|[err ->]]; [tauto|]. now apply Hc.
Qed.

Lemma allDone_spec p st m topic args :
  allDone p st = true -> ~ In (TWrapper p m topic args) (immediates st).
Proof.
  unfold allDone. rewrite negb_true_iff. intros H Hin.
  assert (Hex : existsb (isWrapperOf p) (immediates st) = true).
  { apply existsb_exists. eexists. split; [exact Hin|]. cbn. apply Nat.eqb_refl. }
  congruence.
Qed.

Lemma allDone_iff p st :
  allDone p st = true <->
  forall m topic args, ~ In (TWrapper p m topic args) (immediates st).
Proof.
  split; [intros H m topic args; now apply allDone_spec|].
  intros H. unfold allDone. apply negb_true_iff.
  destruct (existsb _ _) eqn:He; [|reflexivity].
  apply existsb_exists in He as (t & Hin & Ht).
  destruct t as [|q m topic args|]; try discriminate.
  cbn in Ht. apply Nat.eqb_eq in Ht. subst q. now apply H in Hin.
Qed.

(** A job that is due stays so when the history grows, no promise is
    settled and no callback of [pub] joins the queue. *)
Lemma Due_mono st st' j :
  (forall e, In e (trace st) -> In e (trace st')) ->
  (forall p, pending p st = true -> pending p st' = true) ->
  (forall p, allDone p st = true -> allDone p st' = true) ->
  Due st j -> Due st' j.
Proof.
  intros Htr Hp Hd. destruct j as [c k|p [e|]|p [e|]]; cbn; [tauto| | | |].
  - intros ([l Hl] & s & Hs). split; [exists l|exists s]; auto.
  - intros ([l Hl] & _). split; [exists l; auto|exact I].
  - intros (H & s & Hs). split; [auto|exists s; auto].
  - intros (H & Ha & l & Hl & Hi). split; [auto|]. split; [auto|].
    exists l. split; [auto|]. intros s Hs. destruct (Hi s Hs) as [a Ha'].
    exists a. auto.
Qed.

Lemma Due_emit st e j :
  Due st j -> Due (emit e st) j.
Proof.
  apply Due_mono; try tauto. intros x H. cbn. apply In_snoc. now left.
Qed.

Lemma filter_ofBus_snoc_prog l c k :
  List.filter ofBus (l ++ [JProg c k]) = List.filter ofBus l.
Proof. rewrite List.filter_app. cbn. apply app_nil_r. Qed.

Lemma Inv_init : Inv (init 0).
Proof.
  constructor; cbn; try tauto; try reflexivity; try lia.
  - constructor.
  - constructor.
  - intros p. unfold pending, called. cbn. rewrite lookup_empty.
    split; [discriminate|tauto].
Qed.

Lemma Inv_setWaiting x st : Inv st -> Inv (setWaiting x st).
Proof. intros []; constructor; assumption. Qed.

(** A job leaves the list. *)
Lemma Inv_pop_job j rest st :
  Inv st -> ready st = j :: rest ->
  Inv (setReady rest st) /\ Due st j /\
  (ofBus j = true -> Forall (fun x => ofBus x = false) rest).
Proof.
  intros [] Hq. rewrite Hq in *. split; [|split].
  - constructor; fields; try assumption.
    + intros x H. apply (Due_mono st); auto. apply inv_due0. now right.
    + cbn in inv_turn0. destruct (ofBus j); cbn in inv_turn0; lia.
  - apply inv_due0. now left.
  - intros Hj. cbn in inv_turn0. rewrite Hj in inv_turn0. cbn in inv_turn0.
    assert (Hnil : List.filter ofBus rest = []) by (destruct (List.filter _ _); [reflexivity|cbn in *; lia]).
    apply List.Forall_forall. intros x Hx.
    destruct (ofBus x) eqn:Hb; [|reflexivity].
    assert (In x (List.filter ofBus rest)) by (apply filter_In; auto).
    rewrite Hnil in *. contradiction.
Qed.

(** Code of the caller's becomes due. *)
Lemma Inv_enqueue_prog c k st : Inv st -> Inv (enqueue (JProg c k) st).
Proof.
  intros []. constructor; fields; try assumption.
  - intros x H. apply In_snoc in H as [H| ->]; [|exact I].
    apply (Due_mono st); auto.
  - now rewrite filter_ofBus_snoc_prog.
Qed.

Lemma Inv_wake p f st : Inv st -> Inv (wake p f st).
Proof.
  intros []. unfold wake. set (due := List.map _ _).
  assert (Hdue : Forall (fun x => ofBus x = false) due).
  { unfold due. apply List.Forall_forall. intros x H.
    apply in_map_iff in H as ([[q c] k] & <- & _). now destruct f. }
  constructor; fields; try assumption.
  - intros x H. apply in_app_iff in H as [H|H].
    + apply (Due_mono st); auto.
    + rewrite List.Forall_forall in Hdue. apply Hdue in H.
      destruct x; [exact I|discriminate..].
  - rewrite List.filter_app.
    replace (List.filter ofBus due) with (@nil Job); [now rewrite app_nil_r|].
    clear -Hdue. induction Hdue as [|x l Hx _ IH]; [reflexivity|].
    cbn. now rewrite Hx.
Qed.

Lemma pubIds_app q1 q2 : pubIds (q1 ++ q2) = pubIds q1 ++ pubIds q2.
Proof. unfold pubIds. apply flat_map_app. Qed.

Lemma In_pubIds p q : In p (pubIds q) <-> exists topic args, In (TPub p topic args) q.
Proof.
  unfold pubIds. rewrite in_flat_map. split.
  - intros (t & Hin & Hp). destruct t as [p' topic args| |]; cbn in Hp;
      [|destruct Hp..]. destruct Hp as [->|[]]. eauto.
  - intros (topic & args & Hin). eexists. split; [exact Hin|]. now left.
Qed.

Lemma allDone_enqueue p t st :
  isWrapperOf p t = false -> allDone p (setImmediate t st) = allDone p st.
Proof.
  intros H. unfold allDone. cbn. rewrite existsb_app. cbn. rewrite H.
  now rewrite !orb_false_r.
Qed.

Lemma Inv_setImmediate_prog c k st : Inv st -> Inv (setImmediate (TProg c k) st).
Proof.
  intros []. constructor; fields; try assumption.
  - intros p topic args H. apply In_snoc in H as [H|H]; [eauto|discriminate].
  - intros p m topic args H. apply In_snoc in H as [H|H]; [eauto|discriminate].
  - intros p l s H Hs. destruct (inv_selected0 p l s H Hs) as [|(m & t & a & Hin & Hm)].
    + now left.
    + right. exists m, t, a. split; [|exact Hm]. apply In_snoc. now left.
  - rewrite pubIds_app. cbn. now rewrite app_nil_r.
  - intros x H. apply (Due_mono st); auto.
    intros p Hp. change (allDone p (setImmediate (TProg c k) st) = true).
    now rewrite allDone_enqueue.
Qed.

Lemma Inv_deleteSubscription s st : Inv st -> Inv (deleteSubscription s st).
Proof.
  intros []. constructor; fields; try assumption.
  intros x H. apply filter_In in H as [H _]. auto.
Qed.

Lemma Inv_settle c e st : Inv st -> Inv (settle c e st).
Proof.
  intros Hinv. destruct c as [|p s]; [exact Hinv|]. cbn.
  destruct Hinv.
  assert (Hmid : forall cons,
    cons = errors (trace st ++ [EvSettle p s e]) ->
    Inv (setConsole cons (emit (EvSettle p s e) st))).
  { intros cons Hcons. constructor; fields.
    - constructor; [assumption|exact I].
    - intros q topic args H. apply awaitingTick_snoc; [intros []|].
      now apply (inv_pub0 q topic args).
    - intros q m topic args H. apply dispatching_snoc; [discriminate|].
      now apply (inv_wrapper0 q m topic args).
    - intros q l x H Hx. apply In_snoc in H as [H|H]; [|discriminate].
      destruct (inv_selected0 q l x H Hx) as [Hi|Hw]; [|now right].
      left. apply invoked_snoc. now left.
    - intros x H. destruct (inv_registry0 x H) as [H1 H2].
      split; [apply In_snoc; now left|exact H2].
    - intros x H. apply In_snoc in H as [H| ->]; [now apply inv_fresh0|exact I].
    - assumption.
    - rewrite balance_app. cbn. lia.
    - exact Hcons.
    - intros q. rewrite unsettled_snoc by (intros H; try discriminate; exact H).
      exact (inv_promise0 q).
    - intros x H. apply (Due_mono st); auto.
      intros y Hy. cbn. apply In_snoc. now left.
    - assumption. }
  destruct e as [err|].
  - unfold handleError. apply Hmid. cbn.
    rewrite errors_app, inv_console0. reflexivity.
  - replace (emit (EvSettle p s None) st)
      with (setConsole (console st) (emit (EvSettle p s None) st)) by reflexivity.
    apply Hmid. rewrite errors_app, inv_console0. cbn. now rewrite app_nil_r.
Qed.

Lemma Inv_sub topic handler once st id st' :
  Inv st -> sub topic handler once st = Ok (id, st') -> Inv st'.
Proof.
  intros [] H. unfold sub in H.
  destruct (BasePathMatcher.new topic) as [matcher|e]; [|discriminate].
  cbn in H. inversion H; subst; clear H.
  constructor; fields.
  - constructor; [assumption|]. cbn. intros H.
    apply inv_fresh0 in H. cbn in H. lia.
  - intros p t a H. apply awaitingTick_snoc; [intros []|]. now apply (inv_pub0 p t a).
  - intros p m t a H. apply dispatching_snoc; [discriminate|].
    now apply (inv_wrapper0 p m t a).
  - intros p l s H Hs. apply In_snoc in H as [H|H]; [|discriminate].
    destruct (inv_selected0 p l s H Hs) as [Hi|Hw]; [|now right].
    left. apply invoked_snoc. now left.
  - intros s H. apply In_snoc in H as [H| ->].
    + destruct (inv_registry0 s H) as [H1 H2].
      split; [apply In_snoc; now left|exact H2].
    + cbn. split; [apply In_snoc; now right|reflexivity].
  - intros e H. apply In_snoc in H as [H| ->].
    + apply inv_fresh0 in H. destruct e; try exact I; lia.
    + cbn. lia.
  - assumption.
  - rewrite balance_app. cbn. lia.
  - rewrite errors_app. cbn. now rewrite app_nil_r.
  - intros q. rewrite unsettled_snoc by (intros H; try discriminate; exact H).
    exact (inv_promise0 q).
  - intros x H. apply (Due_mono st); auto.
    intros y Hy. cbn. apply In_snoc. now left.
  - assumption.
Qed.

Lemma Inv_pubCall topic args st : Inv st -> Inv (pubCall topic args st).2.
Proof.
  intros Hinv. pose proof Hinv as []. unfold pubCall. cbn [snd].
  assert (Hfresh : ~ called (nextId st) (trace st)).
  { intros H. apply inv_fresh0 in H. cbn in H. lia. }
  assert (Hpend : forall q, pending q st = true ->
            pending q (setPromises (<[nextId st := Pending]> (promises st)) st) = true).
  { intros q Hq. unfold pending in *. cbn.
    destruct (decide (q = nextId st)) as [->|Hne];
      [now rewrite lookup_insert_eq|now rewrite lookup_insert_ne]. }
  constructor; fields.
  - constructor; [assumption|exact Hfresh].
  - intros p t a H. apply In_snoc in H as [H|H].
    + apply awaitingTick_snoc; [intros []|]. now apply (inv_pub0 p t a).
    + inversion H; subst; clear H. unfold awaitingTick.
      rewrite called_snoc, selected_snoc, rejected_snoc, fulfilled_snoc.
      repeat split; [now right| | |].
      * intros [H|[l H]]; [|discriminate].
        now apply Hfresh, called_of_selected.
      * intros [H|H]; [|discriminate]. now apply Hfresh, called_of_rejected.
      * intros [H|H]; [|discriminate]. now apply Hfresh, called_of_fulfilled.
  - intros p m t a H. apply In_snoc in H as [H|H]; [|discriminate].
    apply dispatching_snoc; [discriminate|]. now apply (inv_wrapper0 p m t a).
  - intros p l s H Hs. apply In_snoc in H as [H|H]; [|discriminate].
    destruct (inv_selected0 p l s H Hs) as [Hi|(m & t & a & Hin & Hm)].
    + left. apply invoked_snoc. now left.
    + right. exists m, t, a. split; [apply In_snoc; now left|exact Hm].
  - intros s H. destruct (inv_registry0 s H) as [H1 H2].
    split; [apply In_snoc; now left|exact H2].
  - intros e H. apply In_snoc in H as [H| ->].
    + apply inv_fresh0 in H. destruct e; try exact I; lia.
    + cbn. lia.
  - rewrite pubIds_app. cbn. apply NoDup_snoc; [assumption|].
    intros H. apply In_pubIds in H as (t & a & H).
    apply inv_pub0 in H as [H _]. contradiction.
  - rewrite balance_app. cbn. lia.
  - rewrite errors_app. cbn. now rewrite app_nil_r.
  - intros q. destruct (decide (q = nextId st)) as [->|Hne].
    + unfold pending. cbn. rewrite lookup_insert_eq.
      rewrite called_snoc, fulfilled_snoc, rejected_snoc, failed_snoc.
      split; [intros _|reflexivity]. repeat split; [now right| | |].
      * intros [H|H]; [|discriminate]. now apply Hfresh, called_of_fulfilled.
      * intros [H|H]; [|discriminate]. now apply Hfresh, called_of_rejected.
      * intros [H|[err H]]; [|discriminate]. now apply Hfresh, called_of_failed.
    + rewrite unsettled_snoc; [| intros H; try discriminate; exact H | congruence].
      rewrite <- (inv_promise0 q). unfold pending. cbn.
      now rewrite lookup_insert_ne by congruence.
  - intros x H. apply (Due_mono st); auto.
    + intros y Hy. cbn. apply In_snoc. now left.
    + intros p Hp. unfold allDone in *. cbn. rewrite existsb_app. cbn.
      now rewrite !orb_false_r.
  - assumption.
Qed.

Lemma filter_ofBus_nil l :
  Forall (fun x => ofBus x = false) l -> List.filter ofBus l = [].
Proof.
  induction 1 as [|x l Hx _ IH]; [reflexivity|]. cbn. now rewrite Hx.
Qed.

(** A job of [Promise.all] or of [pub] becomes due, none being due yet. *)
Lemma Inv_enqueue_bus j st :
  Inv st -> Due st j -> Forall (fun x => ofBus x = false) (ready st) ->
  Inv (enqueue j st).
Proof.
  intros [] Hj Hr. constructor; fields; try assumption.
  - intros x H. apply In_snoc in H as [H| ->]; apply (Due_mono st); auto.
  - rewrite List.filter_app, (filter_ofBus_nil _ Hr). cbn.
    destruct (ofBus j); cbn; lia.
Qed.

(** A handler throws at the callback of [pub]. *)
Lemma Inv_emit_throw p s e st :
  Inv st -> invoked p s (trace st) -> Inv (emit (EvThrow p s e) st).
Proof.
  intros [] Hi. constructor; fields; try assumption.
  - constructor; [assumption|exact Hi].
  - intros q topic args H. apply awaitingTick_snoc; [intros []|].
    now apply (inv_pub0 q topic args).
  - intros q m topic args H. apply dispatching_snoc; [discriminate|].
    now apply (inv_wrapper0 q m topic args).
  - intros q l x H Hx. apply In_snoc in H as [H|H]; [|discriminate].
    destruct (inv_selected0 q l x H Hx) as [Hi'|Hw]; [|now right].
    left. apply invoked_snoc. now left.
  - intros x H. destruct (inv_registry0 x H) as [H1 H2].
    split; [apply In_snoc; now left|exact H2].
  - intros x H. apply In_snoc in H as [H| ->]; [now apply inv_fresh0|exact I].
  - rewrite balance_app. cbn. lia.
  - rewrite errors_app. cbn. now rewrite app_nil_r.
  - intros q. rewrite unsettled_snoc by (intros H; try discriminate; exact H).
    exact (inv_promise0 q).
  - intros x H. apply Due_emit. auto.
Qed.

Section Loop.

Context {regex : Type}.
Variable RegExp : string -> string -> result regex.
Variable test : regex -> string -> bool.

Lemma Inv_fold_delete (ms : list SubscriptionMatch) st :
  Inv st ->
  Inv (fold_left (fun st m => deleteSubscription (sid (subscription m)) st) ms st).
Proof.
  revert st. induction ms as [|m ms IH]; intros st H; [exact H|].
  cbn. apply IH. now apply Inv_deleteSubscription.
Qed.

Lemma Inv_unsubTopic topic st st' :
  Inv st -> unsubTopic RegExp test topic st = Ok st' -> Inv st'.
Proof.
  intros Hinv H. unfold unsubTopic in H.
  destruct (filterSubs RegExp test topic st) as [ms|e]; [|discriminate].
  cbn in H. inversion H; subst. now apply Inv_fold_delete.
Qed.

Lemma Inv_throw async c e st : Inv st -> Inv (throw async c e st).1.
Proof. intros H. destruct async; cbn; [now apply Inv_settle|exact H]. Qed.

Lemma Inv_exec async c k st : Inv st -> Inv (exec RegExp test async c k st).1.
Proof.
  revert c st. induction k as [|e|k IH|topic handler once k IH|s k IH|topic k IH
                              |topic args k IH|p k IH|k IH]; intros c st Hinv;
    cbn [exec].
  - now apply Inv_settle.
  - now apply Inv_throw.
  - now apply Inv_setImmediate_prog.
  - destruct (sub topic handler once st) as [[id st']|e] eqn:Hsub.
    + apply IH. eapply Inv_sub; eassumption.
    + now apply Inv_throw.
  - apply IH. now apply Inv_deleteSubscription.
  - destruct (unsubTopic RegExp test topic st) as [st'|e] eqn:Hu.
    + apply IH. eapply Inv_unsubTopic; eassumption.
    + now apply Inv_throw.
  - apply IH. now apply (Inv_pubCall topic args).
  - cbn [fst]. destruct (promises st !! p) as [[| |e]|]; first
      [now apply Inv_enqueue_prog | now apply Inv_setWaiting].
  - now apply IH.
Qed.

Lemma Inv_resume c k st : Inv st -> Inv (resume RegExp test c k st).
Proof. apply Inv_exec. Qed.

(** Code that resumes after an [await] throws nothing at a caller. *)
Lemma exec_async c k st : (exec RegExp test true c k st).2 = None.
Proof.
  revert c st. induction k as [|e|k IH|topic handler once k IH|s k IH|topic k IH
                              |topic args k IH|p k IH|k IH]; intros c st;
    cbn [exec]; try reflexivity; auto.
  - destruct (sub topic handler once st) as [[id st']|e]; [apply IH|reflexivity].
  - destruct (unsubTopic RegExp test topic st) as [st'|e]; [apply IH|reflexivity].
  - apply (IH (nextId st)).
Qed.

(** The code of the caller adds to the history only events of its own:
    no selection, invocation, fulfilment or rejection. *)
Lemma exec_trace async c k st :
  exists evs, trace (exec RegExp test async c k st).1 = trace st ++ evs /\
              Forall callerEvent evs.
Proof.
  assert (Hsettle : forall c e st,
    exists evs, trace (settle c e st) = trace st ++ evs /\ Forall callerEvent evs).
  { intros c' e st'. destruct c' as [|p s]; cbn.
    - exists []. rewrite app_nil_r. split; [reflexivity|constructor].
    - exists [EvSettle p s e]. split; [destruct e; reflexivity|].
      repeat constructor. }
  assert (Hthrow : forall a c e st,
    exists evs, trace (throw a c e st).1 = trace st ++ evs /\ Forall callerEvent evs).
  { intros a c' e st'. destruct a; cbn; [apply Hsettle|].
    exists []. rewrite app_nil_r. split; [reflexivity|constructor]. }
  assert (Hext : forall (st1 st2 : State) evs1,
    trace st2 = trace st1 ++ evs1 -> Forall callerEvent evs1 ->
    forall st3, (exists evs, trace st3 = trace st2 ++ evs /\ Forall callerEvent evs) ->
    exists evs, trace st3 = trace st1 ++ evs /\ Forall callerEvent evs).
  { intros st1 st2 evs1 H12 H1 st3 (evs & H23 & H2).
    exists (evs1 ++ evs). rewrite H23, H12, app_assoc. split; [reflexivity|].
    apply Forall_app. auto. }
  revert c st. induction k as [|e|k IH|topic handler once k IH|s k IH|topic k IH
                              |topic args k IH|p k IH|k IH]; intros c st;
    cbn [exec].
  - apply Hsettle.
  - apply Hthrow.
  - exists []. rewrite app_nil_r. split; [reflexivity|constructor].
  - destruct (sub topic handler once st) as [[id st']|e] eqn:Hsub; [|apply Hthrow].
    unfold sub in Hsub. destruct (BasePathMatcher.new topic); [|discriminate].
    cbn in Hsub. inversion Hsub; subst; clear Hsub.
    eapply (Hext st); [| |apply IH]; [reflexivity|repeat constructor].
  - eapply (Hext st _ []); [| |apply IH]; [cbn; now rewrite app_nil_r|constructor].
  - destruct (unsubTopic RegExp test topic st) as [st'|e] eqn:Hu; [|apply Hthrow].
    unfold unsubTopic in Hu. destruct (filterSubs RegExp test topic st) as [ms|]; [|discriminate].
    cbn in Hu. inversion Hu; subst; clear Hu.
    eapply (Hext st _ []); [| |apply IH]; [|constructor].
    rewrite app_nil_r. clear. revert st. induction ms as [|m ms IHm]; intros st; [reflexivity|].
    cbn. now rewrite IHm.
  - eapply (Hext st); [| |apply (IH (nextId st))]; [reflexivity|repeat constructor].
  - exists []. rewrite app_nil_r. split; [|constructor].
    cbn [fst]. destruct (promises st !! p) as [[| |e]|]; reflexivity.
  - apply IH.
Qed.

Lemma ready_settle c e st : ready (settle c e st) = ready st.
Proof. destruct c; [reflexivity|]. destruct e; reflexivity. Qed.

Lemma ready_throw async c e st : ready (throw async c e st).1 = ready st.
Proof. destruct async; [apply ready_settle|reflexivity]. Qed.

Lemma ready_fold_delete (ms : list SubscriptionMatch) st :
  ready (fold_left (fun st m => deleteSubscription (sid (subscription m)) st) ms st)
  = ready st.
Proof.
  revert st. induction ms as [|m ms IH]; intros st; [reflexivity|].
  cbn [fold_left]. now rewrite IH.
Qed.

(** The code of the caller leaves one job at most, and that job is code
    of the caller's. *)
Lemma exec_ready async c k st :
  ready (exec RegExp test async c k st).1 = ready st \/
  exists c' k', ready (exec RegExp test async c k st).1 = ready st ++ [JProg c' k'].
Proof.
  revert c st. induction k as [|e|k IH|topic handler once k IH|s k IH|topic k IH
                              |topic args k IH|p k IH|k IH]; intros c st;
    cbn [exec].
  - left. apply ready_settle.
  - left. apply ready_throw.
  - now left.
  - destruct (sub topic handler once st) as [[id st']|e] eqn:Hsub;
      [|left; apply ready_throw].
    assert (Hr : ready st' = ready st).
    { unfold sub in Hsub. destruct (BasePathMatcher.new topic); [|discriminate].
      cbn in Hsub. now inversion Hsub. }
    rewrite <- Hr. apply IH.
  - apply (IH c (unsub s st)).
  - destruct (unsubTopic RegExp test topic st) as [st'|e] eqn:Hu;
      [|left; apply ready_throw].
    assert (Hr : ready st' = ready st).
    { unfold unsubTopic in Hu. destruct (filterSubs RegExp test topic st); [|discriminate].
      cbn in Hu. inversion Hu. apply ready_fold_delete. }
    rewrite <- Hr. apply IH.
  - apply (IH (nextId st) c (pubCall topic args st).2).
  - cbn [fst]. destruct (promises st !! p) as [[| |e]|]; cbn; eauto.
  - apply IH.
Qed.

Lemma exec_ready_bus async c k st :
  Forall (fun x => ofBus x = false) (ready st) ->
  Forall (fun x => ofBus x = false) (ready (exec RegExp test async c k st).1).
Proof.
  intros H. destruct (exec_ready async c k st) as [->|(c' & k' & ->)]; [exact H|].
  apply Forall_app. split; [exact H|]. now repeat constructor.
Qed.

(** ** Tasks leaving the queue

    A task runs when no job is due. *)

Lemma Inv_pop_prog c k rest st :
  Inv st -> ready st = [] -> immediates st = TProg c k :: rest ->
  Inv (setImmediates rest st).
Proof.
  intros [] Hr Hq. rewrite Hq, Hr in *. constructor; fields; try assumption.
  - intros p t a H. apply (inv_pub0 p t a). now right.
  - intros p m t a H. apply (inv_wrapper0 p m t a). now right.
  - intros p l s H Hs. destruct (inv_selected0 p l s H Hs) as [Hi|(m & t & a & Hin & Hm)].
    + now left.
    + right. exists m, t, a. destruct Hin as [Hin|Hin]; [discriminate|]. auto.
  - rewrite Hr. intros x [].
  - rewrite Hr. cbn. lia.
Qed.

Lemma Inv_pop_pub p topic args rest st :
  Inv st -> ready st = [] -> immediates st = TPub p topic args :: rest ->
  Inv (setImmediates rest st) /\ awaitingTick p (trace st) /\
  ~ In p (pubIds rest).
Proof.
  intros [] Hr Hq. rewrite Hq in *. split; [|split].
  - constructor; fields; try assumption.
    + intros q t a H. apply (inv_pub0 q t a). now right.
    + intros q m t a H. apply (inv_wrapper0 q m t a). now right.
    + intros q l s H Hs.
      destruct (inv_selected0 q l s H Hs) as [Hi|(m & t & a & Hin & Hm)].
      * now left.
      * right. exists m, t, a. destruct Hin as [Hin|Hin]; [discriminate|]. auto.
    + cbn in inv_unique0. now inversion inv_unique0.
    + rewrite Hr. intros x [].
  - apply (inv_pub0 p topic args). now left.
  - cbn in inv_unique0. now inversion inv_unique0.
Qed.

Lemma Inv_pop_wrapper p m topic args rest st a :
  Inv st -> ready st = [] -> immediates st = TWrapper p m topic args :: rest ->
  Inv (emit (EvInvoke p (sid (subscription m)) a) (setImmediates rest st)) /\
  dispatching p (sid (subscription m)) (trace st).
Proof.
  intros [] Hr Hq. rewrite Hq in *.
  assert (Hd : dispatching p (sid (subscription m)) (trace st)).
  { apply (inv_wrapper0 p m topic args). now left. }
  split; [|exact Hd].
  constructor; fields; try assumption.
  - constructor; [assumption|]. destruct Hd as (_ & l & Hl & Hs). cbn. eauto.
  - intros q t b H. apply awaitingTick_snoc; [intros []|].
    apply (inv_pub0 q t b). now right.
  - intros q m' t b H. apply dispatching_snoc; [discriminate|].
    apply (inv_wrapper0 q m' t b). now right.
  - intros q l s H Hs. apply In_snoc in H as [H|H]; [|discriminate].
    destruct (inv_selected0 q l s H Hs) as [Hi|(m' & t & b & Hin & Hm)].
    + left. apply invoked_snoc. now left.
    + destruct Hin as [Hin|Hin].
      * inversion Hin; subst; clear Hin. left. apply invoked_snoc. right. eauto.
      * right. eauto.
  - intros s H. destruct (inv_registry0 s H) as [H1 H2].
    split; [apply In_snoc; now left|exact H2].
  - intros e H. apply In_snoc in H as [H| ->]; [now apply inv_fresh0|exact I].
  - rewrite balance_app. cbn. lia.
  - rewrite errors_app. cbn. now rewrite app_nil_r.
  - intros q. rewrite unsettled_snoc by (intros H; try discriminate; exact H).
    exact (inv_promise0 q).
  - rewrite Hr. intros x [].
Qed.

(** ** The selection of the subscriptions *)

Lemma mapM_Ok_In {A B : Type} (f : A -> result B) l ys y :
  mapM f l = Ok ys -> In y ys -> exists x, In x l /\ f x = Ok y.
Proof.
  revert ys. induction l as [|x l IH]; intros ys H Hin; cbn in H.
  - inversion H; subst. destruct Hin.
  - destruct (f x) as [y'|] eqn:Hx; [|discriminate]. cbn in H.
    destruct (mapM f l) as [ys'|]; [|discriminate]. cbn in H.
    inversion H; subst; clear H. destruct Hin as [<-|Hin].
    + exists x. split; [now left|exact Hx].
    + destruct (IH ys' eq_refl Hin) as (x' & Hx' & Hf). exists x'. split; [now right|exact Hf].
Qed.

Lemma mapM_Ok_complete {A B : Type} (f : A -> result B) l ys x :
  mapM f l = Ok ys -> In x l -> exists y, f x = Ok y /\ In y ys.
Proof.
  revert ys. induction l as [|x' l IH]; intros ys H Hin; [destruct Hin|].
  cbn in H. destruct (f x') as [y'|] eqn:Hx; [|discriminate]. cbn in H.
  destruct (mapM f l) as [ys'|]; [|discriminate]. cbn in H.
  inversion H; subst; clear H. destruct Hin as [->|Hin].
  - exists y'. split; [exact Hx|now left].
  - destruct (IH ys' eq_refl Hin) as (y & Hy & Hin'). exists y. split; [exact Hy|now right].
Qed.

Lemma matchSubscription_subscription topic s m :
  matchSubscription RegExp test topic s = Ok m -> subscription m = s.
Proof.
  unfold matchSubscription. destruct (matchedTopics s !! topic).
  - intros H. inversion H. reflexivity.
  - destruct (BasePathMatcher.match_ RegExp test (matcher s) topic); [|discriminate].
    cbn. intros H. inversion H. reflexivity.
Qed.

(** [filterSubs] selects, among the subscriptions registered, those that
    match. *)
Lemma filterSubs_sound topic st ms m :
  filterSubs RegExp test topic st = Ok ms -> In m ms ->
  In (subscription m) (subscriptions st) /\ match_ m = true /\
  matchSubscription RegExp test topic (subscription m) = Ok m.
Proof.
  unfold filterSubs. intros H Hin.
  destruct (mapM _ _) as [all|] eqn:Hall; [|discriminate]. cbn in H.
  inversion H; subst; clear H. apply filter_In in Hin as [Hin Hm].
  destruct (mapM_Ok_In _ _ _ _ Hall Hin) as (s & Hs & Hf).
  rewrite (matchSubscription_subscription _ _ _ Hf). auto.
Qed.

Lemma filterSubs_complete topic st ms s m :
  filterSubs RegExp test topic st = Ok ms -> In s (subscriptions st) ->
  matchSubscription RegExp test topic s = Ok m -> match_ m = true ->
  In m ms.
Proof.
  unfold filterSubs. intros H Hin Hs Hm.
  destruct (mapM _ _) as [all|] eqn:Hall; [|discriminate]. cbn in H.
  inversion H; subst; clear H. apply filter_In. split; [|exact Hm].
  destruct (mapM_Ok_complete _ _ _ _ Hall Hin) as (y & Hy & Hin').
  rewrite Hs in Hy. inversion Hy; subst. exact Hin'.
Qed.

Lemma enqueue_wrappers p topic args ms st :
  fold_left (fun st m => setImmediate (TWrapper p m topic args) st) ms st =
  setImmediates (immediates st ++ wrappers p topic args ms) st.
Proof.
  revert st. induction ms as [|m ms IH]; intros st.
  - cbn. rewrite app_nil_r. now destruct st.
  - cbn [fold_left]. rewrite IH. unfold setImmediate, setImmediates. cbn.
    now rewrite <- app_assoc.
Qed.

Lemma pubIds_wrappers p topic args ms : pubIds (wrappers p topic args ms) = [].
Proof. induction ms as [|m ms IH]; [reflexivity|exact IH]. Qed.

Lemma Inv_select p topic args ms st :
  Inv st -> ready st = [] ->
  awaitingTick p (trace st) -> ~ In p (pubIds (immediates st)) ->
  filterSubs RegExp test topic st = Ok ms ->
  Inv (setImmediates (immediates st ++ wrappers p topic args ms)
         (emit (EvSelect p (sids ms)) st)).
Proof.
  intros [] Hrd (Hc & Hs & Hr & Hf) Hp Hms. constructor; fields; try assumption.
  - constructor; [assumption|]. cbn. repeat split; try assumption.
    intros s H. unfold sids in H. apply in_map_iff in H as (m & <- & Hm).
    destruct (filterSubs_sound _ _ _ _ Hms Hm) as (Hreg & _).
    now apply inv_registry0.
  - intros q t a H. apply in_app_iff in H as [H|H].
    + apply awaitingTick_snoc; [|now apply (inv_pub0 q t a)].
      cbn. intros ->. apply Hp. apply In_pubIds. eauto.
    + unfold wrappers in H. apply in_map_iff in H as (m & H & _). discriminate.
  - intros q m t a H. apply in_app_iff in H as [H|H].
    + apply dispatching_snoc; [discriminate|]. now apply (inv_wrapper0 q m t a).
    + unfold wrappers in H. apply in_map_iff in H as (m' & H & Hm).
      inversion H; subst; clear H. split.
      * rewrite fulfilled_snoc. intros [H|H]; [tauto|discriminate].
      * exists (sids ms). split; [apply In_snoc; now right|].
        unfold sids. apply in_map_iff. eauto.
  - intros q l s H Hl. apply In_snoc in H as [H|H].
    + destruct (inv_selected0 q l s H Hl) as [Hi|(m & t & a & Hin & Hm)].
      * left. apply invoked_snoc. now left.
      * right. exists m, t, a. split; [apply in_app_iff; now left|exact Hm].
    + inversion H; subst; clear H. right.
      unfold sids in Hl. apply in_map_iff in Hl as (m & Hm & Hin).
      exists m, topic, args. split; [|exact Hm].
      apply in_app_iff. right. unfold wrappers. apply in_map_iff. eauto.
  - intros s H. destruct (inv_registry0 s H) as [H1 H2].
    split; [apply In_snoc; now left|exact H2].
  - intros e H. apply In_snoc in H as [H| ->]; [now apply inv_fresh0|exact I].
  - rewrite pubIds_app, pubIds_wrappers, app_nil_r. assumption.
  - rewrite balance_app. cbn. lia.
  - rewrite errors_app. cbn. now rewrite app_nil_r.
  - intros q. rewrite called_snoc, fulfilled_snoc, rejected_snoc, failed_snoc.
    change (pending q _) with (pending q st). rewrite (inv_promise0 q).
    split.
    + intros (H1 & H2 & H3 & H4). split; [now left|].
      repeat split; intros [?|?]; try tauto; try discriminate.
      destruct H as [err H]. discriminate.
    + intros ([H1|H1] & H2 & H3 & H4); [tauto|discriminate].
  - rewrite Hrd. intros x [].
Qed.

(** ** The promise of [pub] is settled *)

Lemma promise_settled p v st q :
  q <> p -> pending q (setPromises (<[p := v]> (promises st)) st) = pending q st.
Proof. intros H. unfold pending. cbn. now rewrite lookup_insert_ne by congruence. Qed.

Lemma Inv_finish p st :
  Inv st -> Due st (JPub p None) -> Forall (fun x => ofBus x = false) (ready st) ->
  Inv (finish p st).
Proof.
  intros Hinv (Hpend & Hdone & l & Hl & Hall) Hr. unfold finish. apply Inv_wake.
  destruct Hinv. apply inv_promise0 in Hpend as Hp. destruct Hp as (Hc & Hf & Hrj & Hx).
  constructor; fields; try assumption.
  - constructor; [assumption|]. cbn. repeat split; eauto.
  - intros q t a H. apply awaitingTick_snoc; [|now apply (inv_pub0 q t a)].
    cbn. intros ->. apply inv_pub0 in H as (_ & Hns & _). apply Hns. now exists l.
  - intros q m t a H. apply dispatching_snoc; [|now apply (inv_wrapper0 q m t a)].
    intros Heq. inversion Heq; subst. now apply allDone_spec in H.
  - intros q l' s H Hl'. apply In_snoc in H as [H|H]; [|discriminate].
    destruct (inv_selected0 q l' s H Hl') as [Hi|Hw]; [|now right].
    left. apply invoked_snoc. now left.
  - intros s H. destruct (inv_registry0 s H) as [H1 H2].
    split; [apply In_snoc; now left|exact H2].
  - intros e H. apply In_snoc in H as [H| ->]; [now apply inv_fresh0|exact I].
  - rewrite balance_app. cbn. lia.
  - rewrite errors_app. cbn. now rewrite app_nil_r.
  - intros q. destruct (decide (q = p)) as [->|Hne].
    + unfold pending. cbn. rewrite lookup_insert_eq. split; [discriminate|].
      intros (_ & H & _). exfalso. apply H. apply fulfilled_snoc. now right.
    + rewrite unsettled_snoc; [|cbn; congruence|discriminate].
      rewrite <- (inv_promise0 q). unfold pending. cbn.
      now rewrite lookup_insert_ne by congruence.
  - intros x H. rewrite List.Forall_forall in Hr. apply Hr in H.
    destruct x; [exact I|discriminate..].
Qed.

Lemma Inv_reject p e st :
  Inv st -> ready st = [] ->
  awaitingTick p (trace st) -> ~ In p (pubIds (immediates st)) ->
  Inv (reject p e st).
Proof.
  intros Hinv Hrd (Hc & Hs & Hr & Hf) Hp. unfold reject. apply Inv_wake.
  destruct Hinv. constructor; fields; try assumption.
  - constructor; [assumption|]. cbn. auto.
  - intros q t a H. apply awaitingTick_snoc; [|now apply (inv_pub0 q t a)].
    cbn. intros ->. apply Hp. apply In_pubIds. eauto.
  - intros q m t a H. apply dispatching_snoc; [discriminate|].
    now apply (inv_wrapper0 q m t a).
  - intros q l s H Hl. apply In_snoc in H as [H|H]; [|discriminate].
    destruct (inv_selected0 q l s H Hl) as [Hi|Hw]; [|now right].
    left. apply invoked_snoc. now left.
  - intros s H. destruct (inv_registry0 s H) as [H1 H2].
    split; [apply In_snoc; now left|exact H2].
  - intros x H. apply In_snoc in H as [H| ->]; [now apply inv_fresh0|exact I].
  - rewrite balance_app. cbn. lia.
  - rewrite errors_app. cbn. now rewrite app_nil_r.
  - intros q. destruct (decide (q = p)) as [->|Hne].
    + unfold pending. cbn. rewrite lookup_insert_eq. split; [discriminate|].
      intros (_ & _ & H & _). exfalso. apply H. apply rejected_snoc. now right.
    + rewrite unsettled_snoc; [|cbn; congruence|discriminate].
      rewrite <- (inv_promise0 q). unfold pending. cbn.
      now rewrite lookup_insert_ne by congruence.
  - rewrite Hrd. intros x [].
Qed.

Lemma Inv_rethrow p e st :
  Inv st -> Due st (JPub p (Some e)) ->
  Forall (fun x => ofBus x = false) (ready st) ->
  Inv (rethrow p e st).
Proof.
  intros Hinv (Hpend & s & Hs) Hr. unfold rethrow. apply Inv_wake.
  destruct Hinv. apply inv_promise0 in Hpend as Hp. destruct Hp as (Hc & Hf & Hrj & Hx).
  assert (Hsel : selected p (trace st)).
  { apply (selected_of_invoked p s); [assumption|].
    eapply invoked_of_thrown; eassumption. }
  constructor; fields; try assumption.
  - constructor; [assumption|]. cbn. eauto.
  - intros q t a H. apply awaitingTick_snoc; [|now apply (inv_pub0 q t a)].
    cbn. intros ->. apply inv_pub0 in H as (_ & Hns & _). contradiction.
  - intros q m t a H. apply dispatching_snoc; [discriminate|].
    now apply (inv_wrapper0 q m t a).
  - intros q l x H Hl. apply In_snoc in H as [H|H]; [|discriminate].
    destruct (inv_selected0 q l x H Hl) as [Hi|Hw]; [|now right].
    left. apply invoked_snoc. now left.
  - intros x H. destruct (inv_registry0 x H) as [H1 H2].
    split; [apply In_snoc; now left|exact H2].
  - intros x H. apply In_snoc in H as [H| ->]; [now apply inv_fresh0|exact I].
  - rewrite balance_app. cbn. lia.
  - rewrite errors_app. cbn. now rewrite app_nil_r.
  - intros q. destruct (decide (q = p)) as [->|Hne].
    + unfold pending. cbn. rewrite lookup_insert_eq. split; [discriminate|].
      intros (_ & _ & _ & H). exfalso. apply H. apply failed_snoc. right. eauto.
    + rewrite unsettled_snoc; [|cbn; congruence|discriminate].
      rewrite <- (inv_promise0 q). unfold pending. cbn.
      now rewrite lookup_insert_ne by congruence.
  - intros x H. rewrite List.Forall_forall in Hr. apply Hr in H.
    destruct x; [exact I|discriminate..].
Qed.

(** ** The event loop *)

Lemma all_invoked p l st :
  Inv st -> allDone p st = true -> In (EvSelect p l) (trace st) ->
  forall s, In s l -> invoked p s (trace st).
Proof.
  intros Hinv Hdone Hl s Hs.
  destruct (inv_selected _ Hinv p l s Hl Hs) as [Hi|(m & t & a & Hin & _)];
    [exact Hi|]. now apply allDone_spec in Hin.
Qed.

Lemma Inv_runTask t rest st :
  Inv st -> ready st = [] -> immediates st = t :: rest ->
  Inv (runTask RegExp test t (setImmediates rest st)).
Proof.
  intros Hinv Hr Hq. destruct t as [p topic args|p m topic args|c k].
  - destruct (Inv_pop_pub _ _ _ _ _ Hinv Hr Hq) as (Hinv0 & Haw & Hp).
    cbn [runTask].
    destruct (filterSubs RegExp test topic (setImmediates rest st)) as [ms|e] eqn:Hms.
    + rewrite enqueue_wrappers.
      pose proof (Inv_select p topic args ms _ Hinv0 Hr Haw Hp Hms) as Hinv1.
      fold (sids ms).
      destruct (allDone p _) eqn:Hdone; [|exact Hinv1].
      apply Inv_enqueue_bus; [exact Hinv1| |cbn; rewrite Hr; constructor].
      destruct Haw as (Hc & Hs & Hrj & Hf).
      split; [|split; [exact Hdone|]].
      * apply (inv_promise _ Hinv1). cbn [trace emit setImmediates].
        rewrite called_snoc, fulfilled_snoc, rejected_snoc, failed_snoc.
        split; [now left|]. repeat split.
        -- intros [H|H]; [contradiction|discriminate].
        -- intros [H|H]; [contradiction|discriminate].
        -- intros [H|[err H]]; [|discriminate].
           apply Hs. apply selected_of_failed; [apply (inv_history _ Hinv)|exact H].
      * exists (sids ms).
        assert (Hl : In (EvSelect p (sids ms))
                       (trace (setImmediates
                                 (immediates (emit (EvSelect p (sids ms)) (setImmediates rest st)) ++
                                  wrappers p topic args ms)
                                 (emit (EvSelect p (sids ms)) (setImmediates rest st)))))
          by (cbn; apply In_snoc; now right).
        split; [exact Hl|]. now apply all_invoked.
    + now apply Inv_reject.
  - cbn [runTask].
    destruct (Inv_pop_wrapper p m topic args rest st (fullArgs m topic args) Hinv Hr Hq)
      as (Hinv0 & Hnf & l & Hl & Hs).
    set (st0 := emit _ (setImmediates rest st)) in *.
    pose proof (Inv_exec (isAsync (handler (subscription m)))
                  (CHandler p (sid (subscription m)))
                  (body (handler (subscription m)) (fullArgs m topic args))
                  st0 Hinv0) as Hinv1.
    destruct (exec_trace (isAsync (handler (subscription m)))
                (CHandler p (sid (subscription m)))
                (body (handler (subscription m)) (fullArgs m topic args)) st0)
      as (evs & Htr & Hevs).
    assert (Hrd : Forall (fun x => ofBus x = false)
                    (ready (exec RegExp test (isAsync (handler (subscription m)))
                              (CHandler p (sid (subscription m)))
                              (body (handler (subscription m)) (fullArgs m topic args))
                              st0).1)).
    { apply exec_ready_bus. unfold st0. cbn. rewrite Hr. constructor. }
    destruct (exec _ _ _ _ _ st0) as [st1 [e|]]; cbn [fst] in *.
    + apply Inv_enqueue_bus; [| |exact Hrd].
      * apply Inv_emit_throw; [exact Hinv1|]. rewrite Htr.
        exists (fullArgs m topic args). apply in_app_iff. left.
        unfold st0. cbn. apply In_snoc. now right.
      * split.
        -- exists l. cbn. apply In_snoc. left. rewrite Htr.
           apply in_app_iff. left. unfold st0. cbn. apply In_snoc. now left.
        -- exists (sid (subscription m)). cbn. apply In_snoc. now right.
    + apply Inv_enqueue_bus.
      * destruct (once _); [now apply Inv_deleteSubscription|exact Hinv1].
      * split; [|exact I]. exists l.
        replace (trace (if once (subscription m)
                        then deleteSubscription (sid (subscription m)) st1 else st1))
          with (trace st1) by (destruct (once _); reflexivity).
        rewrite Htr. apply in_app_iff. left. unfold st0. cbn. apply In_snoc. now left.
      * destruct (once _); exact Hrd.
  - cbn [runTask]. apply Inv_resume. eapply Inv_pop_prog; eassumption.
Qed.

Lemma Inv_runJob j rest st :
  Inv st -> ready st = j :: rest -> Inv (runJob RegExp test j (setReady rest st)).
Proof.
  intros Hinv Hq.
  destruct (Inv_pop_job j rest st Hinv Hq) as (Hinv0 & Hdue & Hbus).
  destruct j as [c k|p [e|]|p [e|]]; cbn [runJob].
  - now apply Inv_resume.
  - destruct (pending p _) eqn:Hp; [|exact Hinv0].
    apply Inv_enqueue_bus; [exact Hinv0| |now apply Hbus].
    destruct Hdue as (_ & s & Hs). split; [exact Hp|]. now exists s.
  - destruct (allDone p _ && pending p _) eqn:Hp; [|exact Hinv0].
    apply andb_true_iff in Hp as [Hd Hp].
    apply Inv_enqueue_bus; [exact Hinv0| |now apply Hbus].
    destruct Hdue as ([l Hl] & _). split; [exact Hp|]. split; [exact Hd|].
    exists l. split; [exact Hl|]. now apply (all_invoked p l _ Hinv0 Hd).
  - apply Inv_rethrow; [exact Hinv0|exact Hdue|now apply Hbus].
  - apply Inv_finish; [exact Hinv0|exact Hdue|now apply Hbus].
Qed.

Lemma Inv_step st st' : Inv st -> step RegExp test st = Some st' -> Inv st'.
Proof.
  intros Hinv H. unfold step in H.
  destruct (ready st) as [|j rest] eqn:Hr.
  - destruct (immediates st) as [|t rest] eqn:Hq; [discriminate|].
    inversion H; subst. now apply Inv_runTask.
  - inversion H; subst. now apply Inv_runJob.
Qed.

Lemma Inv_run n st : Inv st -> Inv (run RegExp test n st).
Proof.
  revert st. induction n as [|n IH]; intros st Hinv; [exact Hinv|].
  cbn. destruct (step RegExp test st) as [st'|] eqn:Hs; [|exact Hinv].
  apply IH. eapply Inv_step; eassumption.
Qed.

(** The invariant holds in every state of every process. *)
Lemma Inv_reachable main n : Inv (run RegExp test n (boot RegExp test 0 main)).
Proof. apply Inv_run. unfold boot. apply Inv_resume, Inv_init. Qed.

End Loop.

End InvariantFacts.

Section BusClaims.

Import BasePubSub History.

(** ** The claims on the dispatcher *)

Lemma sub_unique s pre post :
  WellFormed (pre ++ post) -> In (EvSub s) pre -> ~ In (EvSub s) post.
Proof.
  intros Hwf Hpre Hpost. apply in_split in Hpost as (post1 & post2 & ->).
  rewrite app_assoc in Hwf. apply WellFormed_allowed in Hwf. cbn in Hwf.
  apply Hwf. apply in_app_iff. now left.
Qed.

Section Claims.

Context {regex : Type}.
Variable RegExp : string -> string -> result regex.
Variable test : regex -> string -> bool.

Local Abbreviation process n main := (run RegExp test n (boot RegExp test 0 main)).

(** C1, as amended.  In every process, the promise returned by [pub] is
    fulfilled, and the counter decremented, only after the handler of
    every subscription selected for the publication has been invoked. *)
Theorem pub_fulfilled_after_dispatch (main : prog) (n p : nat)
    (pre post : list Event) :
  trace (process n main) = pre ++ EvFulfil p :: post ->
  exists l, In (EvSelect p l) pre /\ forall s, In s l -> invoked p s pre.
Proof.
  intros H. pose proof (inv_history _ (Inv_reachable RegExp test main n)) as Hwf.
  rewrite H in Hwf. apply WellFormed_allowed in Hwf.
  destruct Hwf as (_ & _ & Hl & _). exact Hl.
Qed.

(** C3, as amended.  A handler is invoked for a publication only if its
    subscription was selected when [pub] resumed after its first tick,
    having been registered before that moment and not after; the
    subscriptions selected are those registered at that moment that
    match; and all of them have been invoked when the publication is
    fulfilled. *)
Theorem delivery_follows_snapshot (main : prog) (n : nat) :
  (forall p s a, In (EvInvoke p s a) (trace (process n main)) ->
     exists pre l post,
       trace (process n main) = pre ++ EvSelect p l :: post /\
       In s l /\ In (EvSub s) pre /\ ~ In (EvSub s) post /\
       In (EvInvoke p s a) post) /\
  (forall st p topic args ms,
     filterSubs RegExp test topic st = Ok ms ->
     In (EvSelect p (sids ms)) (trace (runTask RegExp test (TPub p topic args) st)) /\
     forall m, In m ms <->
       In (subscription m) (subscriptions st) /\ match_ m = true /\
       matchSubscription RegExp test topic (subscription m) = Ok m) /\
  (forall pre p post,
     trace (process n main) = pre ++ EvFulfil p :: post ->
     exists l, In (EvSelect p l) pre /\ forall s, In s l -> invoked p s pre).
Proof.
  pose proof (inv_history _ (Inv_reachable RegExp test main n)) as Hwf.
  split; [|split].
  - intros p s a Hin. apply in_split in Hin as (pre0 & post0 & Htr).
    rewrite Htr in Hwf. pose proof (WellFormed_allowed _ _ _ Hwf) as (l & Hl & Hs).
    apply in_split in Hl as (pre & mid & ->).
    exists pre, l, (mid ++ EvInvoke p s a :: post0).
    rewrite Htr, <- app_assoc. cbn [app]. split; [reflexivity|].
    rewrite <- app_assoc in Hwf. cbn [app] in Hwf.
    pose proof (WellFormed_allowed _ _ _ Hwf) as (_ & _ & _ & _ & Hsub).
    repeat split; auto.
    + replace (pre ++ EvSelect p l :: mid ++ EvInvoke p s a :: post0)
        with (pre ++ (EvSelect p l :: mid ++ EvInvoke p s a :: post0)) in Hwf
        by reflexivity.
      intros H. eapply (sub_unique s pre); [exact Hwf|now apply Hsub|now right].
    + apply in_app_iff. right. now left.
  - intros st p topic args ms Hms. split.
    + cbn [runTask]. rewrite Hms, enqueue_wrappers. fold (sids ms).
      assert (H : In (EvSelect p (sids ms))
                    (trace (setImmediates
                              (immediates (emit (EvSelect p (sids ms)) st) ++
                               wrappers p topic args ms)
                              (emit (EvSelect p (sids ms)) st))))
        by (cbn; apply In_snoc; now right).
      destruct (allDone p _); exact H.
    + intros m. split.
      * now apply filterSubs_sound.
      * intros (Hs & Hm & Hok). eapply filterSubs_complete; eassumption.
  - intros pre p post H. rewrite H in Hwf. apply WellFormed_allowed in Hwf.
    destruct Hwf as (_ & _ & Hl & _). exact Hl.
Qed.

(** In no state of any process does the memo of a subscription hold an
    entry. *)
Lemma memo_never_written (main : prog) (n : nat) (s : Subscription) :
  In s (subscriptions (process n main)) -> matchedTopics s = ∅.
Proof.
  intros H. now apply (inv_registry _ (Inv_reachable RegExp test main n)).
Qed.

End Claims.

(** C5, as amended.  The mapping passed to a handler holds the topic as
    it was published under [topic], the wildcard captures under [_], and
    under any other key the captured parameter of that name if there is
    one, else the caller's value; in scenario 7 the handler receives the
    topic [/arg/A/B/C/D], the captures in lower case and the caller's
    [test5]. *)
Theorem fullArgs_precedence :
  (forall (m : SubscriptionMatch) (topic : string) (args : Args),
     fullArgs m topic args !! "topic" = Some (JSString topic) /\
     fullArgs m topic args !! "_" = Some (JSStrings (default [] (wildcard m))) /\
     forall key, key <> "topic" -> key <> "_" ->
       fullArgs m topic args !! key =
       match default ∅ (params m) !! key with
       | Some v => Some v
       | None => args !! key
       end) /\
  In (EvInvoke 1 0 Examples.received7) (trace (es_process 2 Examples.argPrecedence)).
Proof.
  split.
  - intros m topic args. unfold fullArgs. split; [|split].
    + apply lookup_insert_eq.
    + rewrite lookup_insert_ne by discriminate. apply lookup_insert_eq.
    + intros key H1 H2. rewrite !lookup_insert_ne by congruence.
      rewrite lookup_union.
      destruct (default ∅ (params m) !! key); destruct (args !! key); reflexivity.
  - vm_compute. do 3 right. left. reflexivity.
Qed.

End BusClaims.

Section Processes.

Import BasePubSub History Examples.

(** ** The claims on concrete processes *)

(** The promise of the publication is fulfilled, and the counter back at
    zero, while the handler still awaits its tick: the handler settles
    afterwards. *)
Lemma pub_fulfilled_before_handler_settles :
  let a : Args := <["topic" := JSString "/t"]> {[ "_" := JSStrings [] ]} in
  trace (es_process 4 slowHandler) =
    [EvSub 0; EvCall 1; EvSelect 1 [0%nat]; EvInvoke 1 0 a; EvFulfil 1] /\
  _inflightCount (es_process 4 slowHandler) = 0 /\
  promises (es_process 4 slowHandler) !! 1%nat = Some Fulfilled /\
  immediates (es_process 4 slowHandler) = [TProg (CHandler 1 0) Return] /\
  trace (es_process 5 slowHandler) =
    [EvSub 0; EvCall 1; EvSelect 1 [0%nat]; EvInvoke 1 0 a; EvFulfil 1;
     EvSettle 1 0 None].
Proof. repeat split; vm_compute; reflexivity. Qed.

Lemma pub_fulfilled_after_dispatch_witness :
  exists l, In (EvSelect 1 l) (firstn 4 (trace (es_process 4 slowHandler))) /\
            forall s, In s l ->
                      invoked 1 s (firstn 4 (trace (es_process 4 slowHandler))).
Proof.
  apply (pub_fulfilled_after_dispatch EsRegExp.RegExp EsRegExp.test slowHandler 4 1
           (firstn 4 (trace (es_process 4 slowHandler)))
           (skipn 5 (trace (es_process 4 slowHandler)))).
  vm_compute. reflexivity.
Defined.

(** A subscription added right after the call of [pub], before the
    caller yields, receives the publication. *)
Lemma late_subscriber_is_delivered :
  trace (es_boot lateSubscriber) = [EvCall 0; EvSub 1] /\
  invoked 0 1 (trace (es_process 2 lateSubscriber)).
Proof.
  split; [reflexivity|].
  exists (<["topic" := JSString "/t"]> {[ "_" := JSStrings [] ]}).
  vm_compute. do 3 right. left. reflexivity.
Qed.

Lemma delivery_follows_snapshot_witness :
  exists pre l post,
    trace (es_process 2 lateSubscriber) = pre ++ EvSelect 0 l :: post /\
    In 1%nat l /\ In (EvSub 1) pre /\ ~ In (EvSub 1) post.
Proof.
  destruct (delivery_follows_snapshot EsRegExp.RegExp EsRegExp.test lateSubscriber 2)
    as (H & _).
  destruct (H 0%nat 1%nat (<["topic" := JSString "/t"]> {[ "_" := JSStrings [] ]}))
    as (pre & l & post & Htr & Hl & Hpre & Hpost & _).
  - vm_compute. do 3 right. left. reflexivity.
  - exists pre, l, post. auto.
Defined.

(** C4.  Two overlapping publications both invoke the handler of a
    subscription made with [once = true], against the claim; two
    publications in sequence invoke it once. *)
Theorem once_handler_fires_twice :
  invocations 0 (trace (es_process 8 onceOverlapping)) = 2%nat /\
  invocations 0 (trace (es_process 8 onceSequential)) = 1%nat.
Proof. split; vm_compute; reflexivity. Qed.

(** In scenario 7 the handler receives the topic as published, not in
    lower case. *)
Lemma published_topic_not_normalized :
  In (EvInvoke 1 0 received7) (trace (es_process 2 argPrecedence)) /\
  received7 !! "topic" = Some (JSString "/arg/A/B/C/D") /\
  received7 !! "topic" <> Some (JSString "/arg/a/b/c/d").
Proof.
  split; [vm_compute; do 3 right; left; reflexivity|].
  split; [reflexivity|]. vm_compute. discriminate.
Qed.

(** A captured parameter replaces the caller's value of the same key. *)
Lemma fullArgs_precedence_witness :
  fullArgs (mkSubscriptionMatch
              (mkSubscription 0 "/:id" (BasePathMatcher.mk [] "/:id" false) quick false ∅)
              true (Some {[ "id" := JSString "a" ]}) (Some []))
           "/A" {[ "id" := JSString "mine" ]} !! "id" = Some (JSString "a").
Proof.
  destruct fullArgs_precedence as [H _].
  destruct (H (mkSubscriptionMatch
                 (mkSubscription 0 "/:id" (BasePathMatcher.mk [] "/:id" false) quick false ∅)
                 true (Some {[ "id" := JSString "a" ]}) (Some []))
              "/A" {[ "id" := JSString "mine" ]}) as (_ & _ & Hkey).
  rewrite (Hkey "id"); [reflexivity|discriminate|discriminate].
Defined.

(** C6.  After two publications of a topic that the subscription
    matches, its memo is still empty, against the claim: both
    publications went through the matcher. *)
Theorem memo_stays_empty :
  List.map matchedTopics (subscriptions (es_process 10 samePublicationTwice)) = [∅] /\
  invocations 0 (trace (es_process 10 samePublicationTwice)) = 2%nat.
Proof. split; vm_compute; reflexivity. Qed.

(** C7.  The first handler of scenario 9 throws [Handler error].  When
    it is an async function the error is printed, the second handler runs
    and the promise of the publication is fulfilled, as the claim says.
    When it is not, against the claim, the exception escapes the
    callback of [pub]: nothing is printed, the promise of the
    publication is rejected with the error and the counter stays at 1;
    the second handler runs all the same.  Both processes have come to
    rest. *)
Theorem thrown_exception_escapes_pub :
  (step EsRegExp.RegExp EsRegExp.test (es_process 7 failureIsolation) = None /\
   console (es_process 7 failureIsolation) = [UserError "Handler error"] /\
   promises (es_process 7 failureIsolation) !! 2%nat = Some Fulfilled /\
   _inflightCount (es_process 7 failureIsolation) = 0 /\
   invoked 2 1 (trace (es_process 7 failureIsolation))) /\
  (step EsRegExp.RegExp EsRegExp.test (es_process 7 throwIsolation) = None /\
   console (es_process 7 throwIsolation) = [] /\
   promises (es_process 7 throwIsolation) !! 2%nat =
     Some (Rejected (UserError "Handler error")) /\
   _inflightCount (es_process 7 throwIsolation) = 1 /\
   invoked 2 1 (trace (es_process 7 throwIsolation))).
Proof.
  split; (split; [vm_compute; reflexivity|]); (split; [vm_compute; reflexivity|]);
    (split; [vm_compute; reflexivity|]); (split; [vm_compute; reflexivity|]);
    exists (<["topic" := JSString "/error/test"]> {[ "_" := JSStrings [] ]}).
  - vm_compute. do 6 right. left. reflexivity.
  - vm_compute. do 7 right. left. reflexivity.
Qed.

(** Scenario 10: the counter reads 2 between two publications issued
    together, and 0 once both are fulfilled. *)
Example twoPublications_counter :
  _inflightCount (es_boot twoPublications) = 2 /\
  inProgress (trace (es_boot twoPublications)) = [0%nat; 1%nat] /\
  _inflightCount (es_process 6 twoPublications) = 0.
Proof. repeat split; vm_compute; reflexivity. Qed.

End Processes.

(** ** Normal forms of paths *)

Section NormalFormFacts.

Import BasePathMatcher.

(** ** Lower case and trimming *)

Lemma toLowerCaseChar_idem c :
  Str.toLowerCaseChar (Str.toLowerCaseChar c) = Str.toLowerCaseChar c.
Proof. destruct c as [[] [] [] [] [] [] [] []]; reflexivity. Qed.

Lemma toLowerCase_idem s : Str.toLowerCase (Str.toLowerCase s) = Str.toLowerCase s.
Proof.
  induction s as [|c s IH]; [reflexivity|].
  cbn. now rewrite toLowerCaseChar_idem, IH.
Qed.

Lemma toLowerCase_app a b :
  Str.toLowerCase (a +:+ b) = Str.toLowerCase a +:+ Str.toLowerCase b.
Proof.
  induction a as [|c a IH]; [reflexivity|].
  change (String c a +:+ b) with (String c (a +:+ b)). cbn. now rewrite IH.
Qed.

Lemma toLowerCase_cons c s :
  Str.toLowerCase (String c s) = String c s <->
  Str.toLowerCaseChar c = c /\ Str.toLowerCase s = s.
Proof.
  cbn. split.
  - intros H. now inversion H as [[Hc Hs]]; rewrite Hc, Hs.
  - intros [-> ->]. reflexivity.
Qed.

Lemma trimStart_lower s :
  Str.toLowerCase s = s -> Str.toLowerCase (Str.trimStart s) = Str.trimStart s.
Proof.
  induction s as [|c s IH]; [reflexivity|].
  intros H. cbn [Str.trimStart].
  destruct (Str.isWhiteSpace c); [|exact H].
  apply IH. now apply toLowerCase_cons in H.
Qed.

Lemma trimEnd_lower s :
  Str.toLowerCase s = s -> Str.toLowerCase (Str.trimEnd s) = Str.trimEnd s.
Proof.
  induction s as [|c s IH]; [reflexivity|].
  intros H. apply toLowerCase_cons in H as [Hc Hs].
  cbn [Str.trimEnd]. specialize (IH Hs).
  destruct (Str.trimEnd s) as [|d r].
  - destruct (Str.isWhiteSpace c); [reflexivity|].
    apply toLowerCase_cons. now split.
  - apply toLowerCase_cons. now split.
Qed.

Lemma trim_lower s :
  Str.toLowerCase s = s -> Str.toLowerCase (Str.trim s) = Str.trim s.
Proof. intros H. apply trimStart_lower, trimEnd_lower, H. Qed.

Lemma trimStart_includes c s :
  Str.includes c s = false -> Str.includes c (Str.trimStart s) = false.
Proof.
  induction s as [|a s IH]; [reflexivity|].
  intros H. cbn [Str.trimStart].
  destruct (Str.isWhiteSpace a); [|exact H].
  apply IH. cbn in H. now apply orb_false_iff in H.
Qed.

Lemma trimEnd_includes c s :
  Str.includes c s = false -> Str.includes c (Str.trimEnd s) = false.
Proof.
  induction s as [|a s IH]; [reflexivity|].
  intros H. cbn in H. apply orb_false_iff in H as [Ha Hs].
  cbn [Str.trimEnd]. specialize (IH Hs).
  destruct (Str.trimEnd s) as [|d r].
  - destruct (Str.isWhiteSpace a); [reflexivity|].
    cbn. now rewrite Ha.
  - change (Ascii.eqb a c || Str.includes c (String d r) = false).
    now rewrite Ha, IH.
Qed.

Lemma trimEnd_idem s : Str.trimEnd (Str.trimEnd s) = Str.trimEnd s.
Proof.
  induction s as [|c s IH]; [reflexivity|].
  cbn [Str.trimEnd]. destruct (Str.trimEnd s) as [|d r] eqn:E.
  - destruct (Str.isWhiteSpace c) eqn:W; [reflexivity|].
    cbn. now rewrite W.
  - cbn [Str.trimEnd]. cbn [Str.trimEnd] in IH. now rewrite IH.
Qed.

Lemma trimStart_idem s : Str.trimStart (Str.trimStart s) = Str.trimStart s.
Proof.
  induction s as [|c s IH]; [reflexivity|].
  cbn [Str.trimStart]. destruct (Str.isWhiteSpace c) eqn:W; [exact IH|].
  cbn. now rewrite W.
Qed.

Lemma trimEnd_trimStart t :
  Str.trimEnd t = t -> Str.trimEnd (Str.trimStart t) = Str.trimStart t.
Proof.
  induction t as [|c t IH]; [reflexivity|].
  intros H. cbn [Str.trimStart].
  destruct (Str.isWhiteSpace c) eqn:W; [|exact H].
  apply IH. cbn [Str.trimEnd] in H. rewrite W in H.
  destruct (Str.trimEnd t) as [|d r]; [discriminate|].
  now inversion H.
Qed.

Lemma trim_idem s : Str.trim (Str.trim s) = Str.trim s.
Proof.
  unfold Str.trim.
  rewrite (trimEnd_trimStart (Str.trimEnd s) (trimEnd_idem s)).
  apply trimStart_idem.
Qed.

(** ** Splitting what was joined *)

Lemma split_pieces sep s :
  Forall (fun x => Str.includes sep x = false) (Str.split sep s).
Proof.
  induction s as [|c s IH]; [repeat constructor|].
  cbn [Str.split]. destruct (Ascii.eqb c sep) eqn:E.
  - constructor; [reflexivity|exact IH].
  - destruct (Str.split sep s) as [|h t]; inversion IH; subst.
    + repeat constructor. cbn. now rewrite E.
    + constructor; [|assumption]. cbn. now rewrite E.
Qed.

Lemma split_lower sep s :
  Str.toLowerCase s = s ->
  Forall (fun x => Str.toLowerCase x = x) (Str.split sep s).
Proof.
  induction s as [|c s IH]; [repeat constructor|].
  intros H. apply toLowerCase_cons in H as [Hc Hs]. specialize (IH Hs).
  cbn [Str.split]. destruct (Ascii.eqb c sep).
  - constructor; [reflexivity|exact IH].
  - destruct (Str.split sep s) as [|h t]; inversion IH; subst.
    + repeat constructor. now apply toLowerCase_cons.
    + constructor; [|assumption]. now apply toLowerCase_cons.
Qed.

Lemma split_whole sep x : Str.includes sep x = false -> Str.split sep x = [x].
Proof.
  induction x as [|c x IH]; [reflexivity|].
  cbn. intros H. apply orb_false_iff in H as [Hc Hx].
  rewrite Hc, (IH Hx). reflexivity.
Qed.

Lemma split_app sep x r :
  Str.includes sep x = false ->
  Str.split sep (x +:+ String sep r) = x :: Str.split sep r.
Proof.
  induction x as [|c x IH].
  - intros _. change ("" +:+ String sep r) with (String sep r).
    cbn. now rewrite Ascii.eqb_refl.
  - cbn [Str.includes]. intros H. apply orb_false_iff in H as [Hc Hx].
    change (String c x +:+ String sep r) with (String c (x +:+ String sep r)).
    cbn [Str.split]. now rewrite Hc, (IH Hx).
Qed.

Lemma split_join sep l :
  l <> [] -> Forall (fun x => Str.includes sep x = false) l ->
  Str.split sep (Str.join sep l) = l.
Proof.
  induction l as [|x l IH]; [congruence|].
  intros _ H. inversion H as [|? ? Hx Hl]; subst.
  destruct l as [|y l].
  - now apply split_whole.
  - rewrite join_cons, (split_app _ _ _ Hx). f_equal. now apply IH.
Qed.

(** ** The fragments of a path *)

(** The fragments that [normalizePath] joins. *)
Local Abbreviation fragments path :=
  (List.filter Str.truthy
     (List.map Str.trim (Str.split "/" (Str.toLowerCase path)))).

Lemma fragments_clean path : Forall cleanSegment (fragments path).
Proof.
  apply List.Forall_forall. intros x Hx.
  apply List.filter_In in Hx as [Hx Ht].
  apply List.in_map_iff in Hx as (y & <- & Hy).
  pose proof (split_pieces "/" (Str.toLowerCase path)) as Hs.
  pose proof (split_lower "/" _ (toLowerCase_idem path)) as Hl.
  rewrite List.Forall_forall in Hs, Hl.
  repeat split.
  - intros E. now rewrite E in Ht.
  - apply trim_idem.
  - apply trim_lower, Hl, Hy.
  - apply trimStart_includes, trimEnd_includes, Hs, Hy.
Qed.

Lemma join_lower sep l :
  Str.toLowerCaseChar sep = sep ->
  Forall (fun x => Str.toLowerCase x = x) l ->
  Str.toLowerCase (Str.join sep l) = Str.join sep l.
Proof.
  intros Hsep. induction l as [|x l IH]; [reflexivity|].
  intros H. inversion H as [|? ? Hx Hl]; subst.
  destruct l as [|y l]; [exact Hx|].
  rewrite join_cons, toLowerCase_app. cbn [Str.toLowerCase].
  now rewrite Hx, Hsep, (IH Hl).
Qed.

Lemma getSegments_fragments path :
  getSegments path =
  match fragments path with
  | [] => [""]
  | l => l
  end.
Proof.
  unfold getSegments, normalizePath.
  pose proof (fragments_clean path) as Hc.
  set (l := fragments path) in *.
  change (Str.split "/" ("/" +:+ Str.join "/" l))
    with ("" :: Str.split "/" (Str.join "/" l)).
  cbn [drop]. rewrite drop_0.
  destruct l as [|x l]; [reflexivity|].
  apply split_join; [discriminate|].
  eapply Forall_impl; [exact Hc|]. intros y Hy. apply Hy.
Qed.

Lemma normalizePath_root path :
  normalizePath path = "/" <-> fragments path = [].
Proof.
  unfold normalizePath. pose proof (fragments_clean path) as Hc.
  set (l := fragments path) in *. split.
  - destruct l as [|x l]; [reflexivity|]. intros H.
    inversion Hc as [|? ? Hx _]; subst. destruct Hx as (Hx & _).
    destruct l as [|y l].
    + cbn in H. inversion H. contradiction.
    + rewrite join_cons in H. cbn in H. inversion H as [E].
      destruct x; [contradiction|discriminate].
  - intros ->. reflexivity.
Qed.

Lemma filter_clean l :
  Forall cleanSegment l ->
  List.filter Str.truthy (List.map Str.trim l) = l.
Proof.
  induction 1 as [|x l (Hne & Ht & _) _ IH]; [reflexivity|].
  cbn. rewrite Ht, IH. destruct x; [contradiction|reflexivity].
Qed.

Lemma fragments_normalizePath path :
  fragments (normalizePath path) = fragments path.
Proof.
  pose proof (fragments_clean path) as Hc.
  unfold normalizePath at 1.
  set (l := fragments path) in *.
  assert (Hlow : Str.toLowerCase ("/" +:+ Str.join "/" l) = "/" +:+ Str.join "/" l).
  { rewrite toLowerCase_app. f_equal. apply join_lower; [reflexivity|].
    eapply Forall_impl; [exact Hc|]. intros y Hy. apply Hy. }
  rewrite Hlow.
  change (Str.split "/" ("/" +:+ Str.join "/" l))
    with ("" :: Str.split "/" (Str.join "/" l)).
  destruct l as [|x l]; [reflexivity|].
  rewrite split_join; [|discriminate|].
  - change (List.filter Str.truthy (List.map Str.trim (x :: l)) = x :: l).
    now apply filter_clean.
  - eapply Forall_impl; [exact Hc|]. intros y Hy. apply Hy.
Qed.

Lemma getSegments_normalizePath path :
  getSegments (normalizePath path) = getSegments path.
Proof.
  unfold getSegments. unfold normalizePath at 1.
  now rewrite fragments_normalizePath.
Qed.

Lemma getSegments_no_slash path x :
  In x (getSegments path) -> Str.includes "/" x = false.
Proof.
  rewrite getSegments_fragments. pose proof (fragments_clean path) as Hc.
  destruct (fragments path) as [|y l].
  - intros [<-|[]]. reflexivity.
  - rewrite List.Forall_forall in Hc. intros Hx. now apply Hc.
Qed.

Lemma getSegments_nonempty path : getSegments path <> [].
Proof.
  rewrite getSegments_fragments. destruct (fragments path); discriminate.
Qed.

(** X1.  [normalizePath] is idempotent: the normal form of a normal form is
    that normal form. *)
Theorem normalizePath_idempotent (path : string) :
  normalizePath (normalizePath path) = normalizePath path.
Proof.
  unfold normalizePath at 1. rewrite fragments_normalizePath. reflexivity.
Qed.

(** X2.  [getSegments] never returns the empty list.  For a path whose
    normal form is the root it returns one fragment, the empty string;
    for any other path every fragment it returns is not empty, trimmed,
    in lower case and without a slash. *)
Theorem getSegments_clean (path : string) :
  getSegments path <> [] /\
  ((normalizePath path = "/" /\ getSegments path = [""]) \/
   (normalizePath path <> "/" /\ Forall cleanSegment (getSegments path))).
Proof.
  split; [apply getSegments_nonempty|].
  rewrite getSegments_fragments.
  pose proof (fragments_clean path) as Hc.
  pose proof (normalizePath_root path) as Hr.
  destruct (fragments path) as [|x l] eqn:E.
  - left. split; [now apply Hr|reflexivity].
  - right. split; [|exact Hc]. intros H. apply Hr in H. discriminate.
Qed.

End NormalFormFacts.

(** ** The shape of parsed segments *)

Section SegmentShape.

Import PathSegment.

Ltac by_suffix H :=
  unfold applySuffix in H;
  repeat match type of H with
         | context [String.eqb ?s ?k] => destruct (String.eqb s k)
         end;
  cbn in H; inversion H; subst; clear H; cbn.

(** What [applySuffix] leaves alone, and what it sets. *)
Lemma applySuffix_fields suffix d d' :
  applySuffix suffix d = Ok d' ->
  segmentType d' = segmentType d /\ name d' = name d /\ range d' = range d /\
  (optional d = true -> optional d' = true) /\
  (single d = true -> single d' = true) /\
  (multi d = true -> multi d' = true) /\
  (multiString d = true -> multiString d' = true) /\
  (isVariable d = true ->
   optional d' || single d' || multi d' || multiString d' = true).
Proof.
  intros H. destruct d as [ty n r [] [] [] []], ty; by_suffix H; tauto.
Qed.

Lemma applySuffix_fresh suffix ty n r d' :
  applySuffix suffix (mkData ty n r false false false false) = Ok d' ->
  ty <> static ->
  (optional d', single d', multi d', multiString d') = (true, false, false, false) \/
  (optional d', single d', multi d', multiString d') = (false, true, false, false) \/
  (optional d', single d', multi d', multiString d') = (false, false, true, false) \/
  (optional d', single d', multi d', multiString d') = (false, false, false, true).
Proof.
  intros H Hty. destruct ty; [contradiction| |]; by_suffix H; tauto.
Qed.

Lemma parseParam_shape core d :
  parseParam core (setType param data0) = Ok d ->
  segmentType d = param /\
  (exists n, name d = Some n /\ Str.truthy n = true) /\ oneFlag d.
Proof.
  unfold parseParam. intros H.
  destruct (negb (Str.indexOf "[" core 0 =? -1)).
  - destruct (Str.truthy (Str.slice core 0 (Str.indexOf "[" core 0))) eqn:Hn;
      [|discriminate].
    cbn [negb] in H.
    destruct (Str.indexOf "]" core (Str.indexOf "[" core 0) =? -1); [discriminate|].
    pose proof (applySuffix_fields _ _ _ H) as (Ht & Hname & _).
    split; [exact Ht|]. split; [eexists; split; [exact Hname|exact Hn]|].
    eapply applySuffix_fresh; [exact H|discriminate].
  - assert (Hk : forall suffix nm,
               (let! d0 := applySuffix suffix (setType param data0) in
                let d1 := setName nm d0 in
                if negb (Str.truthy nm) then Throw (InvalidParamSyntax core)
                else Ok d1) = Ok d ->
               segmentType d = param /\
               (exists n, name d = Some n /\ Str.truthy n = true) /\ oneFlag d).
    { intros suffix nm Hd.
      destruct (applySuffix suffix (setType param data0)) as [d0|] eqn:Hs;
        [|discriminate].
      cbn [bind] in Hd. cbv zeta in Hd.
      destruct (Str.truthy nm) eqn:Hn; [|discriminate].
      cbn [negb] in Hd. inversion Hd; subst; clear Hd.
      pose proof (applySuffix_fields _ _ _ Hs) as (Ht & _).
      split; [exact Ht|]. split; [eexists; split; [reflexivity|exact Hn]|].
      exact (applySuffix_fresh _ _ _ _ _ Hs ltac:(discriminate)). }
    destruct (Str.endsWith "**" core); [exact (Hk _ _ H)|].
    destruct (Str.endsWith "+" core); [exact (Hk _ _ H)|].
    destruct (Str.endsWith "?" core); [exact (Hk _ _ H)|].
    destruct (Str.endsWith "*" core); exact (Hk _ _ H).
Qed.

Lemma parse_shape_of raw d :
  parse raw = Ok d ->
  match segmentType d with
  | static =>
      name d = None /\ range d = None /\
      (optional d, single d, multi d, multiString d) = (false, false, false, false)
  | param => (exists n, name d = Some n /\ n <> "") /\ oneFlag d
  | wildcard =>
      name d = None /\
      optional d || single d || multi d || multiString d = true
  end.
Proof.
  unfold parse. intros H.
  destruct (negb (Str.truthy (Str.trim raw))); [discriminate|].
  destruct (Str.startsWith ":" (Str.trim raw)).
  { destruct (parseParam_shape _ _ H) as (-> & (n & Hn & Ht) & Hf).
    split; [|exact Hf]. exists n. split; [exact Hn|].
    intros ->. discriminate. }
  destruct (wildcardWithRangeMatch (Str.trim raw)) as [[[sym rp] suffix]|].
  { destruct (String.eqb sym "*");
      [|destruct (String.eqb sym "**");
        [|destruct (String.eqb sym "+");
          [|destruct (String.eqb sym "?"); [|discriminate]]]];
      cbn [bind] in H;
      destruct (applySuffix_fields _ _ _ H) as (-> & -> & _ & _ & _ & _ & _ & Hv);
      (split; [reflexivity|apply Hv; reflexivity]). }
  destruct (isStandaloneWildcard (Str.trim raw)).
  { unfold parseStandaloneWildcard in H.
    repeat match type of H with
           | context [String.eqb ?s ?k] => destruct (String.eqb s k)
           end; inversion H; subst; cbn; auto. }
  destruct (bracketedRangeMatch (Str.trim raw)) as [[bp suffix]|].
  - destruct (applySuffix_fields _ _ _ H) as (-> & -> & _ & _ & _ & _ & _ & Hv).
    split; [reflexivity|apply Hv; reflexivity].
  - inversion H; subst. cbn. auto.
Qed.

(** X3.  Whatever [parse] accepts has one of three shapes: a static
    segment has no name, no class and no flag; a parameter has a name
    that is not empty and exactly one of the flags [optional], [single],
    [multi], [multiString]; a wildcard has no name and at least one flag. *)
Theorem parse_shape (raw : string) (d : PathSegmentData) :
  parse raw = Ok d ->
  match segmentType d with
  | static =>
      name d = None /\ range d = None /\
      (optional d, single d, multi d, multiString d) = (false, false, false, false)
  | param => (exists n, name d = Some n /\ n <> "") /\ oneFlag d
  | wildcard =>
      name d = None /\
      optional d || single d || multi d || multiString d = true
  end.
Proof. apply parse_shape_of. Qed.

Lemma parse_shape_witness :
  PathSegment.parse ":id[a-z0-9]+" =
    Ok (mkData param (Some "id") (Some "[a-z0-9]") false false false true) /\
  (exists n, Some "id" = Some n /\ n <> "") /\
  oneFlag (mkData param (Some "id") (Some "[a-z0-9]") false false false true).
Proof.
  split; [reflexivity|].
  exact (parse_shape ":id[a-z0-9]+"
           (mkData param (Some "id") (Some "[a-z0-9]") false false false true)
           eq_refl).
Defined.

(** X4.  On a segment that the constructor accepted, [getType] answers
    [static] exactly when the segment is neither a parameter nor a
    wildcard, and on a parameter it answers [optional], [single],
    [multi] or [multi-string] exactly when the accessor of that name is
    true. *)
Theorem getType_faithful (raw : string) (s : PathSegment.t) :
  PathSegment.new raw = Ok s ->
  (getType s = "static" <-> isParam s = false /\ isWildcard s = false) /\
  (isParam s = true ->
   (getType s = "optional" <-> isOptional s = true) /\
   (getType s = "single" <-> isSingle s = true) /\
   (getType s = "multi" <-> isMulti s = true) /\
   (getType s = "multi-string" <-> isMultiString s = true)).
Proof.
  unfold PathSegment.new. intros H.
  destruct (parse raw) as [d|] eqn:Hp; [|discriminate].
  cbn [bind] in H. inversion H; subst; clear H.
  pose proof (parse_shape_of _ _ Hp) as Hs.
  unfold getType, isParam, isWildcard, isOptional, isSingle, isMulti,
    isMultiString. cbn [data].
  destruct (segmentType d).
  - split; [tauto|discriminate].
  - destruct Hs as (_ & Hf). unfold oneFlag in Hf. cbv zeta in Hf.
    destruct (optional d), (single d), (multi d), (multiString d);
      destruct Hf as [Hf|[Hf|[Hf|Hf]]]; try discriminate Hf;
      (split; [split; [discriminate|intros [? _]; discriminate]|]);
      intros _; repeat split; (discriminate || reflexivity).
  - destruct Hs as (_ & Hf).
    split; [|discriminate].
    split; [|intros [_ ?]; discriminate].
    destruct (optional d), (single d), (multi d), (multiString d);
      try discriminate Hf; discriminate.
Qed.

Lemma getType_faithful_witness :
  PathSegment.new ":bar?" =
    Ok (PathSegment.mk ":bar?" (mkData param (Some "bar") None true false false false)) /\
  getType (PathSegment.mk ":bar?" (mkData param (Some "bar") None true false false false))
  = "optional".
Proof.
  split; [reflexivity|].
  destruct (getType_faithful ":bar?"
              (PathSegment.mk ":bar?" (mkData param (Some "bar") None true false false false))
              eq_refl) as [_ H].
  apply H; reflexivity.
Defined.

(** ** Segments written as the grammar has them *)

Lemma trimmed_param raw core d :
  Str.trim raw = ":" +:+ core ->
  parseParam core (setType param data0) = Ok d -> parse raw = Ok d.
Proof. intros Ht H. now rewrite (parse_param _ _ Ht). Qed.

Lemma indexOf_close nm body suffix :
  Str.includes "]" body = false ->
  Str.indexOf "]" (nm +:+ "[" +:+ body +:+ "]" +:+ suffix) (Str.len nm)
  = Str.len nm + 1 + Str.len body.
Proof.
  intros Hb. unfold Str.indexOf. rewrite indexOfAux_skip by lia.
  change ("[" +:+ body +:+ "]" +:+ suffix) with (String "[" (body +:+ "]" +:+ suffix)).
  cbn [Str.indexOfAux]. replace (Ascii.eqb "[" "]") with false by reflexivity.
  rewrite andb_false_r, indexOfAux_absent by exact Hb.
  change ("]" +:+ suffix) with (String "]" suffix).
  rewrite indexOfAux_here; pose proof (len_nonneg nm); pose proof (len_nonneg body); lia.
Qed.

(** X5.  A parameter with a class, [:name[body]suffix], where the name is
    not empty and has no opening bracket, the body has no closing
    bracket and the suffix is one of the five known ones, is accepted:
    it parses to a parameter of that name and class with the one flag of
    its suffix, the empty suffix and [*] both standing for [single]. *)
Theorem parse_bracket_param (raw nm body suffix : string) :
  Str.trim raw = ":" +:+ nm +:+ "[" +:+ body +:+ "]" +:+ suffix ->
  nm <> "" -> Str.includes "[" nm = false -> Str.includes "]" body = false ->
  knownSuffix suffix ->
  exists d,
    parse raw = Ok d /\ segmentType d = param /\ name d = Some nm /\
    range d = Some ("[" +:+ body +:+ "]") /\
    (optional d, single d, multi d, multiString d) = suffixFlags suffix.
Proof.
  intros Ht Hne Hn Hb Hs.
  rewrite (parse_param _ _ Ht), parseParam_bracket by exact Hn.
  destruct nm as [|c0 nm0] eqn:Enm; [contradiction|]. rewrite <- Enm in *.
  replace (negb (Str.truthy nm)) with false by (rewrite Enm; reflexivity).
  cbv zeta. rewrite indexOf_close by exact Hb.
  pose proof (len_nonneg nm). pose proof (len_nonneg body).
  destruct (Str.len nm + 1 + Str.len body =? -1) eqn:E; [apply Z.eqb_eq in E; lia|].
  assert (Hsuf : Str.sliceFrom (nm +:+ "[" +:+ body +:+ "]" +:+ suffix)
                   (Str.len nm + 1 + Str.len body + 1) = suffix).
  { replace (nm +:+ "[" +:+ body +:+ "]" +:+ suffix)
      with ((nm +:+ "[" +:+ body +:+ "]") +:+ suffix)
      by (rewrite !append_assoc; reflexivity).
    replace (Str.len nm + 1 + Str.len body + 1)
      with (Str.len (nm +:+ "[" +:+ body +:+ "]")).
    - apply sliceFrom_app.
    - rewrite !len_app. change (Str.len "[") with 1. change (Str.len "]") with 1. lia. }
  assert (Hrange : Str.slice (nm +:+ "[" +:+ body +:+ "]" +:+ suffix)
                     (Str.len nm) (Str.len nm + 1 + Str.len body + 1)
                   = "[" +:+ body +:+ "]").
  { replace (nm +:+ "[" +:+ body +:+ "]" +:+ suffix)
      with (nm +:+ ("[" +:+ body +:+ "]") +:+ suffix)
      by (rewrite !append_assoc; reflexivity).
    replace (Str.len nm + 1 + Str.len body + 1)
      with (Str.len nm + Str.len ("[" +:+ body +:+ "]")).
    - apply slice_mid.
    - rewrite !len_app. change (Str.len "[") with 1. change (Str.len "]") with 1. lia. }
  rewrite Hsuf, Hrange. unfold knownSuffix in Hs.
  destruct Hs as [->|[->|[->|[->| ->]]]]; eexists;
    (split; [reflexivity|repeat split]).
Qed.

Lemma parse_bracket_param_witness :
  exists d,
    parse " :id[a-z0-9]+ " = Ok d /\ segmentType d = param /\ name d = Some "id" /\
    range d = Some "[a-z0-9]" /\
    (optional d, single d, multi d, multiString d) = (false, false, false, true).
Proof.
  apply (parse_bracket_param " :id[a-z0-9]+ " "id" "a-z0-9" "+");
    [reflexivity|discriminate|reflexivity|reflexivity|].
  right. right. right. left. reflexivity.
Defined.

(** The flags of a wildcard with a class: those of the modifier written
    before the bracket and of the suffix written after it. *)
Lemma parse_range_wildcard raw sym body suffix :
  Str.trim raw = sym +:+ "[" +:+ body +:+ "]" +:+ suffix ->
  knownSuffix sym -> body <> "" -> Str.includes "]" body = false ->
  knownSuffix suffix ->
  exists d,
    parse raw = Ok d /\ segmentType d = wildcard /\ name d = None /\
    range d = Some ("[" +:+ body +:+ "]") /\
    optional d = (String.eqb sym "?" || String.eqb suffix "?") /\
    single d = (String.eqb sym "*" || String.eqb suffix "*" || String.eqb suffix "") /\
    multi d = (String.eqb sym "**" || String.eqb suffix "**") /\
    multiString d = (String.eqb sym "+" || String.eqb suffix "+").
Proof.
  intros Ht Hsym Hne Hb Hs. unfold parse. rewrite Ht.
  assert (Hl : noLineTerminator suffix = true).
  { unfold knownSuffix in Hs. destruct Hs as [->|[->|[->|[->| ->]]]]; reflexivity. }
  pose proof (bracketedRangeMatch_app body suffix Hne Hb Hl) as Hm.
  set (rest := "[" +:+ body +:+ "]" +:+ suffix) in *.
  assert (Hrest : exists r, rest = String "[" r) by (eexists; reflexivity).
  destruct Hrest as [r Hr].
  assert (Hw : wildcardWithRangeMatch (sym +:+ rest) =
               if String.eqb sym "" then None
               else Some (sym, "[" +:+ body +:+ "]", suffix)).
  { unfold knownSuffix in Hsym.
    destruct Hsym as [->|[->|[->|[->| ->]]]].
    - change ("" +:+ rest) with rest. rewrite Hr. reflexivity.
    - change ("*" +:+ rest) with (String "*" rest).
      unfold wildcardWithRangeMatch. change (Str.len "**") with 2.
      change (Str.len "*") with 1. rewrite sliceFrom_1, Hm, Hr. reflexivity.
    - change ("**" +:+ rest) with (String "*" (String "*" rest)).
      unfold wildcardWithRangeMatch. change (Str.len "**") with 2.
      rewrite sliceFrom_2, Hm. reflexivity.
    - change ("+" +:+ rest) with (String "+" rest).
      unfold wildcardWithRangeMatch. change (Str.len "**") with 2.
      change (Str.len "*") with 1. change (Str.len "+") with 1.
      rewrite sliceFrom_1, Hm. reflexivity.
    - change ("?" +:+ rest) with (String "?" rest).
      unfold wildcardWithRangeMatch. change (Str.len "**") with 2.
      change (Str.len "*") with 1. change (Str.len "+") with 1.
      change (Str.len "?") with 1.
      rewrite sliceFrom_1, Hm. reflexivity. }
  rewrite Hw.
  assert (Hhead : Str.truthy (sym +:+ rest) = true /\
                  Str.startsWith ":" (sym +:+ rest) = false /\
                  (sym = "" -> isStandaloneWildcard (sym +:+ rest) = false)).
  { unfold knownSuffix in Hsym. rewrite Hr.
    destruct Hsym as [->|[->|[->|[->| ->]]]]; repeat split; discriminate. }
  destruct Hhead as (Htr & Hcolon & Hstand). rewrite Htr, Hcolon. cbn [negb].
  unfold knownSuffix in Hsym, Hs.
  destruct Hsym as [->|[->|[->|[->| ->]]]].
  - cbn [String.eqb]. rewrite (Hstand eq_refl).
    change ("" +:+ rest) with rest. rewrite Hm.
    destruct Hs as [->|[->|[->|[->| ->]]]]; eexists;
      (split; [reflexivity|repeat split]).
  - destruct Hs as [->|[->|[->|[->| ->]]]]; eexists;
      (split; [reflexivity|repeat split]).
  - destruct Hs as [->|[->|[->|[->| ->]]]]; eexists;
      (split; [reflexivity|repeat split]).
  - destruct Hs as [->|[->|[->|[->| ->]]]]; eexists;
      (split; [reflexivity|repeat split]).
  - destruct Hs as [->|[->|[->|[->| ->]]]]; eexists;
      (split; [reflexivity|repeat split]).
Qed.

(** X6.  A wildcard with a class, [sym[body]suffix], where [sym] and the
    suffix are among the five known ones and the body is not empty and
    has no closing bracket, is accepted: it parses to a wildcard of that
    class whose flags are those of the modifier before the bracket
    together with those of the suffix after it; with the empty suffix it
    is [single] as well. *)
Theorem parse_class_wildcard (raw sym body suffix : string) :
  Str.trim raw = sym +:+ "[" +:+ body +:+ "]" +:+ suffix ->
  knownSuffix sym -> body <> "" -> Str.includes "]" body = false ->
  knownSuffix suffix ->
  exists d,
    parse raw = Ok d /\ segmentType d = wildcard /\ name d = None /\
    range d = Some ("[" +:+ body +:+ "]") /\
    optional d = (String.eqb sym "?" || String.eqb suffix "?") /\
    single d = (String.eqb sym "*" || String.eqb suffix "*" || String.eqb suffix "") /\
    multi d = (String.eqb sym "**" || String.eqb suffix "**") /\
    multiString d = (String.eqb sym "+" || String.eqb suffix "+").
Proof. apply parse_range_wildcard. Qed.

Lemma parse_class_wildcard_witness :
  exists d,
    parse "[a-z]**" = Ok d /\ segmentType d = wildcard /\ name d = None /\
    range d = Some "[a-z]" /\
    optional d = false /\ single d = false /\ multi d = true /\
    multiString d = false.
Proof.
  apply (parse_class_wildcard "[a-z]**" "" "a-z" "**");
    [reflexivity|left; reflexivity|discriminate|reflexivity|].
  right. right. left. reflexivity.
Defined.

Section Host.

Context {regex : Type}.
Variable RegExp : string -> string -> result regex.
Variable test : regex -> string -> bool.

(** X7.  A wildcard whose modifier is written before the class, with
    nothing after it, as in [**[a-z]], is [single] whatever the
    modifier, and its matcher, when it succeeds, consumes exactly one
    fragment, which is in the class. *)
Theorem modifier_before_class_matches_one (raw sym body : string) :
  Str.trim raw = sym +:+ "[" +:+ body +:+ "]" ->
  sym = "*" \/ sym = "**" \/ sym = "+" \/ sym = "?" ->
  body <> "" -> Str.includes "]" body = false ->
  exists s,
    PathSegment.new raw = Ok s /\ isWildcard s = true /\ isSingle s = true /\
    forall segs r,
      SegmentMatcher.match_ RegExp test (SegmentMatcher.new s) segs = Ok (Some r) ->
      exists first,
        segs = first :: SegmentMatcher.leftover r /\
        SegmentMatcher.wildcard r = Some [first] /\
        SegmentMatcher.outOfRange RegExp test (SegmentMatcher.new s) first = Ok false.
Proof.
  intros Ht Hsym Hne Hb.
  destruct (parse_range_wildcard raw sym body "" Ht) as
    (d & Hp & Hty & Hname & Hrange & _ & Hsingle & _);
    [unfold knownSuffix; tauto|exact Hne|exact Hb|left; reflexivity|].
  rewrite orb_true_r in Hsingle.
  exists (PathSegment.mk raw d). unfold PathSegment.new. rewrite Hp.
  split; [reflexivity|]. unfold isWildcard, isSingle. cbn [data].
  rewrite Hty, Hsingle. split; [reflexivity|]. split; [reflexivity|].
  intros segs r H.
  unfold SegmentMatcher.match_, SegmentMatcher.new in H.
  cbn [getData data SegmentMatcher.segType] in H. rewrite Hty in H.
  unfold SegmentMatcher.matchWildcard in H.
  cbn [SegmentMatcher.single] in H. rewrite Hsingle in H.
  unfold SegmentMatcher.matchSingleWildcard in H.
  destruct segs as [|first rest]; [discriminate|].
  exists first.
  destruct (SegmentMatcher.outOfRange RegExp test _ first) as [[]|] eqn:Ho;
    cbn [bind] in H; try discriminate.
  inversion H; subst; clear H. cbn. repeat split.
Qed.

End Host.

Lemma modifier_before_class_matches_one_witness :
  exists s,
    PathSegment.new "**[a-z]" = Ok s /\ isWildcard s = true /\ isSingle s = true /\
    forall segs r,
      SegmentMatcher.match_ EsRegExp.RegExp EsRegExp.test (SegmentMatcher.new s) segs
      = Ok (Some r) ->
      exists first,
        segs = first :: SegmentMatcher.leftover r /\
        SegmentMatcher.wildcard r = Some [first] /\
        SegmentMatcher.outOfRange EsRegExp.RegExp EsRegExp.test
          (SegmentMatcher.new s) first = Ok false.
Proof.
  apply (modifier_before_class_matches_one EsRegExp.RegExp EsRegExp.test
           "**[a-z]" "**" "a-z");
    [reflexivity|right; left; reflexivity|discriminate|reflexivity].
Defined.

(** ** Parameters without a class *)

Lemma includes_app c a b :
  Str.includes c (a +:+ b) = Str.includes c a || Str.includes c b.
Proof.
  induction a as [|x a IH]; [reflexivity|].
  rewrite append_cons. cbn [Str.includes]. now rewrite IH, orb_assoc.
Qed.

Lemma substring_split s n :
  (n <= String.length s)%nat ->
  s = String.substring 0 n s +:+ String.substring n (String.length s - n) s.
Proof.
  revert n. induction s as [|c s IH]; intros n Hn.
  - cbn in Hn. replace n with 0%nat by lia. reflexivity.
  - destruct n as [|n].
    + cbn [String.substring]. rewrite Nat.sub_0_r.
      change (String c s = String c (String.substring 0 (String.length s) s)).
      now rewrite substring_all.
    + cbn [String.length] in Hn.
      cbn [String.substring String.length Nat.sub].
      rewrite append_cons. f_equal. apply IH. lia.
Qed.

Lemma endsWith_inv p s : Str.endsWith p s = true -> exists a, s = a +:+ p.
Proof.
  unfold Str.endsWith. intros H. apply andb_true_iff in H as [Hl He].
  apply Nat.leb_le in Hl. apply String.eqb_eq in He.
  exists (String.substring 0 (String.length s - String.length p) s).
  pose proof (substring_split s (String.length s - String.length p)) as Hsplit.
  replace (String.length s - (String.length s - String.length p))%nat
    with (String.length p) in Hsplit by lia.
  rewrite He in Hsplit. apply Hsplit. lia.
Qed.

Lemma app_last_inj a b c d :
  a +:+ String c "" = b +:+ String d "" -> a = b /\ c = d.
Proof.
  revert b. induction a as [|x a IH]; intros b H.
  - destruct b as [|y b].
    + now inversion H.
    + rewrite append_cons in H. inversion H as [[Hx Hb]].
      destruct b; discriminate.
  - destruct b as [|y b].
    + rewrite append_cons in H. inversion H as [[Hx Ha]].
      destruct a; discriminate.
    + rewrite !append_cons in H. inversion H as [[Hx Hab]].
      destruct (IH _ Hab) as [-> ->]. now split.
Qed.

Lemma endsWith_last p c a d :
  Str.endsWith (p +:+ String c "") (a +:+ String d "") = true -> c = d.
Proof.
  intros H. apply endsWith_inv in H as [b Hb].
  rewrite <- append_assoc in Hb. apply app_last_inj in Hb as [_ ->]. reflexivity.
Qed.

Lemma slice_drop a p :
  p <> "" -> Str.slice (a +:+ p) 0 (- Str.len p) = a.
Proof.
  intros Hp. unfold Str.slice. rewrite len_app.
  pose proof (len_nonneg a).
  assert (0 < Str.len p) by (destruct p; [contradiction|rewrite len_cons; pose proof (len_nonneg p); lia]).
  replace (0 <? 0) with false by reflexivity.
  destruct (- Str.len p <? 0) eqn:E; [|apply Z.ltb_ge in E; lia].
  rewrite Z.min_l by lia. rewrite Z.max_l by lia.
  replace (Str.len a + Str.len p + - Str.len p - 0) with (Str.len a) by lia.
  unfold Str.len. rewrite Nat2Z.id. apply substring_app_l.
Qed.

Lemma not_endsWith c d a q :
  c <> d -> Str.endsWith (q +:+ String c "") (a +:+ String d "") = false.
Proof.
  intros Hne. destruct (Str.endsWith _ _) eqn:E; [|reflexivity].
  apply endsWith_last in E. contradiction.
Qed.

Lemma not_endsWith_text p s nm c d q :
  p = q +:+ String c "" -> s = String d "" -> c <> d ->
  Str.endsWith p (nm +:+ s) = false.
Proof. intros -> -> H. now apply not_endsWith. Qed.

(** X8.  A parameter without a class, [:name suffix], where the name is
    not empty, has no opening bracket and does not itself end in a
    suffix character, is accepted: it parses to a parameter of that
    name, without a class, with the one flag of its suffix. *)
Theorem parse_plain_param (raw nm suffix : string) :
  Str.trim raw = ":" +:+ nm +:+ suffix ->
  nm <> "" -> Str.includes "[" nm = false ->
  Str.endsWith "*" nm = false -> Str.endsWith "+" nm = false ->
  Str.endsWith "?" nm = false ->
  knownSuffix suffix ->
  exists d,
    parse raw = Ok d /\ segmentType d = param /\ name d = Some nm /\
    range d = None /\
    (optional d, single d, multi d, multiString d) = suffixFlags suffix.
Proof.
  intros Ht Hne Hn E1 E2 E3 Hs.
  rewrite (parse_param _ _ Ht). unfold parseParam.
  assert (Hnb : Str.indexOf "[" (nm +:+ suffix) 0 = -1).
  { apply indexOfAux_none. rewrite includes_app, Hn.
    unfold knownSuffix in Hs. destruct Hs as [->|[->|[->|[->| ->]]]]; reflexivity. }
  rewrite Hnb. cbn [Z.eqb negb].
  assert (Htruthy : Str.truthy nm = true) by (destruct nm; [contradiction|reflexivity]).
  assert (E0 : Str.endsWith "**" nm = false).
  { destruct (Str.endsWith "**" nm) eqn:E; [|reflexivity].
    apply endsWith_inv in E as [a ->].
    change "**" with ("*" +:+ "*") in E1. rewrite <- append_assoc in E1.
    now rewrite endsWith_app in E1. }
  unfold knownSuffix in Hs. destruct Hs as [->|[->|[->|[->| ->]]]].
  - assert (Hnm : nm +:+ "" = nm).
    { clear. induction nm as [|c nm IH]; [reflexivity|]. rewrite append_cons. now rewrite IH. }
    rewrite Hnm, E0, E2, E3, E1. cbn [bind]. rewrite Htruthy.
    eexists. split; [reflexivity|repeat split].
  - assert (H2 : Str.endsWith "**" (nm +:+ "*") = false).
    { destruct (Str.endsWith "**" (nm +:+ "*")) eqn:E; [|reflexivity].
      apply endsWith_inv in E as [a Ha].
      change "**" with ("*" +:+ "*") in Ha. rewrite <- append_assoc in Ha.
      apply app_last_inj in Ha as [-> _]. now rewrite endsWith_app in E1. }
    rewrite H2.
    rewrite (not_endsWith_text "+" "*" nm "+"%char "*"%char "" eq_refl eq_refl) by discriminate.
    rewrite (not_endsWith_text "?" "*" nm "?"%char "*"%char "" eq_refl eq_refl) by discriminate.
    rewrite (endsWith_app nm "*").
    change (-1) with (- Str.len "*"). rewrite slice_drop by discriminate.
    cbn [bind]. rewrite Htruthy. eexists. split; [reflexivity|repeat split].
  - rewrite (endsWith_app nm "**").
    change (-2) with (- Str.len "**"). rewrite slice_drop by discriminate.
    cbn [bind]. rewrite Htruthy. eexists. split; [reflexivity|repeat split].
  - rewrite (not_endsWith_text "**" "+" nm "*"%char "+"%char "*" eq_refl eq_refl) by discriminate.
    rewrite (endsWith_app nm "+").
    change (-1) with (- Str.len "+"). rewrite slice_drop by discriminate.
    cbn [bind]. rewrite Htruthy. eexists. split; [reflexivity|repeat split].
  - rewrite (not_endsWith_text "**" "?" nm "*"%char "?"%char "*" eq_refl eq_refl) by discriminate.
    rewrite (not_endsWith_text "+" "?" nm "+"%char "?"%char "" eq_refl eq_refl) by discriminate.
    rewrite (endsWith_app nm "?").
    change (-1) with (- Str.len "?"). rewrite slice_drop by discriminate.
    cbn [bind]. rewrite Htruthy. eexists. split; [reflexivity|repeat split].
Qed.

Lemma parse_plain_param_witness :
  exists d,
    parse ":stuff**" = Ok d /\ segmentType d = param /\ name d = Some "stuff" /\
    range d = None /\
    (optional d, single d, multi d, multiString d) = (false, false, true, false).
Proof.
  apply (parse_plain_param ":stuff**" "stuff" "**");
    [reflexivity|discriminate|reflexivity|reflexivity|reflexivity|reflexivity|].
  right. right. left. reflexivity.
Defined.

End SegmentShape.

(** ** What a match consumes and binds *)

Section MatcherFacts.

Context {regex : Type}.
Variable RegExp : string -> string -> result regex.
Variable test : regex -> string -> bool.

(** ** One segment *)

Section Segment.

Import SegmentMatcher.

Ltac range_cases H :=
  match type of H with
  | context [outOfRange RegExp test ?m ?v] =>
      destruct (outOfRange RegExp test m v) as [[]|]; cbn [bind] in H
  | context [anyOutOfRange RegExp test ?m ?l] =>
      destruct (anyOutOfRange RegExp test m l) as [[]|]; cbn [bind] in H
  end; try discriminate; inversion H; subst; clear H.

Ltac fields_done :=
  repeat (split || intro);
  try discriminate;
  try (match goal with
       | E : Some _ = Some _ |- _ => inversion E; subst
       end);
  try reflexivity; try congruence.

Ltac by_flags H m :=
  destruct (single m); [|destruct (multi m); [|destruct (multiString m);
    [|destruct (optional m); [|discriminate]]]].

(** How [match] accounts for the fragments it is given. *)
Lemma segment_match_spec m segs r :
  match_ RegExp test m segs = Ok (Some r) ->
  exists consumed,
    segs = consumed ++ leftover r /\
    (segType m = PathSegment.static ->
     consumed = [PathSegment.getRaw (segment m)] /\
     paramValue r = None /\ wildcard r = None) /\
    (forall v, paramValue r = Some v ->
       segType m = PathSegment.param /\ paramName r = name m /\
       valueText v = Str.join "/" consumed) /\
    (forall w, wildcard r = Some w ->
       segType m = PathSegment.wildcard /\
       Str.join "/" w = Str.join "/" consumed) /\
    (paramValue r = None -> paramName r = None).
Proof.
  unfold match_. intros H. destruct (segType m) eqn:Hty.
  - unfold matchStatic in H. destruct segs as [|first rest]; [discriminate|].
    destruct (String.eqb_spec first (PathSegment.getRaw (segment m)));
      [|discriminate].
    inversion H; subst; clear H. cbn.
    exists [PathSegment.getRaw (segment m)].
    fields_done.
  - unfold matchParam in H. destruct (name m) as [n|] eqn:En; [|discriminate].
    destruct (negb (Str.truthy n)); [discriminate|].
    by_flags H m.
    + unfold matchSingleParam in H. destruct segs as [|first rest]; [discriminate|].
      range_cases H. exists [first]. cbn.
      fields_done.
    + unfold matchMultiParam in H. destruct segs as [|first rest]; [discriminate|].
      range_cases H. exists (first :: rest). cbn [leftover paramValue paramName wildcard].
      rewrite app_nil_r.
      fields_done.
    + unfold matchMultiStringParam in H.
      destruct segs as [|first rest]; [discriminate|].
      range_cases H. exists (first :: rest). cbn [leftover paramValue paramName wildcard].
      rewrite app_nil_r.
      fields_done.
    + unfold matchOptionalParam in H. destruct segs as [|first rest].
      * inversion H; subst; clear H. exists []. cbn.
        fields_done.
      * range_cases H.
        -- exists []. cbn. fields_done.
        -- exists [first]. cbn.
           fields_done.
  - unfold matchWildcard in H. by_flags H m.
    + unfold matchSingleWildcard in H.
      destruct segs as [|first rest]; [discriminate|].
      range_cases H. exists [first]. cbn.
      fields_done.
    + unfold matchMultiWildcard in H.
      destruct segs as [|first rest]; [discriminate|].
      range_cases H. exists (first :: rest). cbn [leftover paramValue paramName wildcard].
      rewrite app_nil_r.
      fields_done.
    + unfold matchMultiStringWildcard in H.
      destruct segs as [|first rest]; [discriminate|].
      range_cases H. exists (first :: rest). cbn [leftover paramValue paramName wildcard].
      rewrite app_nil_r.
      fields_done.
    + unfold matchOptionalWildcard in H. destruct segs as [|first rest].
      * inversion H; subst; clear H. exists []. cbn.
        fields_done.
      * range_cases H.
        -- exists []. cbn. fields_done.
        -- exists [first]. cbn.
           fields_done.
Qed.

(** X9.  When a segment matches, the fragments given are those it
    consumed followed by [leftover].  A static segment consumes its raw
    text and captures nothing; a parameter value is captured by a
    parameter only, under its name, and a wildcard value by a wildcard
    only, and either capture, joined by slashes, is what was consumed. *)
Theorem segment_match_consumes (m : SegmentMatcher.t) (segs : list string)
    (r : SegmentMatchResult) :
  match_ RegExp test m segs = Ok (Some r) ->
  exists consumed,
    segs = consumed ++ leftover r /\
    (segType m = PathSegment.static ->
     consumed = [PathSegment.getRaw (segment m)] /\
     paramValue r = None /\ wildcard r = None) /\
    (forall v, paramValue r = Some v ->
       segType m = PathSegment.param /\ paramName r = name m /\
       valueText v = Str.join "/" consumed) /\
    (forall w, wildcard r = Some w ->
       segType m = PathSegment.wildcard /\
       Str.join "/" w = Str.join "/" consumed).
Proof.
  intros H. destruct (segment_match_spec _ _ _ H) as (c & H1 & H2 & H3 & H4 & _).
  exists c. auto.
Qed.

(** A greedy segment leaves nothing. *)
Lemma greedy_leftover m segs r :
  greedy m -> match_ RegExp test m segs = Ok (Some r) -> leftover r = [].
Proof.
  intros (Hty & Hs & Hm) H. unfold match_ in H.
  destruct (segType m); [contradiction| |].
  - unfold matchParam in H. destruct (name m) as [n|]; [|discriminate].
    destruct (negb (Str.truthy n)); [discriminate|]. rewrite Hs in H.
    destruct (multi m).
    + unfold matchMultiParam in H. destruct segs; [discriminate|].
      range_cases H. reflexivity.
    + cbn in Hm. rewrite Hm in H.
      unfold matchMultiStringParam in H. destruct segs; [discriminate|].
      range_cases H. reflexivity.
  - unfold matchWildcard in H. rewrite Hs in H.
    destruct (multi m).
    + unfold matchMultiWildcard in H. destruct segs; [discriminate|].
      range_cases H. reflexivity.
    + cbn in Hm. rewrite Hm in H.
      unfold matchMultiStringWildcard in H. destruct segs; [discriminate|].
      range_cases H. reflexivity.
Qed.

End Segment.

(** ** The loop of [match] *)

Import SegmentMatcher BasePathMatcher.

Lemma setProperty_lookup n v (o : Params) k :
  is_Some (setProperty n v o !! k) <->
  is_Some (o !! k) \/ (k = n /\ n <> "__proto__").
Proof.
  unfold setProperty. destruct (String.eqb_spec n "__proto__") as [->|Hne].
  - split; [auto|]. intros [H|[_ H]]; [exact H|congruence].
  - destruct (decide (k = n)) as [->|Hk].
    + rewrite lookup_insert_eq. split; [auto|]. intros _. eexists; reflexivity.
    + rewrite lookup_insert_ne by congruence. split; [auto|].
      intros [H|[H _]]; [exact H|contradiction].
Qed.

(** The state of the loop after one matcher has matched. *)
Local Abbreviation nextParams result params :=
  (match paramName result, paramValue result with
   | Some n, Some v => if Str.truthy n then setProperty n v params else params
   | _, _ => params
   end).

Lemma matchLoop_cons matcher rest params wc remaining :
  matchLoop RegExp test (matcher :: rest) params wc remaining =
  if (length remaining =? 0)%nat then
    if isOptional matcher then matchLoop RegExp test rest params wc remaining
    else Ok (mkLoop params wc remaining false)
  else
    let! result := SegmentMatcher.match_ RegExp test matcher remaining in
    match result with
    | None => Ok (mkLoop params wc remaining false)
    | Some result =>
        matchLoop RegExp test rest (nextParams result params)
          (match SegmentMatcher.wildcard result with
           | Some w => wc ++ w
           | None => wc
           end) (leftover result)
    end.
Proof. reflexivity. Qed.

(** Every key of the result is the name of a parameter of the pattern. *)
Lemma matchLoop_keys ms params wc remaining st k :
  matchLoop RegExp test ms params wc remaining = Ok st ->
  is_Some (loopParams st !! k) ->
  is_Some (params !! k) \/
  (k <> "__proto__" /\
   exists s, In s ms /\ segType s = PathSegment.param /\ name s = Some k).
Proof.
  revert params wc remaining.
  induction ms as [|m ms IH]; intros params wc remaining H Hk.
  - inversion H; subst. left. exact Hk.
  - rewrite matchLoop_cons in H.
    destruct (length remaining =? 0)%nat.
    + destruct (isOptional m).
      * destruct (IH _ _ _ H Hk) as [?|(? & s & ? & ?)]; [now left|].
        right. split; [assumption|]. exists s. split; [now right|assumption].
      * inversion H; subst. left. exact Hk.
    + destruct (SegmentMatcher.match_ RegExp test m remaining) as [[r|]|] eqn:Hm;
        cbn [bind] in H; [| |discriminate].
      * destruct (IH _ _ _ H Hk) as [Hin|(? & s & ? & ?)].
        -- destruct (segment_match_spec _ _ _ Hm) as (c & _ & _ & Hp & _ & _).
           destruct (paramName r) as [n|] eqn:En; [|now left].
           destruct (paramValue r) as [v|] eqn:Ev; [|now left].
           destruct (Str.truthy n); [|now left].
           apply setProperty_lookup in Hin as [Hin|[Hkn Hne]]; [now left|].
           subst k.
           destruct (Hp v eq_refl) as (Hty & Hn & _).
           right. split; [exact Hne|]. exists m. split; [now left|].
           split; [exact Hty|]. now rewrite <- Hn.
        -- right. split; [assumption|]. exists s. split; [now right|assumption].
      * inversion H; subst. left. exact Hk.
Qed.

(** X10.  [match] binds no name that the pattern does not have: every key
    of [params] is the name of a parameter of the pattern, and is not
    [__proto__]. *)
Theorem match_binds_pattern_names (m : BasePathMatcher.t) (uri : string)
    (r : PathMatchResult) (k : string) :
  match_ RegExp test m uri = Ok r ->
  is_Some (params r !! k) ->
  k <> "__proto__" /\
  exists s, In s (matchers m) /\ segType s = PathSegment.param /\ name s = Some k.
Proof.
  unfold match_. intros H Hk.
  destruct (isRoot m && String.eqb (normalizePath uri) "/").
  - inversion H; subst. cbn in Hk. rewrite lookup_empty in Hk.
    now destruct Hk.
  - destruct (matchLoop RegExp test (matchers m) ∅ [] (getSegments uri))
      as [st|] eqn:Hl; [|discriminate].
    cbn [bind] in H. inversion H; subst; clear H. cbn [params] in Hk.
    destruct (if isMatched st && (0 <? length (remainingSegments st))%nat
              then false else isMatched st).
    + destruct (matchLoop_keys _ _ _ _ _ _ Hl Hk) as [Hin|?]; [|assumption].
      rewrite lookup_empty in Hin. now destruct Hin.
    + rewrite lookup_empty in Hk. now destruct Hk.
Qed.

(** The loop keeps what is bound, and binds every parameter that is not
    optional. *)
Lemma matchLoop_binds ms params wc remaining st :
  matchLoop RegExp test ms params wc remaining = Ok st ->
  isMatched st = true ->
  (forall k, is_Some (params !! k) -> is_Some (loopParams st !! k)) /\
  (forall s n, In s ms -> segType s = PathSegment.param ->
               optional s = false -> name s = Some n -> n <> "__proto__" ->
               is_Some (loopParams st !! n)).
Proof.
  revert params wc remaining.
  induction ms as [|m ms IH]; intros params wc remaining H Hmatched.
  - inversion H; subst. cbn. split; [auto|]. intros s n [].
  - rewrite matchLoop_cons in H.
    destruct (length remaining =? 0)%nat.
    + destruct (isOptional m) eqn:Ho.
      * destruct (IH _ _ _ H Hmatched) as [Hkeep Hbind].
        split; [exact Hkeep|]. intros s n [<-|Hin] Hty Hopt Hn Hne.
        -- unfold isOptional in Ho. congruence.
        -- eapply Hbind; eassumption.
      * inversion H; subst. discriminate.
    + destruct (SegmentMatcher.match_ RegExp test m remaining) as [[r|]|] eqn:Hm;
        cbn [bind] in H; [| |discriminate].
      * destruct (IH _ _ _ H Hmatched) as [Hkeep Hbind].
        assert (Hmono : forall k, is_Some (params !! k) ->
                                  is_Some (nextParams r params !! k)).
        { intros k Hk. destruct (paramName r) as [n|]; [|exact Hk].
          destruct (paramValue r) as [v|]; [|exact Hk].
          destruct (Str.truthy n); [|exact Hk].
          apply setProperty_lookup. now left. }
        split; [intros k Hk; apply Hkeep, Hmono, Hk|].
        intros s n [<-|Hin] Hty Hopt Hn Hne; [|eapply Hbind; eassumption].
        apply Hkeep. clear Hkeep Hbind IH H Hmono.
        unfold SegmentMatcher.match_ in Hm. rewrite Hty in Hm.
        unfold matchParam in Hm. rewrite Hn in Hm.
        destruct (Str.truthy n) eqn:Ht; [|discriminate]. cbn [negb] in Hm.
        rewrite Hopt in Hm.
        assert (Hr : paramName r = Some n /\ is_Some (paramValue r)).
        { destruct (single m).
          { unfold matchSingleParam in Hm. destruct remaining; [discriminate|].
            destruct (outOfRange RegExp test m s) as [[]|]; cbn [bind] in Hm;
              try discriminate.
            inversion Hm; subst. cbn. rewrite Hn. split; [reflexivity|eexists; reflexivity]. }
          destruct (multi m).
          { unfold matchMultiParam in Hm. destruct remaining; [discriminate|].
            destruct (anyOutOfRange RegExp test m (s :: remaining)) as [[]|];
              cbn [bind] in Hm; try discriminate.
            inversion Hm; subst. cbn. rewrite Hn. split; [reflexivity|eexists; reflexivity]. }
          destruct (multiString m); [|discriminate].
          unfold matchMultiStringParam in Hm. destruct remaining; [discriminate|].
          destruct (anyOutOfRange RegExp test m (s :: remaining)) as [[]|];
            cbn [bind] in Hm; try discriminate.
          inversion Hm; subst. cbn. rewrite Hn. split; [reflexivity|eexists; reflexivity]. }
        destruct Hr as [-> [v ->]]. rewrite Ht.
        apply setProperty_lookup. right. now split.
      * inversion H; subst. discriminate.
Qed.

(** ** Matchers that the constructor built *)

Lemma mapM_Forall2 {A B : Type} (f : A -> result B) l l' :
  mapM f l = Ok l' -> Forall2 (fun x y => f x = Ok y) l l'.
Proof.
  revert l'. induction l as [|x l IH]; intros l' H.
  - inversion H. constructor.
  - cbn in H. destruct (f x) as [y|] eqn:Hx; [|discriminate]. cbn [bind] in H.
    destruct (mapM f l) as [ys|]; [|discriminate]. cbn [bind] in H.
    inversion H; subst. constructor; [exact Hx|]. now apply IH.
Qed.

(** What [new] builds: the segments are those of the pattern, each of
    them parsed, and the root flag is set by the pattern "/" alone. *)
Lemma new_inv pat m :
  BasePathMatcher.new pat = Ok m ->
  pattern m = normalizePath pat /\
  (isRoot m = true <-> pat = "/") /\
  checkParams (matchers m) = Ok tt /\
  exists segs,
    matchers m = List.map SegmentMatcher.new segs /\
    Forall2 (fun raw s => PathSegment.new raw = Ok s)
      (if String.eqb pat "/" then ["/"] else getSegments pat) segs.
Proof.
  unfold BasePathMatcher.new. intros H.
  destruct (parsePattern pat) as [segs|] eqn:Hp; [|discriminate].
  cbn [bind] in H.
  destruct (checkParams (List.map SegmentMatcher.new segs)) as [[]|] eqn:Hc;
    [|discriminate].
  cbn [bind] in H. remember (normalizePath pat) as np eqn:Enp.
  inversion H; subst m; clear H. cbn [pattern isRoot matchers].
  split; [reflexivity|]. unfold parsePattern in Hp.
  destruct (String.eqb_spec pat "/") as [->|Hne].
  - split; [split; [reflexivity|intros _; now subst np]|]. split; [exact Hc|].
    exists segs. split; [reflexivity|].
    destruct (PathSegment.new "/") as [seg|] eqn:Hs; [|discriminate].
    cbn [bind] in Hp. inversion Hp; subst. repeat constructor. exact Hs.
  - split.
    + split; [|contradiction]. intros Hroot. apply String.eqb_eq in Hroot.
      subst np. apply normalizePath_root in Hroot.
      rewrite getSegments_fragments, Hroot in Hp. discriminate.
    + split; [exact Hc|]. exists segs. split; [reflexivity|].
      now apply mapM_Forall2.
Qed.

Lemma new_segment_inv raw s :
  PathSegment.new raw = Ok s ->
  PathSegment.rawSegment s = raw /\ PathSegment.parse raw = Ok (PathSegment.data s).
Proof.
  unfold PathSegment.new. intros H.
  destruct (PathSegment.parse raw) as [d|]; [|discriminate].
  cbn [bind] in H. inversion H; subst. now split.
Qed.

(** Every matcher of a pattern that [new] accepts holds parsed data. *)
Lemma new_parsed pat m s :
  BasePathMatcher.new pat = Ok m -> In s (matchers m) ->
  exists seg, s = SegmentMatcher.new seg /\
              PathSegment.parse (PathSegment.rawSegment seg) = Ok (PathSegment.data seg).
Proof.
  intros H Hin. destruct (new_inv _ _ H) as (_ & _ & _ & segs & Hms & Hall).
  rewrite Hms in Hin. apply List.in_map_iff in Hin as (seg & <- & Hseg).
  exists seg. split; [reflexivity|]. clear Hms H.
  revert Hseg. induction Hall as [|raw s' raws segs' Hs _ IH]; [intros []|].
  intros [->|Hseg]; [|now apply IH].
  destruct (new_segment_inv _ _ Hs) as [-> Hp]. exact Hp.
Qed.

(** X11.  When a pattern that the constructor accepted matches, every
    parameter of it that is not optional has a name, which is not empty,
    and that name is bound in [params], [__proto__] apart. *)
Theorem match_binds_required_params (pat : string) (m : BasePathMatcher.t)
    (uri : string) (r : PathMatchResult) (s : SegmentMatcher.t) :
  BasePathMatcher.new pat = Ok m ->
  match_ RegExp test m uri = Ok r -> matched r = true ->
  In s (matchers m) -> isParam s = true -> isOptional s = false ->
  exists n, name s = Some n /\ n <> "" /\
            (n <> "__proto__" -> is_Some (params r !! n)).
Proof.
  intros Hnew H Hmatched Hin Hty Hopt.
  assert (Hparam : segType s = PathSegment.param).
  { unfold isParam in Hty. destruct (segType s); (reflexivity || discriminate). }
  destruct (new_parsed _ _ _ Hnew Hin) as (seg & -> & Hp).
  pose proof (parse_shape_of _ _ Hp) as Hs.
  cbn [SegmentMatcher.new segType] in Hparam.
  unfold PathSegment.getData in Hparam. rewrite Hparam in Hs. destruct Hs as ((n & Hn & Hne) & _).
  exists n. split; [exact Hn|]. split; [exact Hne|]. intros Hproto.
  unfold match_ in H.
  destruct (isRoot m && String.eqb (normalizePath uri) "/") eqn:Hroot.
  - apply andb_true_iff in Hroot as [Hroot _].
    destruct (new_inv _ _ Hnew) as (_ & Hr & _ & segs & Hms & Hall).
    apply Hr in Hroot. subst pat. cbn [String.eqb Ascii.eqb Bool.eqb] in Hall.
    inversion Hall as [|? s0 ? ? Hs0 Hnil]; subst. inversion Hnil; subst.
    rewrite Hms in Hin. destruct Hin as [Hin|[]].
    assert (E : segType (SegmentMatcher.new s0) = PathSegment.static).
    { destruct (new_segment_inv _ _ Hs0) as [_ Hp0].
      cbn [SegmentMatcher.new segType]. unfold PathSegment.getData.
      change (PathSegment.parse "/")
        with (Ok (PathSegment.setType PathSegment.static PathSegment.data0)) in Hp0.
      inversion Hp0 as [Hd]. reflexivity. }
    rewrite Hin in E. cbn [SegmentMatcher.new segType] in E.
    unfold PathSegment.getData in E. congruence.
  - destruct (matchLoop RegExp test (matchers m) ∅ [] (getSegments uri))
      as [st|] eqn:Hl; [|discriminate].
    cbn [bind] in H. inversion H; subst; clear H. cbn [params matched] in *.
    destruct (isMatched st) eqn:Hst.
    + cbn [andb] in *.
      destruct (0 <? length (remainingSegments st))%nat; [discriminate|].
      destruct (matchLoop_binds _ _ _ _ _ Hl Hst) as [_ Hb].
      eapply Hb; eauto.
    + cbn [andb] in Hmatched. discriminate.
Qed.

(** After a greedy segment, a segment that is not optional fails. *)
Lemma matchLoop_after_greedy pre g s post params wc remaining st :
  greedy g -> optional s = false ->
  matchLoop RegExp test (pre ++ g :: s :: post) params wc remaining = Ok st ->
  isMatched st = false.
Proof.
  intros Hg Hs. revert params wc remaining.
  assert (Hstop : forall params wc,
             matchLoop RegExp test (s :: post) params wc [] = Ok st ->
             isMatched st = false).
  { intros params wc H. rewrite matchLoop_cons in H. cbn [length Nat.eqb] in H.
    unfold isOptional in H. rewrite Hs in H. now inversion H. }
  induction pre as [|m pre IH]; intros params wc remaining H.
  - cbn [app] in H. rewrite matchLoop_cons in H.
    destruct remaining as [|x remaining].
    + cbn [length Nat.eqb] in H. destruct (isOptional g).
      * eapply Hstop; exact H.
      * now inversion H.
    + cbn [length Nat.eqb] in H.
      destruct (SegmentMatcher.match_ RegExp test g (x :: remaining)) as [[r|]|] eqn:Hm;
        cbn [bind] in H; [| |discriminate].
      * rewrite (greedy_leftover _ _ _ Hg Hm) in H. eapply Hstop; exact H.
      * now inversion H.
  - change ((m :: pre) ++ g :: s :: post) with (m :: (pre ++ g :: s :: post)) in H.
    rewrite matchLoop_cons in H.
    destruct (length remaining =? 0)%nat.
    + destruct (isOptional m); [eapply IH; exact H|now inversion H].
    + destruct (SegmentMatcher.match_ RegExp test m remaining) as [[r|]|];
        cbn [bind] in H; [| |discriminate].
      * eapply IH; exact H.
      * now inversion H.
Qed.

(** X12.  A pattern in which a segment matched as [multi] or [multiString]
    is followed by a segment that is not optional matches no path:
    [match] answers [matched = false] for every candidate. *)
Theorem nothing_matches_after_greedy (pat : string) (m : BasePathMatcher.t)
    (pre post : list SegmentMatcher.t) (g s : SegmentMatcher.t)
    (uri : string) (r : PathMatchResult) :
  BasePathMatcher.new pat = Ok m ->
  matchers m = pre ++ g :: s :: post -> greedy g -> isOptional s = false ->
  match_ RegExp test m uri = Ok r -> matched r = false.
Proof.
  unfold match_. intros Hnew Hms Hg Hs H.
  assert (Hroot : isRoot m = false).
  { destruct (isRoot m) eqn:E; [|reflexivity].
    destruct (new_inv _ _ Hnew) as (_ & Hr & _ & segs & Hsegs & Hall).
    apply Hr in E. subst pat. cbn [String.eqb Ascii.eqb Bool.eqb] in Hall.
    inversion Hall as [|? s0 ? ? _ Hnil]; subst. inversion Hnil; subst.
    rewrite Hms in Hsegs. destruct pre as [|? [|? ?]]; discriminate. }
  rewrite Hroot in H. cbn [andb] in H.
  destruct (matchLoop RegExp test (matchers m) ∅ [] (getSegments uri))
    as [st|] eqn:Hl; [|discriminate].
  cbn [bind] in H. inversion H; subst; clear H. cbn [matched].
  rewrite Hms in Hl.
  rewrite (matchLoop_after_greedy _ _ _ _ _ _ _ _ Hg Hs Hl). reflexivity.
Qed.

(** ** Patterns without a parameter or a wildcard *)

Lemma matchLoop_static ms params wc remaining :
  Forall (fun s => segType s = PathSegment.static /\ optional s = false) ms ->
  exists st,
    matchLoop RegExp test ms params wc remaining = Ok st /\
    (isMatched st = true /\ remainingSegments st = [] <->
     remaining = List.map (fun s => PathSegment.getRaw (segment s)) ms).
Proof.
  intros Hall. revert remaining.
  induction Hall as [|m ms [Hty Hopt] _ IH]; intros remaining.
  - eexists. split; [reflexivity|]. cbn. tauto.
  - rewrite matchLoop_cons. destruct remaining as [|x remaining].
    + cbn [length Nat.eqb]. unfold isOptional. rewrite Hopt.
      eexists. split; [reflexivity|]. cbn. split; [intros [? _]|]; discriminate.
    + cbn [length Nat.eqb]. unfold SegmentMatcher.match_. rewrite Hty.
      unfold matchStatic.
      destruct (String.eqb_spec x (PathSegment.getRaw (segment m))) as [->|Hne].
      * cbn [bind paramName paramValue SegmentMatcher.wildcard leftover].
        destruct (IH remaining) as (st & Hst & Hiff).
        exists st. split; [exact Hst|]. rewrite Hiff. cbn [List.map].
        split; [now intros ->|now intros [=]].
      * cbn [bind]. eexists. split; [reflexivity|]. cbn.
        split; [intros [? _]; discriminate|intros [=]; contradiction].
Qed.

Lemma Forall2_raws raws segs :
  Forall2 (fun raw s => PathSegment.new raw = Ok s) raws segs ->
  List.map (fun s => PathSegment.getRaw (segment s)) (List.map SegmentMatcher.new segs)
  = raws.
Proof.
  induction 1 as [|raw s raws segs Hs _ IH]; [reflexivity|].
  cbn [List.map]. rewrite IH. f_equal.
  destruct (new_segment_inv _ _ Hs) as [Hr _]. exact Hr.
Qed.

Lemma getSegments_inj u v :
  getSegments u = getSegments v <-> normalizePath u = normalizePath v.
Proof.
  split; intros H.
  - now rewrite <- (join_getSegments u), <- (join_getSegments v), H.
  - unfold getSegments. now rewrite H.
Qed.

(** X13.  A pattern without a parameter or a wildcard never throws, and it
    matches a candidate exactly when the normal form of the candidate is
    the normal form of the pattern. *)
Theorem static_pattern_matches_exactly (pat : string) (m : BasePathMatcher.t)
    (uri : string) :
  BasePathMatcher.new pat = Ok m ->
  Forall (fun s => isParam s = false /\ isWildcard s = false) (matchers m) ->
  exists r,
    match_ RegExp test m uri = Ok r /\
    (matched r = true <-> normalizePath uri = pattern m).
Proof.
  intros Hnew Hstatic.
  assert (Hall : Forall (fun s => segType s = PathSegment.static /\ optional s = false)
                   (matchers m)).
  { apply List.Forall_forall. intros s Hin.
    rewrite List.Forall_forall in Hstatic. destruct (Hstatic s Hin) as [Hp Hw].
    assert (Hty : segType s = PathSegment.static).
    { unfold isParam, isWildcard in *. destruct (segType s); (reflexivity || discriminate). }
    split; [exact Hty|].
    destruct (new_parsed _ _ _ Hnew Hin) as (seg & -> & Hparse).
    pose proof (parse_shape_of _ _ Hparse) as Hs.
    cbn [SegmentMatcher.new segType optional] in *. unfold PathSegment.getData in *.
    rewrite Hty in Hs. destruct Hs as (_ & _ & Hf). now inversion Hf. }
  destruct (new_inv _ _ Hnew) as (Hpat & Hroot & _ & segs & Hms & Hraws).
  apply Forall2_raws in Hraws. rewrite <- Hms in Hraws.
  destruct (matchLoop_static (matchers m) ∅ [] (getSegments uri) Hall)
    as (st & Hst & Hiff).
  rewrite Hraws in Hiff. unfold match_.
  destruct (isRoot m) eqn:Eroot.
  - assert (pat = "/") by now apply Hroot. subst pat.
    assert (Hp : pattern m = "/") by (rewrite Hpat; reflexivity). rewrite Hp.
    cbn [andb]. destruct (String.eqb_spec (normalizePath uri) "/") as [E|E].
    + eexists. split; [reflexivity|]. cbn. tauto.
    + rewrite Hst. cbn [bind]. eexists. split; [reflexivity|]. cbn [matched].
      assert (Hno : ~ (isMatched st = true /\ remainingSegments st = [])).
      { rewrite Hiff. cbn [String.eqb Ascii.eqb Bool.eqb]. intros Hs.
        assert (Hin : In "/" (getSegments uri)) by (rewrite Hs; now left).
        apply getSegments_no_slash in Hin. discriminate. }
      destruct (isMatched st); cbn [andb]; [|split; [discriminate|contradiction]].
      destruct (remainingSegments st); cbn; [tauto|].
      split; [discriminate|contradiction].
  - cbn [andb]. rewrite Hst. cbn [bind]. eexists. split; [reflexivity|].
    cbn [matched].
    assert (Hne : String.eqb pat "/" = false).
    { destruct (String.eqb_spec pat "/") as [E|E]; [|reflexivity].
      apply Hroot in E. congruence. }
    rewrite Hne in Hiff. rewrite Hpat, <- getSegments_inj, <- Hiff.
    destruct (isMatched st); cbn [andb]; [|split; [discriminate|intros [? _]; discriminate]].
    destruct (remainingSegments st); cbn; [tauto|].
    split; [discriminate|intros [_ ?]; discriminate].
Qed.

(** ** The root path *)

(** X14.  The root path has one fragment, the empty string, so a pattern
    of one parameter without a class matches it, the parameter being
    bound to an empty capture. *)
Theorem root_path_matches_one_parameter (pat : string) (m : BasePathMatcher.t)
    (s : SegmentMatcher.t) (uri : string) :
  BasePathMatcher.new pat = Ok m ->
  matchers m = [s] -> isParam s = true -> range s = None ->
  normalizePath uri = "/" ->
  exists n v,
    name s = Some n /\
    match_ RegExp test m uri =
      Ok (mkPathMatchResult "/" (setProperty n v ∅) [] true) /\
    valueText v = "".
Proof.
  intros Hnew Hms Hp Hrange Huri.
  assert (Hty : segType s = PathSegment.param).
  { unfold isParam in Hp. destruct (segType s); (reflexivity || discriminate). }
  assert (Hin : In s (matchers m)) by (rewrite Hms; now left).
  destruct (new_parsed _ _ _ Hnew Hin) as (seg & Hseg & Hparse).
  pose proof (parse_shape_of _ _ Hparse) as Hs.
  assert (Hfields :
            segType s = PathSegment.segmentType (PathSegment.data seg) /\
            name s = PathSegment.name (PathSegment.data seg) /\
            optional s = PathSegment.optional (PathSegment.data seg) /\
            single s = PathSegment.single (PathSegment.data seg) /\
            multi s = PathSegment.multi (PathSegment.data seg) /\
            multiString s = PathSegment.multiString (PathSegment.data seg))
    by (rewrite Hseg; repeat split).
  destruct Hfields as (F1 & F2 & F3 & F4 & F5 & F6).
  rewrite <- F1, Hty in Hs. destruct Hs as ((n & Hn & Hne) & Hflags).
  unfold oneFlag in Hflags. cbv zeta in Hflags.
  rewrite <- F2 in Hn. rewrite <- F3, <- F4, <- F5, <- F6 in Hflags.
  clear F1 F2 F3 F4 F5 F6 Hparse Hseg seg.
  assert (Hroot : isRoot m = false).
  { destruct (isRoot m) eqn:E; [|reflexivity].
    destruct (new_inv _ _ Hnew) as (_ & Hr & _ & segs & Hsegs & Hall).
    apply Hr in E. subst pat. cbn [String.eqb Ascii.eqb Bool.eqb] in Hall.
    inversion Hall as [|? s0 ? ? Hs0 Hnil]; subst. inversion Hnil; subst.
    rewrite Hms in Hsegs. cbn in Hsegs. inversion Hsegs as [Hs1].
    destruct (new_segment_inv _ _ Hs0) as [_ Hp0].
    change (PathSegment.parse "/")
      with (Ok (PathSegment.setType PathSegment.static PathSegment.data0)) in Hp0.
    inversion Hp0 as [Hd]. rewrite Hs1 in Hty.
    cbn [SegmentMatcher.new segType] in Hty.
    unfold PathSegment.getData in Hty. rewrite <- Hd in Hty. discriminate. }
  assert (Hsegs : getSegments uri = [""]).
  { rewrite getSegments_fragments.
    apply normalizePath_root in Huri. now rewrite Huri. }
  assert (Ht : Str.truthy n = true) by (destruct n; [contradiction|reflexivity]).
  assert (Hout : forall v, outOfRange RegExp test s v = Ok false).
  { intros v. unfold outOfRange. now rewrite Hrange. }
  exists n. unfold match_. rewrite Hroot, Hsegs, Hms. cbn [andb].
  rewrite matchLoop_cons. cbn [length Nat.eqb].
  unfold SegmentMatcher.match_. rewrite Hty. unfold matchParam.
  rewrite Hn, Ht. cbn [negb].
  destruct Hflags as [Hf|[Hf|[Hf|Hf]]]; injection Hf as Ho Hsi Hmu Hmst;
    rewrite ?Hsi, ?Hmu, ?Hmst, ?Ho.
  - exists (PString "").
    unfold matchOptionalParam. rewrite Hout. cbn. rewrite Hn, Ht. repeat split.
  - exists (PString "").
    unfold matchSingleParam. rewrite Hout. cbn. rewrite Hn, Ht. repeat split.
  - exists (PList [""]).
    unfold matchMultiParam, anyOutOfRange. rewrite Hout. cbn. rewrite Hn, Ht.
    repeat split.
  - exists (PString "").
    unfold matchMultiStringParam, anyOutOfRange. rewrite Hout. cbn.
    rewrite Hn, Ht. repeat split.
Qed.

(** ** The result as a candidate *)

(** X15.  [match] depends on the candidate through its normal form only:
    matching the normal form of the candidate, or the path that the
    result carries, gives the same result again. *)
Theorem match_on_returned_path (m : BasePathMatcher.t) (uri : string)
    (r : PathMatchResult) :
  match_ RegExp test m uri = Ok r ->
  match_ RegExp test m (normalizePath uri) = Ok r /\
  match_ RegExp test m (path r) = Ok r.
Proof.
  intros H.
  assert (Hn : normalizePath (normalizePath uri) = normalizePath uri).
  { now rewrite <- (join_getSegments (normalizePath uri)),
      getSegments_normalizePath, join_getSegments. }
  assert (Hm : match_ RegExp test m (normalizePath uri) = match_ RegExp test m uri).
  { unfold match_. now rewrite Hn, getSegments_normalizePath. }
  assert (Hp : path r = normalizePath uri).
  { unfold match_ in H.
    destruct (isRoot m && String.eqb (normalizePath uri) "/") eqn:Hroot.
    - inversion H; subst. cbn. apply andb_true_iff in Hroot as [_ Hroot].
      now apply String.eqb_eq in Hroot.
    - destruct (matchLoop RegExp test (matchers m) ∅ [] (getSegments uri));
        [|discriminate].
      cbn [bind] in H. inversion H; subst. cbn. apply join_getSegments. }
  rewrite Hp, Hm. now split.
Qed.

End MatcherFacts.

(** ** The theorems on the reference host *)

Section MatcherWitnesses.

Import SegmentMatcher BasePathMatcher.

(** The segments [:foo+], [:id], [a], [**] and [b], parsed. *)
Local Abbreviation fooPlus :=
  (SegmentMatcher.new
     (PathSegment.mk ":foo+"
        (PathSegment.mkData PathSegment.param (Some "foo") None false false false true))).
Local Abbreviation idParam :=
  (SegmentMatcher.new
     (PathSegment.mk ":id"
        (PathSegment.mkData PathSegment.param (Some "id") None false true false false))).
Local Abbreviation staticOf raw :=
  (SegmentMatcher.new
     (PathSegment.mk raw
        (PathSegment.mkData PathSegment.static None None false false false false))).
Local Abbreviation doubleStar :=
  (SegmentMatcher.new
     (PathSegment.mk "**"
        (PathSegment.mkData PathSegment.wildcard None None false false true false))).

Lemma segment_match_consumes_witness :
  exists consumed,
    ["bar"; "baz"] = consumed ++ [] /\
    valueText (PString "bar/baz") = Str.join "/" consumed.
Proof.
  destruct (segment_match_consumes EsRegExp.RegExp EsRegExp.test fooPlus
              ["bar"; "baz"]
              (mkResult [] (Some "foo") (Some (PString "bar/baz")) None) eq_refl)
    as (consumed & Hsegs & _ & Hvalue & _).
  exists consumed. split; [exact Hsegs|].
  now destruct (Hvalue (PString "bar/baz") eq_refl) as (_ & _ & H).
Defined.

Lemma match_binds_pattern_names_witness :
  es_match (compiled "/users/:id") "/users/42" =
    Ok (mkPathMatchResult "/users/42" {[ "id" := PString "42" ]} [] true) /\
  "id" <> "__proto__" /\
  exists s, In s (matchers (compiled "/users/:id")) /\
            segType s = PathSegment.param /\ name s = Some "id".
Proof.
  split; [vm_compute; reflexivity|].
  apply (match_binds_pattern_names EsRegExp.RegExp EsRegExp.test
           (compiled "/users/:id") "/users/42"
           (mkPathMatchResult "/users/42" {[ "id" := PString "42" ]} [] true)).
  - vm_compute. reflexivity.
  - exists (PString "42"). vm_compute. reflexivity.
Defined.

Lemma match_binds_required_params_witness :
  BasePathMatcher.new "/users/:id" = Ok (compiled "/users/:id") /\
  exists n, name idParam = Some n /\ n <> "" /\
            (n <> "__proto__" ->
             is_Some
               (params (mkPathMatchResult "/users/42" {[ "id" := PString "42" ]} [] true)
                !! n)).
Proof.
  split; [vm_compute; reflexivity|].
  apply (match_binds_required_params EsRegExp.RegExp EsRegExp.test
           "/users/:id" (compiled "/users/:id") "/users/42"
           (mkPathMatchResult "/users/42" {[ "id" := PString "42" ]} [] true)
           idParam).
  - vm_compute. reflexivity.
  - vm_compute. reflexivity.
  - reflexivity.
  - vm_compute. right. left. reflexivity.
  - reflexivity.
  - reflexivity.
Defined.

Lemma nothing_matches_after_greedy_witness :
  matchers (compiled "/a/**/b") = [staticOf "a"] ++ doubleStar :: staticOf "b" :: [] /\
  es_match (compiled "/a/**/b") "/a/x/b" =
    Ok (mkPathMatchResult "/a/x/b" ∅ [] false).
Proof.
  split; [vm_compute; reflexivity|].
  assert (H : es_match (compiled "/a/**/b") "/a/x/b" =
              Ok (mkPathMatchResult "/a/x/b" ∅ [] false))
    by (vm_compute; reflexivity).
  pose proof (nothing_matches_after_greedy EsRegExp.RegExp EsRegExp.test
                "/a/**/b" (compiled "/a/**/b") [staticOf "a"] [] doubleStar
                (staticOf "b") "/a/x/b" _
                ltac:(vm_compute; reflexivity) ltac:(vm_compute; reflexivity)
                ltac:(repeat split; discriminate) eq_refl H) as Hm.
  exact H.
Defined.

Lemma static_pattern_matches_exactly_witness :
  exists r,
    es_match (compiled "/alpha/beta") " /Alpha//BETA " = Ok r /\
    (matched r = true <->
     normalizePath " /Alpha//BETA " = pattern (compiled "/alpha/beta")).
Proof.
  apply (static_pattern_matches_exactly EsRegExp.RegExp EsRegExp.test "/alpha/beta").
  - vm_compute. reflexivity.
  - vm_compute. repeat constructor.
Defined.

Lemma root_path_matches_one_parameter_witness :
  exists n v,
    name idParam = Some n /\
    es_match (compiled "/:id") "//" =
      Ok (mkPathMatchResult "/" (setProperty n v ∅) [] true) /\
    valueText v = "".
Proof.
  apply (root_path_matches_one_parameter EsRegExp.RegExp EsRegExp.test "/:id"
           (compiled "/:id") idParam "//");
    vm_compute; reflexivity.
Defined.

Lemma match_on_returned_path_witness :
  es_match (compiled "/users/:id") (normalizePath " /Users//42/ ") =
    Ok (mkPathMatchResult "/users/42" {[ "id" := PString "42" ]} [] true) /\
  es_match (compiled "/users/:id")
    (path (mkPathMatchResult "/users/42" {[ "id" := PString "42" ]} [] true)) =
    Ok (mkPathMatchResult "/users/42" {[ "id" := PString "42" ]} [] true).
Proof.
  apply (match_on_returned_path EsRegExp.RegExp EsRegExp.test
           (compiled "/users/:id") " /Users//42/ ").
  vm_compute. reflexivity.
Defined.

End MatcherWitnesses.

(** ** Duplicate parameter names *)

Section ParameterNames.

Import SegmentMatcher BasePathMatcher.

Lemma checkParamsFrom_spec (seen : gset (option string)) ms :
  checkParamsFrom seen ms = Ok tt <->
  List.NoDup (paramNamesOf ms) /\
  forall x, In x (paramNamesOf ms) -> x ∉ seen.
Proof.
  revert seen. induction ms as [|m ms IH]; intros seen.
  - cbn. split; [intros _; split; [constructor|intros x []]|reflexivity].
  - cbn [checkParamsFrom paramNamesOf flat_map].
    destruct (segType m); cbn [app].
    + apply IH.
    + destruct (decide (name m ∈ seen)) as [Hin|Hout].
      * split; [discriminate|]. intros [_ H]. exfalso.
        apply (H (name m)); [now left|exact Hin].
      * rewrite IH. split.
        -- intros [Hnd Hseen]. split.
           ++ constructor; [|exact Hnd]. intros Hn.
              apply (Hseen _ Hn). apply elem_of_union_l. now apply elem_of_singleton.
           ++ intros x [<-|Hx]; [exact Hout|].
              intros Hs. apply (Hseen _ Hx). now apply elem_of_union_r.
        -- intros [Hnd Hseen]. inversion Hnd as [|? ? Hn Hnd']; subst.
           split; [exact Hnd'|]. intros x Hx Hs.
           apply elem_of_union in Hs as [Hs|Hs].
           ++ apply elem_of_singleton in Hs. subst x. contradiction.
           ++ apply (Hseen x); [now right|exact Hs].
    + apply IH.
Qed.

(** X16.  [checkParams] accepts a list of matchers exactly when the names
    of its parameters are pairwise distinct; otherwise it throws. *)
Theorem checkParams_accepts_distinct_names (ms : list SegmentMatcher.t) :
  checkParams ms = Ok tt <-> List.NoDup (paramNamesOf ms).
Proof.
  unfold checkParams. rewrite checkParamsFrom_spec.
  split; [now intros [? _]|]. intros Hnd. split; [exact Hnd|].
  intros x _. apply not_elem_of_empty.
Qed.

End ParameterNames.

(** ** The order of dispatch and the registry *)

Section OrderFacts.

Import BasePubSub History Order.

Ltac state_fields :=
  cbn [trace immediates subscriptions _inflightCount nextId console ready
       waiting promises emit setConsole setImmediates setSubscriptions
       setNextId setPromises setInflightCount setReady setWaiting
       setImmediate handleError deleteSubscription enqueue] in *.

(** ** Lists in increasing order *)

Lemma sorted_snoc l y :
  StronglySorted lt l -> Forall (fun x => (x < y)%nat) l ->
  StronglySorted lt (l ++ [y]).
Proof.
  induction 1 as [|x l Hs IH Hx]; intros Hy; cbn.
  - repeat constructor.
  - inversion Hy as [|? ? Hxy Hly]; subst. constructor; [now apply IH|].
    apply Forall_app. split; [exact Hx|]. now repeat constructor.
Qed.

Lemma sorted_filter_map {A : Type} (g : A -> nat) (f : A -> bool) l :
  StronglySorted lt (List.map g l) ->
  StronglySorted lt (List.map g (List.filter f l)).
Proof.
  induction l as [|a l IH]; intros H; [constructor|].
  cbn in H. apply StronglySorted_inv in H as [Hs Ha]. cbn.
  destruct (f a); [|now apply IH]. cbn. constructor; [now apply IH|].
  rewrite List.Forall_forall in *. intros x Hx. apply Ha.
  apply List.in_map_iff in Hx as (b & <- & Hb). apply List.in_map.
  now apply List.filter_In in Hb as [Hb _].
Qed.

Lemma sorted_inj {A : Type} (g : A -> nat) l a b :
  StronglySorted lt (List.map g l) -> In a l -> In b l -> g a = g b -> a = b.
Proof.
  induction l as [|x l IH]; intros H Ha Hb Hg; [destruct Ha|].
  cbn in H. apply StronglySorted_inv in H as [Hs Hx].
  rewrite List.Forall_forall in Hx.
  destruct Ha as [->|Ha], Hb as [->|Hb]; [reflexivity| | |now apply IH].
  - assert (g a < g b)%nat by (apply Hx; now apply List.in_map). lia.
  - assert (g b < g a)%nat by (apply Hx; now apply List.in_map). lia.
Qed.

Lemma sorted_app_inv l1 l2 :
  StronglySorted lt (l1 ++ l2) -> StronglySorted lt l1.
Proof.
  induction l1 as [|x l1 IH]; intros H; [constructor|].
  cbn in H. apply StronglySorted_inv in H as [Hs Hx].
  constructor; [now apply IH|]. apply Forall_app in Hx. tauto.
Qed.

Lemma sorted_app l1 l2 :
  StronglySorted lt l1 -> StronglySorted lt l2 ->
  (forall x y, In x l1 -> In y l2 -> (x < y)%nat) ->
  StronglySorted lt (l1 ++ l2).
Proof.
  induction 1 as [|x l1 Hs IH Hx]; intros H2 Hlt; [exact H2|].
  cbn. constructor.
  - apply IH; [exact H2|]. intros a b Ha Hb. apply Hlt; [now right|exact Hb].
  - apply Forall_app. split; [exact Hx|].
    apply List.Forall_forall. intros y Hy. apply Hlt; [now left|exact Hy].
Qed.

Lemma sorted_NoDup l : StronglySorted lt l -> List.NoDup l.
Proof.
  induction 1 as [|x l Hs IH Hx]; constructor; [|exact IH].
  intros Hin. rewrite List.Forall_forall in Hx. specialize (Hx x Hin). lia.
Qed.

(** ** Events of the caller *)

Lemma callOrder_app a b : callOrder (a ++ b) = callOrder a ++ callOrder b.
Proof. apply flat_map_app. Qed.

Lemma snapshotOrder_app a b :
  snapshotOrder (a ++ b) = snapshotOrder a ++ snapshotOrder b.
Proof. apply flat_map_app. Qed.

Lemma invokedOf_app p a b : invokedOf p (a ++ b) = invokedOf p a ++ invokedOf p b.
Proof. apply flat_map_app. Qed.

Lemma pendingOf_app p a b : pendingOf p (a ++ b) = pendingOf p a ++ pendingOf p b.
Proof. apply flat_map_app. Qed.

Lemma registered_app a b : registered (a ++ b) = registered a ++ registered b.
Proof. apply flat_map_app. Qed.

Lemma invocations_app s a b :
  invocations s (a ++ b) = (invocations s a + invocations s b)%nat.
Proof.
  unfold invocations. now rewrite List.filter_app, length_app.
Qed.

Lemma callerEvent_quiet evs : Forall callerEvent evs -> Forall quiet evs.
Proof.
  intros H. eapply Forall_impl; [exact H|].
  intros e. destruct e; cbn; tauto.
Qed.

Lemma quiet_invokedOf p evs : Forall quiet evs -> invokedOf p evs = [].
Proof.
  induction 1 as [|e evs He _ IH]; [reflexivity|].
  destruct e; cbn in *; try exact IH; contradiction.
Qed.

Lemma quiet_invocations s evs : Forall quiet evs -> invocations s evs = 0%nat.
Proof.
  induction 1 as [|e evs He _ IH]; [reflexivity|].
  destruct e; cbn in *; try exact IH; contradiction.
Qed.

Lemma quiet_select p l evs : Forall quiet evs -> ~ In (EvSelect p l) evs.
Proof.
  intros H Hin. rewrite List.Forall_forall in H. exact (H _ Hin).
Qed.

Lemma callerEvent_throw p s e evs :
  Forall callerEvent evs -> ~ In (EvThrow p s e) evs.
Proof.
  intros H Hin. rewrite List.Forall_forall in H. exact (H _ Hin).
Qed.

Lemma quiet_invoke p s a evs : Forall quiet evs -> ~ In (EvInvoke p s a) evs.
Proof.
  intros H Hin. rewrite List.Forall_forall in H. exact (H _ Hin).
Qed.

(** Quiet events leave it true that every invocation of a handler has
    thrown. *)
Lemma thrown_app p s tr evs : thrown p s tr -> thrown p s (tr ++ evs).
Proof. intros [e He]. exists e. apply in_app_iff. now left. Qed.

Lemma thrown_quiet tr evs s (P : nat -> Prop) :
  Forall quiet evs ->
  (forall p a, In (EvInvoke p s a) tr -> thrown p s tr \/ P p) ->
  forall p a, In (EvInvoke p s a) (tr ++ evs) -> thrown p s (tr ++ evs) \/ P p.
Proof.
  intros Hq Hall p a H. apply in_app_iff in H as [H|H].
  - destruct (Hall p a H) as [Ht|Hp]; [left; now apply thrown_app|now right].
  - now apply quiet_invoke in H.
Qed.

Lemma callerEvent_snapshotOrder evs :
  Forall callerEvent evs -> snapshotOrder evs = [].
Proof.
  induction 1 as [|e evs He _ IH]; [reflexivity|].
  destruct e; cbn in *; try exact IH; contradiction.
Qed.

(** ** What the first invariant says of identities *)

Lemma Inv_sid_bound st s :
  Inv st -> In s (subscriptions st) -> (sid s < nextId st)%nat.
Proof.
  intros [] Hin. destruct (inv_registry0 s Hin) as [H _].
  exact (inv_fresh0 _ H).
Qed.

Lemma Inv_registered_bound st x :
  Inv st -> In x (registered (trace st)) -> (x < nextId st)%nat.
Proof.
  intros Hinv Hx. unfold registered in Hx.
  apply in_flat_map in Hx as (e & He & Hx).
  destruct e as [s| | | | | | | |]; cbn in Hx; try contradiction.
  destruct Hx as [<-|[]]. exact (inv_fresh _ Hinv _ He).
Qed.

Lemma Inv_selected_bound st p l x :
  Inv st -> In (EvSelect p l) (trace st) -> In x l -> (x < nextId st)%nat.
Proof.
  intros Hinv Hl Hx. destruct Hinv.
  destruct (WellFormed_In _ _ inv_history0 Hl) as (pre & post & Htr & Hal).
  destruct Hal as (_ & _ & _ & _ & Hsub).
  apply (inv_fresh0 (EvSub x)). rewrite Htr. apply In_prefix. now apply Hsub.
Qed.

Lemma Inv_invoked_bound st p x a :
  Inv st -> In (EvInvoke p x a) (trace st) -> (x < nextId st)%nat.
Proof.
  intros Hinv Hin.
  destruct (WellFormed_In _ _ (inv_history _ Hinv) Hin) as (pre & post & Htr & Hal).
  destruct Hal as (l & Hl & Hx).
  apply (Inv_selected_bound st p l x Hinv); [|exact Hx].
  rewrite Htr. now apply In_prefix.
Qed.

Lemma Inv_thrown_bound st p x :
  Inv st -> thrown p x (trace st) -> (x < nextId st)%nat.
Proof.
  intros Hinv [e He].
  destruct (invoked_of_thrown p x e _ (inv_history _ Hinv) He) as [a Ha].
  eapply Inv_invoked_bound; eassumption.
Qed.

Lemma Inv_wrapper_bound st p m topic args :
  Inv st -> In (TWrapper p m topic args) (immediates st) ->
  (sid (subscription m) < nextId st)%nat.
Proof.
  intros Hinv Hin.
  destruct (inv_wrapper _ Hinv _ _ _ _ Hin) as (_ & l & Hl & Hs).
  eapply Inv_selected_bound; eassumption.
Qed.

Lemma invocations_zero st x :
  Inv st -> (nextId st <= x)%nat -> invocations x (trace st) = 0%nat.
Proof.
  intros Hinv Hx. unfold invocations.
  destruct (List.filter _ (trace st)) as [|e l] eqn:E; [reflexivity|].
  assert (Hin : In e (List.filter
            (fun e => match e with
                      | EvInvoke _ s' _ => Nat.eqb s' x
                      | _ => false
                      end) (trace st))) by (rewrite E; now left).
  apply List.filter_In in Hin as [Hin He].
  destruct e as [| | |p s a| | | | |]; try discriminate.
  apply Nat.eqb_eq in He. subst s.
  pose proof (Inv_invoked_bound _ _ _ _ Hinv Hin). lia.
Qed.

Lemma Inv_unselected st p :
  Inv st -> ~ selected p (trace st) ->
  invokedOf p (trace st) = [] /\ pendingOf p (immediates st) = [].
Proof.
  intros Hinv Hns. split.
  - destruct (invokedOf p (trace st)) as [|x l] eqn:E; [reflexivity|].
    exfalso. assert (Hin : In x (invokedOf p (trace st))) by (rewrite E; now left).
    unfold invokedOf in Hin. apply in_flat_map in Hin as (e & He & Hx).
    destruct e as [| | |q s a| | | | |]; try destruct Hx.
    destruct (Nat.eqb_spec q p) as [->|]; [|destruct Hx].
    destruct (WellFormed_In _ _ (inv_history _ Hinv) He) as (pre & post & Htr & Hal).
    destruct Hal as (l' & Hl & _). apply Hns. exists l'.
    rewrite Htr. now apply In_prefix.
  - destruct (pendingOf p (immediates st)) as [|x l] eqn:E; [reflexivity|].
    exfalso. assert (Hin : In x (pendingOf p (immediates st))) by (rewrite E; now left).
    unfold pendingOf in Hin. apply in_flat_map in Hin as (t & Ht & Hx).
    destruct t as [|q m topic args|]; try destruct Hx.
    destruct (Nat.eqb_spec q p) as [->|]; [|destruct Hx].
    destruct (inv_wrapper _ Hinv _ _ _ _ Ht) as (_ & l' & Hl & _).
    apply Hns. now exists l'.
Qed.

(** ** The code that uses the bus *)

Lemma Frame_refl st : Frame st st.
Proof.
  constructor; auto.
  exists [], []. rewrite !app_nil_r. repeat split; constructor.
Qed.

Lemma Forall_bounds (lo hi lo' hi' : nat) l :
  (lo' <= lo)%nat -> (hi <= hi')%nat ->
  Forall (fun x => (lo <= x < hi)%nat) l ->
  Forall (fun x => (lo' <= x < hi')%nat) l.
Proof.
  intros H1 H2 H. eapply Forall_impl; [exact H|]. cbn. intros x ?. lia.
Qed.

Lemma Frame_trans st1 st2 st3 : Frame st1 st2 -> Frame st2 st3 -> Frame st1 st3.
Proof.
  intros [(e1 & a1 & Ht1 & He1 & Hi1 & Ha1 & Hp1 & Hg1 & Hb1) Hn1 Hs1 Hr1]
         [(e2 & a2 & Ht2 & He2 & Hi2 & Ha2 & Hp2 & Hg2 & Hb2) Hn2 Hs2 Hr2].
  constructor.
  - exists (e1 ++ e2), (a1 ++ a2).
    rewrite Ht2, Ht1, Hi2, Hi1, <- !app_assoc.
    split; [reflexivity|]. split; [apply Forall_app; now split|].
    split; [reflexivity|]. split; [apply Forall_app; now split|].
    split; [now rewrite pubIds_app, callOrder_app, Hp1, Hp2|].
    rewrite registered_app. split.
    + apply sorted_app; [exact Hg1|exact Hg2|].
      rewrite List.Forall_forall in Hb1, Hb2. intros x y Hx Hy.
      specialize (Hb1 x Hx). specialize (Hb2 y Hy). lia.
    + apply Forall_app. split.
      * eapply Forall_bounds; [| |exact Hb1]; lia.
      * eapply Forall_bounds; [| |exact Hb2]; lia.
  - lia.
  - intros s H. destruct (Hs2 s H) as [H2|H2]; [|right; lia].
    destruct (Hs1 s H2); auto.
  - auto.
Qed.

(** A state that differs from [st] by fields other than the history, the
    queue, the registry and the identities. *)
Lemma Frame_same st st' :
  trace st' = trace st -> immediates st' = immediates st ->
  subscriptions st' = subscriptions st -> nextId st' = nextId st ->
  Frame st st'.
Proof.
  intros Ht Hi Hs Hn. constructor.
  - exists [], []. rewrite !app_nil_r. repeat split; auto; constructor.
  - lia.
  - intros s H. left. now rewrite <- Hs.
  - now rewrite Hs.
Qed.

Lemma Frame_settle c e st : Frame st (settle c e st).
Proof.
  destruct c as [|p s]; [apply Frame_refl|]. cbn.
  constructor.
  - exists [EvSettle p s e], []. rewrite app_nil_r.
    repeat split; try (destruct e; reflexivity); repeat constructor.
  - destruct e; cbn; lia.
  - intros x H. left. destruct e; exact H.
  - destruct e; auto.
Qed.

Lemma Frame_deleteSubscription s st : Frame st (deleteSubscription s st).
Proof.
  constructor; state_fields.
  - exists [], []. rewrite !app_nil_r. repeat split; constructor.
  - lia.
  - intros x H. left. now apply List.filter_In in H as [H _].
  - apply sorted_filter_map.
Qed.

Lemma Frame_sub topic handler once st id st' :
  Inv st -> sub topic handler once st = Ok (id, st') -> Frame st st'.
Proof.
  intros Hinv H. unfold sub in H.
  destruct (BasePathMatcher.new topic) as [matcher|]; [|discriminate].
  cbn in H. inversion H; subst; clear H.
  constructor; state_fields.
  - exists [EvSub (nextId st)], []. rewrite app_nil_r.
    repeat split; repeat constructor; lia.
  - lia.
  - intros s H. apply in_app_iff in H as [H|[<-|[]]]; [now left|right].
    cbn. lia.
  - intros Hs. rewrite List.map_app. cbn. apply sorted_snoc; [exact Hs|].
    apply List.Forall_forall. intros x Hx.
    apply List.in_map_iff in Hx as (s & <- & Hin).
    now apply Inv_sid_bound.
Qed.

Lemma Frame_pubCall topic args st : Frame st (pubCall topic args st).2.
Proof.
  unfold pubCall. cbn [snd]. constructor; state_fields.
  - exists [EvCall (nextId st)], [TPub (nextId st) topic args].
    repeat split; repeat constructor.
  - lia.
  - intros s H. now left.
  - auto.
Qed.

(** ** The invariants of the order *)

Lemma notWrapper_pendingOf p added :
  Forall notWrapper added -> pendingOf p added = [].
Proof.
  induction 1 as [|t added Ht _ IH]; [reflexivity|].
  destruct t; cbn in *; try exact IH; contradiction.
Qed.

Lemma notWrapper_In p m topic args q added :
  Forall notWrapper added -> In (TWrapper p m topic args) (q ++ added) ->
  In (TWrapper p m topic args) q.
Proof.
  intros H Hin. apply in_app_iff in Hin as [Hin|Hin]; [exact Hin|].
  rewrite List.Forall_forall in H. destruct (H _ Hin).
Qed.

Lemma Fifo_frame st st' : Fifo st -> Frame st st' -> Fifo st'.
Proof.
  unfold Fifo. intros H [(evs & added & Ht & He & Hi & Ha & Hp & _) _ _ _].
  rewrite Ht, Hi, callOrder_app, snapshotOrder_app, pubIds_app, H, Hp.
  rewrite (callerEvent_snapshotOrder _ He), app_nil_r. now rewrite app_assoc.
Qed.

Lemma Delivery_frame cur st st' :
  Inv st -> Frame st st' ->
  (forall p c, cur = Some (p, c) -> (sid c < nextId st)%nat) ->
  Delivery cur st -> Delivery cur st'.
Proof.
  intros Hinv [(evs & added & Ht & He & Hi & Ha & Hp & Hg & Hb) Hn Hs Hr] Hcur [].
  pose proof (callerEvent_quiet _ He) as Hq.
  assert (Hsel : forall p l, In (EvSelect p l) (trace st') -> In (EvSelect p l) (trace st)).
  { intros p l H. rewrite Ht in H. apply in_app_iff in H as [H|H]; [exact H|].
    now apply quiet_select in H. }
  constructor.
  - intros p l H. rewrite Ht, Hi, invokedOf_app, pendingOf_app.
    rewrite (quiet_invokedOf _ _ Hq), (notWrapper_pendingOf _ _ Ha), !app_nil_r.
    auto.
  - auto.
  - rewrite Ht, registered_app. apply sorted_app; [assumption|exact Hg|].
    intros x y Hx Hy. apply (Inv_registered_bound _ _ Hinv) in Hx.
    rewrite List.Forall_forall in Hb. specialize (Hb y Hy). lia.
  - intros p l H. eauto.
  - intros p m topic args s Hw Hin Hsid. rewrite Hi in Hw.
    apply notWrapper_In in Hw; [|exact Ha].
    destruct (Hs s Hin) as [Hold|Hnew]; [eauto|].
    pose proof (Inv_wrapper_bound _ _ _ _ _ Hinv Hw). lia.
  - intros p c s Hc Hin Hsid. destruct (Hs s Hin) as [Hold|Hnew]; [eauto|].
    pose proof (Hcur p c Hc). lia.
  - intros s Hin Ho. rewrite Ht. apply thrown_quiet; [exact Hq|].
    destruct (Hs s Hin) as [Hold|Hnew]; [now apply del_once0|].
    intros p a H. pose proof (Inv_invoked_bound _ _ _ _ Hinv H). lia.
  - intros s p Hin [e H]. rewrite Ht in H. apply in_app_iff in H as [H|H];
      [|now apply callerEvent_throw in H].
    assert (Hth : thrown p (sid s) (trace st)) by now exists e.
    destruct (Hs s Hin) as [Hold|Hnew]; [eauto|].
    pose proof (Inv_thrown_bound _ _ _ Hinv Hth). lia.
Qed.

(** A step of the dispatcher that adds quiet events and leaves the
    callbacks in the queue and the registry as they are; the handler
    that ran, if one did, has returned or has thrown. *)
Lemma Delivery_quiet cur cur' st st' evs :
  Delivery cur st ->
  trace st' = trace st ++ evs -> Forall quiet evs -> registered evs = [] ->
  subscriptions st' = subscriptions st ->
  (forall p, pendingOf p (immediates st') = pendingOf p (immediates st)) ->
  (forall p m topic args, In (TWrapper p m topic args) (immediates st') ->
                          In (TWrapper p m topic args) (immediates st)) ->
  (forall x, cur' = Some x -> cur = Some x) ->
  (forall p s, cur = Some (p, s) -> In s (subscriptions st) -> once s = true ->
               thrown p (sid s) (trace st') \/ cur' = Some (p, s)) ->
  (forall p s e, In (EvThrow p (sid s) e) evs -> In s (subscriptions st) ->
                 isAsync (handler s) = false) ->
  Delivery cur' st'.
Proof.
  intros [] Ht Hq Hg Hs Hp Hw Hcur Hend Hth.
  assert (Hsel : forall p l, In (EvSelect p l) (trace st') -> In (EvSelect p l) (trace st)).
  { intros p l H. rewrite Ht in H. apply in_app_iff in H as [H|H]; [exact H|].
    now apply quiet_select in H. }
  constructor.
  - intros p l H. rewrite Ht, Hp, invokedOf_app, (quiet_invokedOf _ _ Hq), app_nil_r.
    auto.
  - now rewrite Hs.
  - now rewrite Ht, registered_app, Hg, app_nil_r.
  - eauto.
  - intros p m topic args s H Hin. rewrite Hs in Hin. eauto.
  - intros p c s Hc Hin. rewrite Hs in Hin. eauto.
  - intros s Hin Ho p a H. rewrite Hs in Hin.
    rewrite Ht in H. apply in_app_iff in H as [H|H]; [|now apply quiet_invoke in H].
    destruct (del_once0 s Hin Ho p a H) as [Hx|Hc].
    + left. rewrite Ht. now apply thrown_app.
    + now apply Hend.
  - intros s p Hin [e H]. rewrite Hs in Hin. rewrite Ht in H.
    apply in_app_iff in H as [H|H]; [|eauto].
    apply (del_async0 s p Hin). now exists e.
Qed.

Lemma Fifo_quiet st st' evs :
  Fifo st -> trace st' = trace st ++ evs ->
  callOrder evs = [] -> snapshotOrder evs = [] ->
  immediates st' = immediates st -> Fifo st'.
Proof.
  unfold Fifo. intros H Ht Hc Hs Hi.
  now rewrite Ht, Hi, callOrder_app, snapshotOrder_app, Hc, Hs, !app_nil_r.
Qed.

Lemma Delivery_init : Delivery None (init 0).
Proof.
  constructor; cbn; try (intros; contradiction); try discriminate.
  - constructor.
  - constructor.
Qed.

Lemma Fifo_init : Fifo (init 0).
Proof. reflexivity. Qed.

Lemma pendingOf_wrappers p topic args ms :
  pendingOf p (wrappers p topic args ms) = sids ms.
Proof.
  induction ms as [|m ms IH]; [reflexivity|].
  change (pendingOf p (wrappers p topic args (m :: ms)))
    with ((if Nat.eqb p p then [sid (subscription m)] else [])
          ++ pendingOf p (wrappers p topic args ms)).
  now rewrite Nat.eqb_refl, IH.
Qed.

Lemma pendingOf_wrappers_other p q topic args ms :
  q <> p -> pendingOf q (wrappers p topic args ms) = [].
Proof.
  intros Hne. induction ms as [|m ms IH]; [reflexivity|].
  change (pendingOf q (wrappers p topic args (m :: ms)))
    with ((if Nat.eqb p q then [sid (subscription m)] else [])
          ++ pendingOf q (wrappers p topic args ms)).
  destruct (Nat.eqb_spec p q); [congruence|exact IH].
Qed.

Section Host.

Context {regex : Type}.
Variable RegExp : string -> string -> result regex.
Variable test : regex -> string -> bool.

Lemma Frame_fold_delete (ms : list SubscriptionMatch) st :
  Frame st (fold_left (fun st m => deleteSubscription (sid (subscription m)) st) ms st).
Proof.
  revert st. induction ms as [|m ms IH]; intros st; [apply Frame_refl|].
  cbn. eapply Frame_trans; [apply Frame_deleteSubscription|apply IH].
Qed.

Lemma Frame_throw async c e st : Frame st (throw async c e st).1.
Proof. destruct async; [apply Frame_settle|apply Frame_refl]. Qed.

Lemma Frame_exec async c k st :
  Inv st -> Frame st (exec RegExp test async c k st).1.
Proof.
  revert c st. induction k as [|e|k IH|topic handler once k IH|s k IH|topic k IH
                              |topic args k IH|p k IH|k IH]; intros c st Hinv;
    cbn [exec].
  - apply Frame_settle.
  - apply Frame_throw.
  - cbn [fst]. constructor; state_fields.
    + exists [], [TProg c k]. rewrite app_nil_r. repeat split; repeat constructor.
    + lia.
    + intros s H. now left.
    + auto.
  - destruct (sub topic handler once st) as [[id st']|e] eqn:Hsub.
    + eapply Frame_trans; [eapply Frame_sub; eassumption|].
      apply IH. eapply Inv_sub; eassumption.
    + apply Frame_throw.
  - eapply Frame_trans; [apply (Frame_deleteSubscription s)|].
    apply IH. now apply Inv_deleteSubscription.
  - destruct (unsubTopic RegExp test topic st) as [st'|e] eqn:Hu.
    + pose proof (Inv_unsubTopic RegExp test _ _ _ Hinv Hu) as Hinv'.
      unfold unsubTopic in Hu.
      destruct (filterSubs RegExp test topic st) as [ms|]; [|discriminate].
      cbn in Hu. inversion Hu; subst; clear Hu.
      eapply Frame_trans; [apply Frame_fold_delete|]. now apply IH.
    + apply Frame_throw.
  - eapply Frame_trans; [apply (Frame_pubCall topic args)|].
    apply (IH (nextId st)). now apply (Inv_pubCall topic args).
  - cbn [fst]. destruct (promises st !! p) as [[| |e]|]; now apply Frame_same.
  - now apply IH.
Qed.

Lemma mapM_sids topic subs all :
  mapM (matchSubscription RegExp test topic) subs = Ok all ->
  List.map (fun m => sid (subscription m)) all = List.map sid subs.
Proof.
  revert all. induction subs as [|s subs IH]; intros all H; cbn in H.
  - now inversion H.
  - destruct (matchSubscription RegExp test topic s) as [m|] eqn:Hm; [|discriminate].
    cbn in H. destruct (mapM _ subs) as [ms|]; [|discriminate].
    cbn in H. inversion H; subst. cbn.
    rewrite (matchSubscription_subscription _ _ _ _ _ Hm). f_equal. now apply IH.
Qed.

Lemma filterSubs_sorted topic st ms :
  StronglySorted lt (List.map sid (subscriptions st)) ->
  filterSubs RegExp test topic st = Ok ms ->
  StronglySorted lt (sids ms).
Proof.
  unfold filterSubs. intros Hs H.
  destruct (mapM _ _) as [all|] eqn:Hall; [|discriminate].
  cbn in H. inversion H; subst. unfold sids. apply sorted_filter_map.
  now rewrite (mapM_sids _ _ _ Hall).
Qed.

(** The three invariants together. *)
Local Abbreviation Good st := (Inv st /\ Fifo st /\ Delivery None st).

Lemma Good_exec async c k st :
  Good st -> Good (exec RegExp test async c k st).1.
Proof.
  intros (Hinv & Hf & Hd).
  pose proof (Frame_exec async c k st Hinv) as Hfr.
  split; [now apply Inv_exec|]. split; [eapply Fifo_frame; eassumption|].
  eapply Delivery_frame; try eassumption. discriminate.
Qed.

(** A step of [Promise.all] or of the end of [pub]. *)
Lemma Good_quiet st st' evs :
  Inv st' -> Fifo st -> Delivery None st ->
  trace st' = trace st ++ evs -> Forall quiet evs ->
  callOrder evs = [] -> snapshotOrder evs = [] -> registered evs = [] ->
  subscriptions st' = subscriptions st -> immediates st' = immediates st ->
  Forall (fun e => match e with EvThrow _ _ _ => False | _ => True end) evs ->
  Good st'.
Proof.
  intros Hinv Hf Hd Ht Hq Hc Hs Hg Hsub Hi Hx. split; [exact Hinv|]. split.
  - eapply Fifo_quiet; eassumption.
  - eapply (Delivery_quiet None None st st' evs); try eassumption; auto.
    + intros p. now rewrite Hi.
    + intros p m topic args. now rewrite Hi.
    + intros p s e H. rewrite List.Forall_forall in Hx. now apply Hx in H.
Qed.

Ltac quiet_goals :=
  auto; try reflexivity; try solve [cbn; now rewrite app_nil_r];
  try solve [repeat constructor].

Lemma Good_runTask t rest st :
  Good st -> ready st = [] -> immediates st = t :: rest ->
  Good (runTask RegExp test t (setImmediates rest st)).
Proof.
  intros (Hinv & Hf & Hd) Hr Hq.
  pose proof (Inv_runTask RegExp test t rest st Hinv Hr Hq) as Hinv'.
  destruct t as [p topic args|p m topic args|c k].
  - (* the snapshot of a publication *)
    destruct (Inv_pop_pub _ _ _ _ _ Hinv Hr Hq) as (Hinv0 & Haw & Hp).
    cbn [runTask] in *.
    destruct (filterSubs RegExp test topic (setImmediates rest st)) as [ms|e] eqn:Hms.
    + rewrite enqueue_wrappers in *. fold (sids ms) in *.
      set (st1 := setImmediates _ (emit (EvSelect p (sids ms)) (setImmediates rest st))) in *.
      assert (Hf1 : Fifo st1).
      { unfold Fifo in *. subst st1. state_fields.
        rewrite Hq in Hf. cbn in Hf.
        rewrite callOrder_app, snapshotOrder_app, pubIds_app, pubIds_wrappers, Hf.
        cbn. rewrite !app_nil_r, <- app_assoc. reflexivity. }
      assert (Hns : ~ selected p (trace st)) by (destruct Haw as (_ & H & _); exact H).
      destruct (Inv_unselected _ _ Hinv Hns) as [Hi0 Hp0].
      rewrite Hq in Hp0.
      change (pendingOf p (TPub p topic args :: rest)) with (pendingOf p rest) in Hp0.
      assert (Hd1 : Delivery None st1).
      { destruct Hd. constructor; subst st1; state_fields.
        - intros q l H. apply In_snoc in H as [H|H].
          + assert (Hne : q <> p) by (intros ->; apply Hns; now exists l).
            rewrite invokedOf_app, pendingOf_app.
            rewrite (pendingOf_wrappers_other _ _ _ _ _ Hne). cbn.
            rewrite !app_nil_r. rewrite (del_selected0 q l H), Hq. cbn.
            reflexivity.
          + inversion H; subst; clear H.
            rewrite invokedOf_app, pendingOf_app, pendingOf_wrappers, Hi0, Hp0.
            reflexivity.
        - exact del_registry0.
        - rewrite registered_app. cbn. now rewrite app_nil_r.
        - intros q l H. apply In_snoc in H as [H|H]; [eauto|].
          inversion H; subst. eapply filterSubs_sorted; [|exact Hms]. exact del_registry0.
        - intros q m t a s H Hin Hsid. apply in_app_iff in H as [H|H].
          + apply (del_same0 q m t a s); auto. rewrite Hq. now right.
          + unfold wrappers in H. apply List.in_map_iff in H as (m' & H & Hm).
            inversion H; subst; clear H.
            destruct (filterSubs_sound _ _ _ _ _ _ Hms Hm) as (Hreg & _).
            eapply sorted_inj; [exact del_registry0|exact Hin|exact Hreg|exact Hsid].
        - discriminate.
        - intros s Hin Ho q a H. apply In_snoc in H as [H|H]; [|discriminate].
          destruct (del_once0 s Hin Ho q a H) as [Hth|Hc]; [|discriminate].
          left. now apply thrown_app.
        - intros s q Hin [e H]. apply In_snoc in H as [H|H]; [|discriminate].
          apply (del_async0 s q Hin). now exists e. }
      destruct (allDone p st1); [|auto].
      apply (Good_quiet st1 _ []); quiet_goals.
    + split; [exact Hinv'|]. split.
      * unfold Fifo in *. cbn [reject wake trace immediates setReady setWaiting
          emit setPromises setImmediates].
        rewrite Hq in Hf. cbn in Hf.
        rewrite callOrder_app, snapshotOrder_app, Hf. cbn.
        rewrite !app_nil_r, <- app_assoc. reflexivity.
      * eapply (Delivery_quiet None None st _ [EvReject p]); try exact Hd;
          try reflexivity; auto.
        -- repeat constructor.
        -- intros q. cbn [reject wake trace immediates setReady setWaiting
             emit setPromises setImmediates]. now rewrite Hq.
        -- intros q m t a H. cbn in H. rewrite Hq. now right.
        -- intros q s e' [H|[]]. discriminate.
  - (* the callback of a publication for one subscription *)
    cbn [runTask] in *.
    destruct (Inv_pop_wrapper p m topic args rest st (fullArgs m topic args) Hinv Hr Hq)
      as (Hinv0 & _).
    set (sm := subscription m) in *.
    set (st0 := emit _ (setImmediates rest st)) in *.
    assert (Hhead : In (TWrapper p m topic args) (immediates st))
      by (rewrite Hq; now left).
    assert (Hf0 : Fifo st0).
    { unfold Fifo in *. subst st0. state_fields. rewrite Hq in Hf. cbn in Hf.
      rewrite callOrder_app, snapshotOrder_app, Hf. cbn. now rewrite !app_nil_r. }
    assert (Hd0 : Delivery (Some (p, sm)) st0).
    { destruct Hd. constructor; subst st0; state_fields.
      - intros q l H. apply In_snoc in H as [H|H]; [|discriminate].
        rewrite invokedOf_app, (del_selected0 q l H), Hq. cbn.
        destruct (Nat.eqb_spec p q) as [->|Hne]; cbn.
        + now rewrite <- app_assoc.
        + now rewrite app_nil_r.
      - exact del_registry0.
      - rewrite registered_app. cbn. now rewrite app_nil_r.
      - intros q l H. apply In_snoc in H as [H|H]; [eauto|discriminate].
      - intros q m' t a s H. apply (del_same0 q m' t a s). rewrite Hq. now right.
      - intros q c s Hc Hin Hsid. inversion Hc; subst c.
        now apply (del_same0 p m topic args s).
      - intros s Hin Ho q a H. apply In_snoc in H as [H|H].
        + destruct (del_once0 s Hin Ho q a H) as [Hth|Hc]; [|discriminate].
          left. now apply thrown_app.
        + inversion H; subst. right. f_equal. f_equal. symmetry.
          now apply (del_same0 p m topic args s).
      - intros s q Hin [e H]. apply In_snoc in H as [H|H]; [|discriminate].
        apply (del_async0 s q Hin). now exists e. }
    pose proof (Inv_exec RegExp test (isAsync (handler sm)) (CHandler p (sid sm))
                  (body (handler sm) (fullArgs m topic args)) st0 Hinv0) as Hinv1.
    pose proof (Frame_exec (isAsync (handler sm)) (CHandler p (sid sm))
                  (body (handler sm) (fullArgs m topic args)) st0 Hinv0) as Hfr.
    assert (Hbound : forall q c, Some (p, sm) = Some (q, c) -> (sid c < nextId st0)%nat).
    { intros q c Hc. inversion Hc; subst c.
      exact (Inv_wrapper_bound _ _ _ _ _ Hinv Hhead). }
    pose proof (Fifo_frame _ _ Hf0 Hfr) as Hf1.
    pose proof (Delivery_frame _ _ _ Hinv0 Hfr Hbound Hd0) as Hd1.
    pose proof (exec_async RegExp test (CHandler p (sid sm))
                  (body (handler sm) (fullArgs m topic args)) st0) as Hasync.
    destruct (exec _ _ _ _ _ st0) as [st1 [e|]] eqn:He; cbn [fst] in *.
    + (* the handler throws *)
      assert (Hplain : isAsync (handler sm) = false).
      { destruct (isAsync (handler sm)); [|reflexivity].
        rewrite He in Hasync. discriminate. }
      split; [exact Hinv'|]. split.
      * eapply (Fifo_quiet st1 _ [EvThrow p (sid sm) e]); try reflexivity. exact Hf1.
      * eapply (Delivery_quiet (Some (p, sm)) None st1 _ [EvThrow p (sid sm) e]);
          try exact Hd1; try reflexivity; auto.
        -- repeat constructor.
        -- discriminate.
        -- intros q s Hc _ _. inversion Hc; subst. left.
           exists e. cbn. apply In_snoc. now right.
        -- intros q s e0 [H|[]] Hin. inversion H as [[Hq' Hsid He0]].
           rewrite (del_cur _ _ Hd1 p sm s eq_refl Hin (eq_sym Hsid)).
           exact Hplain.
    + (* the handler returns its promise *)
      set (st2 := if once sm then deleteSubscription (sid sm) st1 else st1) in *.
      assert (Hf2 : Fifo st2) by (subst st2; destruct (once sm); exact Hf1).
      assert (Hd2 : Delivery None st2).
      { destruct Hd1. subst st2. destruct (once sm) eqn:Honce.
        - constructor; state_fields; auto.
          + now apply sorted_filter_map.
          + intros q m' t a s H Hin. apply List.filter_In in Hin as [Hin _]. eauto.
          + discriminate.
          + intros s Hin Ho q a H. apply List.filter_In in Hin as [Hin Hne].
            destruct (del_once0 s Hin Ho q a H) as [Hth|Hc]; [now left|].
            inversion Hc; subst s. rewrite Nat.eqb_refl in Hne. discriminate.
          + intros s q Hin Hth. apply List.filter_In in Hin as [Hin _]. eauto.
        - constructor; auto; [discriminate|].
          intros s Hin Ho q a H.
          destruct (del_once0 s Hin Ho q a H) as [Hth|Hc]; [now left|].
          inversion Hc; subst s. congruence. }
      apply (Good_quiet st2 _ []); quiet_goals.
  - (* the code that uses the bus resumes *)
    cbn [runTask] in *. apply Good_exec.
    split; [eapply Inv_pop_prog; eassumption|]. split.
    + unfold Fifo in *. cbn [setImmediates trace immediates].
      now rewrite Hq in Hf.
    + eapply (Delivery_quiet None None st _ []); try exact Hd; try reflexivity; auto.
      * now rewrite app_nil_r.
      * intros q. cbn [setImmediates immediates]. now rewrite Hq.
      * intros q m t a H. cbn in H. rewrite Hq. now right.
      * intros q s e' [].
Qed.

Lemma Good_pop_job j rest st :
  Good st -> ready st = j :: rest -> Good (setReady rest st).
Proof.
  intros (Hinv & Hf & Hd) Hq.
  apply (Good_quiet st _ []); quiet_goals.
  now apply (Inv_pop_job j rest st Hinv Hq).
Qed.

Lemma Good_runJob j rest st :
  Good st -> ready st = j :: rest -> Good (runJob RegExp test j (setReady rest st)).
Proof.
  intros Hg Hq. pose proof (Good_pop_job j rest st Hg Hq) as (Hinv0 & Hf0 & Hd0).
  pose proof (Inv_runJob RegExp test j rest st (proj1 Hg) Hq) as Hinv'.
  destruct j as [c k|p [e|]|p [e|]]; cbn [runJob] in *.
  - apply Good_exec. auto.
  - destruct (pending p _); [|auto].
    apply (Good_quiet (setReady rest st) _ []); quiet_goals.
  - destruct (allDone p _ && pending p _); [|auto].
    apply (Good_quiet (setReady rest st) _ []); quiet_goals.
  - apply (Good_quiet (setReady rest st) _ [EvFail p e]); quiet_goals.
  - apply (Good_quiet (setReady rest st) _ [EvFulfil p]); quiet_goals.
Qed.

Lemma Good_step st st' : Good st -> step RegExp test st = Some st' -> Good st'.
Proof.
  intros Hg H. unfold step in H.
  destruct (ready st) as [|j rest] eqn:Hr.
  - destruct (immediates st) as [|t rest] eqn:Hq; [discriminate|].
    inversion H; subst. now apply Good_runTask.
  - inversion H; subst. now apply Good_runJob.
Qed.

Lemma Good_run n st : Good st -> Good (run RegExp test n st).
Proof.
  revert st. induction n as [|n IH]; intros st Hg; [exact Hg|].
  cbn. destruct (step RegExp test st) as [st'|] eqn:Hs; [|exact Hg].
  apply IH. eapply Good_step; eassumption.
Qed.

Lemma Good_reachable main n : Good (run RegExp test n (boot RegExp test 0 main)).
Proof.
  apply Good_run. unfold boot. apply Good_exec.
  split; [apply Inv_init|]. split; [apply Fifo_init|apply Delivery_init].
Qed.

(** ** The order of the dispatch *)

(** The process after [n] steps of the event loop. *)
Local Abbreviation process n main :=
  (run RegExp test n (boot RegExp test 0 main)).

(** X17.  At every step of every process, publications take their
    snapshot in the order of the calls of [pub]: the publications whose
    snapshot was taken or has failed, followed by those that still wait
    for their first tick, in the order of the queue, are the
    publications in the order of the calls. *)
Theorem snapshots_in_call_order (main : prog) (n : nat) :
  callOrder (trace (process n main)) =
  snapshotOrder (trace (process n main)) ++ pubIds (immediates (process n main)).
Proof. exact (proj1 (proj2 (Good_reachable main n))). Qed.

(** X18.  Within a publication the handlers are invoked in the order in
    which their subscriptions were registered, each of them once at
    most: the snapshot is sorted by registration, and it is the handlers
    invoked so far followed by those that are still to be invoked. *)
Theorem handlers_invoked_in_registration_order (main : prog) (n p : nat)
    (l : list nat) :
  In (EvSelect p l) (trace (process n main)) ->
  StronglySorted lt (registered (trace (process n main))) /\
  StronglySorted lt l /\
  l = invokedOf p (trace (process n main)) ++
      pendingOf p (immediates (process n main)) /\
  List.NoDup (invokedOf p (trace (process n main))).
Proof.
  intros H. destruct (Good_reachable main n) as (_ & _ & Hd). destruct Hd.
  split; [assumption|]. split; [eauto|]. split; [eauto|].
  apply sorted_NoDup. eapply sorted_app_inv.
  rewrite <- (del_selected0 p l H). eauto.
Qed.

(** X19.  A subscription made with [once] that is still in the registry
    was never invoked by a callback of [pub] that went on: the handler
    has thrown at every callback that has invoked it, which the callback
    does not catch and which makes it skip the removal.  So, when the
    handler is an async function, which throws at no caller, the
    subscription has never been invoked. *)
Theorem once_subscription_leaves_registry (main : prog) (n : nat)
    (s : Subscription) :
  In s (subscriptions (process n main)) -> once s = true ->
  (forall p a, In (EvInvoke p (sid s) a) (trace (process n main)) ->
               thrown p (sid s) (trace (process n main))) /\
  (isAsync (handler s) = true ->
   invocations (sid s) (trace (process n main)) = 0%nat).
Proof.
  intros Hin Ho. destruct (Good_reachable main n) as (_ & _ & Hd).
  assert (Hall : forall p a, In (EvInvoke p (sid s) a) (trace (process n main)) ->
                             thrown p (sid s) (trace (process n main))).
  { intros p a H.
    destruct (del_once _ _ Hd s Hin Ho p a H) as [Hth|Hc]; [exact Hth|discriminate]. }
  split; [exact Hall|]. intros Ha. unfold invocations.
  destruct (List.filter _ _) as [|e l] eqn:E; [reflexivity|]. exfalso.
  assert (He : In e (e :: l)) by now left.
  rewrite <- E in He. apply List.filter_In in He as [He Hs].
  destruct e as [| | |p s' a| | | | |]; try discriminate.
  apply Nat.eqb_eq in Hs. subst s'.
  pose proof (del_async _ _ Hd s p Hin (Hall p a He)). congruence.
Qed.

(** ** Leaving the registry *)

Lemma filter_all {A : Type} (f : A -> bool) l :
  (forall x, In x l -> f x = true) -> List.filter f l = l.
Proof.
  induction l as [|a l IH]; intros H; [reflexivity|].
  cbn. rewrite (H a) by now left. f_equal. apply IH. intros x Hx. apply H. now right.
Qed.

(** X20.  [unsub] with the subscription that [sub] has just returned gives
    the registry back as it was before the call of [sub]. *)
Theorem unsub_undoes_sub (main : prog) (n : nat) (topic : string)
    (handler : Subscriber) (once : bool) (id : nat) (st' : State) :
  sub topic handler once (process n main) = Ok (id, st') ->
  subscriptions (unsub id st') = subscriptions (process n main).
Proof.
  intros H. pose proof (Inv_reachable RegExp test main n) as Hinv.
  set (st := process n main) in *. unfold sub in H.
  destruct (BasePathMatcher.new topic) as [matcher|]; [|discriminate].
  cbn in H. inversion H; subst; clear H.
  unfold unsub. state_fields. rewrite List.filter_app. cbn.
  rewrite Nat.eqb_refl. cbn. rewrite app_nil_r. apply filter_all.
  intros s Hs. apply negb_true_iff, Nat.eqb_neq.
  pose proof (Inv_sid_bound _ _ Hinv Hs). lia.
Qed.

Lemma fold_delete_In (ms : list SubscriptionMatch) st s :
  In s (subscriptions
          (fold_left (fun st m => deleteSubscription (sid (subscription m)) st) ms st))
  <-> In s (subscriptions st) /\ ~ In (sid s) (sids ms).
Proof.
  revert st. induction ms as [|m ms IH]; intros st; cbn [fold_left].
  - cbn. tauto.
  - rewrite IH. state_fields. rewrite List.filter_In, negb_true_iff, Nat.eqb_neq.
    cbn. intuition.
Qed.

Lemma mapM_none topic l :
  (forall s, In s l ->
     exists m, matchSubscription RegExp test topic s = Ok m /\ match_ m = false) ->
  exists all, mapM (matchSubscription RegExp test topic) l = Ok all /\
              List.filter match_ all = [].
Proof.
  induction l as [|s l IH]; intros H.
  - exists []. split; reflexivity.
  - destruct (H s) as (m & Hm & Hf); [now left|].
    destruct IH as (all & Hall & Hnone); [intros x Hx; apply H; now right|].
    exists (m :: all). cbn. rewrite Hm. cbn. rewrite Hall. cbn.
    split; [reflexivity|]. now rewrite Hf.
Qed.

(** X21.  [unsub] with a string removes the subscriptions whose pattern
    matches the string as a topic, and no other; after it no
    subscription matches that topic. *)
Theorem unsubTopic_removes_matching (main : prog) (n : nat) (topic : string)
    (st' : State) :
  unsubTopic RegExp test topic (process n main) = Ok st' ->
  filterSubs RegExp test topic st' = Ok [] /\
  forall s,
    In s (subscriptions st') <->
    In s (subscriptions (process n main)) /\
    exists m, matchSubscription RegExp test topic s = Ok m /\ match_ m = false.
Proof.
  intros H. destruct (Good_reachable main n) as (_ & _ & Hd).
  pose proof (del_registry _ _ Hd) as Hsorted.
  set (st := process n main) in *. unfold unsubTopic in H.
  destruct (filterSubs RegExp test topic st) as [ms|] eqn:Hms; [|discriminate].
  cbn in H. inversion H; subst; clear H.
  assert (Hiff : forall s,
    In s (subscriptions
            (fold_left (fun st m => deleteSubscription (sid (subscription m)) st) ms st))
    <-> In s (subscriptions st) /\
        exists m, matchSubscription RegExp test topic s = Ok m /\ match_ m = false).
  { intros s. rewrite fold_delete_In. split.
    - intros [Hin Hout]. split; [exact Hin|].
      assert (Hall := Hms). unfold filterSubs in Hall.
      destruct (mapM _ _) as [all|] eqn:Hmap; [|discriminate].
      destruct (mapM_Ok_complete _ _ _ _ Hmap Hin) as (m & Hm & _).
      exists m. split; [exact Hm|].
      destruct (match_ m) eqn:E; [|reflexivity]. exfalso. apply Hout.
      pose proof (filterSubs_complete _ _ _ _ _ _ _ Hms Hin Hm E) as Hin'.
      unfold sids. apply List.in_map_iff. exists m. split; [|exact Hin'].
      now rewrite (matchSubscription_subscription _ _ _ _ _ Hm).
    - intros [Hin (m & Hm & Hf)]. split; [exact Hin|]. intros Hs.
      unfold sids in Hs. apply List.in_map_iff in Hs as (m' & Hsid & Hin').
      destruct (filterSubs_sound _ _ _ _ _ _ Hms Hin') as (Hreg & Htrue & Hm').
      assert (Heq : subscription m' = s)
        by (eapply sorted_inj; [exact Hsorted|exact Hreg|exact Hin|exact Hsid]).
      rewrite Heq in Hm'. congruence. }
  split; [|exact Hiff].
  unfold filterSubs.
  destruct (mapM_none topic
              (subscriptions
                 (fold_left (fun st m => deleteSubscription (sid (subscription m)) st)
                    ms st))) as (all & Hall & Hnone).
  { intros s Hs. now apply Hiff in Hs as [_ Hs]. }
  rewrite Hall. cbn. now rewrite Hnone.
Qed.

End Host.

End OrderFacts.

(** ** The theorems on the processes used as examples *)

Section OrderWitnesses.

Import BasePubSub History Order Examples.

Lemma handlers_invoked_in_registration_order_witness :
  StronglySorted lt (registered (trace (es_process 2 failureIsolation))) /\
  StronglySorted lt [0; 1]%nat /\
  [0; 1]%nat = invokedOf 2 (trace (es_process 2 failureIsolation)) ++
               pendingOf 2 (immediates (es_process 2 failureIsolation)) /\
  List.NoDup (invokedOf 2 (trace (es_process 2 failureIsolation))).
Proof.
  apply (handlers_invoked_in_registration_order EsRegExp.RegExp EsRegExp.test
           failureIsolation 2 2 [0; 1]%nat).
  vm_compute. do 3 right. left. reflexivity.
Defined.

Lemma once_subscription_leaves_registry_witness :
  In (mkSubscription 0 "/t" (compiled "/t") throwing true ∅)
     (subscriptions (es_process 5 onceThrowing)) /\
  invocations 0 (trace (es_process 5 onceThrowing)) = 1%nat /\
  thrown 1 0 (trace (es_process 5 onceThrowing)).
Proof.
  split; [vm_compute; left; reflexivity|]. split; [vm_compute; reflexivity|].
  destruct (once_subscription_leaves_registry EsRegExp.RegExp EsRegExp.test
              onceThrowing 5 (mkSubscription 0 "/t" (compiled "/t") throwing true ∅))
    as [Hall _].
  - vm_compute. left. reflexivity.
  - reflexivity.
  - unfold es_process, es_boot.
    apply (Hall 1%nat (<["topic" := JSString "/t"]> {[ "_" := JSStrings [] ]})).
    vm_compute. do 3 right. left. reflexivity.
Defined.

Lemma unsub_undoes_sub_witness :
  match sub "/x" quick false (es_process 0 slowHandler) with
  | Ok (id, st') =>
      subscriptions (unsub id st') = subscriptions (es_process 0 slowHandler)
  | Throw _ => False
  end.
Proof.
  unfold es_process, es_boot.
  destruct (sub "/x" quick false
              (run EsRegExp.RegExp EsRegExp.test 0
                 (boot EsRegExp.RegExp EsRegExp.test 0 slowHandler)))
    as [[id st']|e] eqn:H.
  - apply (unsub_undoes_sub EsRegExp.RegExp EsRegExp.test slowHandler 0
             "/x" quick false id st'). exact H.
  - vm_compute in H. discriminate.
Defined.

Lemma unsubTopic_removes_matching_witness :
  match unsubTopic EsRegExp.RegExp EsRegExp.test "/t" (es_process 0 slowHandler) with
  | Ok st' => filterSubs EsRegExp.RegExp EsRegExp.test "/t" st' = Ok []
  | Throw _ => False
  end.
Proof.
  unfold es_process, es_boot.
  destruct (unsubTopic EsRegExp.RegExp EsRegExp.test "/t"
              (run EsRegExp.RegExp EsRegExp.test 0
                 (boot EsRegExp.RegExp EsRegExp.test 0 slowHandler)))
    as [st'|e] eqn:H.
  - destruct (unsubTopic_removes_matching EsRegExp.RegExp EsRegExp.test
                slowHandler 0 "/t" st' H) as [Hnone _].
    exact Hnone.
  - vm_compute in H. discriminate.
Defined.

End OrderWitnesses.

(** ** Every publication settles *)

Section ProgressFacts.

Context {regex : Type}.
Variable RegExp : string -> string -> result regex.
Variable test : regex -> string -> bool.

Import BasePubSub History Order.

Ltac state_fields :=
  cbn [trace immediates subscriptions _inflightCount nextId console ready
       waiting promises emit setConsole setImmediates setSubscriptions
       setNextId setPromises setInflightCount setReady setWaiting
       setImmediate handleError deleteSubscription enqueue] in *.

(** ** The jobs that are due come to an end *)










(** ** What one callback adds *)



(** ** Publications that have taken their snapshot *)





Lemma called_app p tr evs : called p tr -> called p (tr ++ evs).
Proof. unfold called. intros H. apply in_app_iff. now left. Qed.










(** ** Every publication is settled *)










(** The process after [n] steps of the event loop. *)
Local Abbreviation process n main :=
  (run RegExp test n (boot RegExp test 0 main)).










End ProgressFacts.

Section ProgressWitnesses.

Import BasePubSub History Examples.





End ProgressWitnesses.
